(** * Brainfuck: the pattern-recognising compiler, the two-ended tape and
      the threaded interpreter of [DirectThreadingCompiler],
      [TwoEndedTape] and [DirectThreadingInterpreter].

    Conventions of the embedding.
    - [unsigned char] source bytes are [ascii]; a buffer is [list ascii].
    - [size_t] indices into a vector (cursor, counts, pattern lengths, the
      loop stack) are [nat]: they are bounded by the size of the vector
      they index, so their arithmetic cannot wrap.  Where [size_t]
      arithmetic can wrap ([2 * TAPE_SIZE - n] on the tape, [++pc] in the
      interpreter) it is written on [Z] with the reduction modulo [2^64].
    - [uint16_t] is a [Z] reduced modulo [65536]; [int32_t] operands are
      [Z] (signed overflow would need a buffer of [2^31] sign characters).
    - [vec[k]] is a checked read: reading outside the vector is undefined
      behaviour in the source and is the result [OutOfRange k] here. *)

From Stdlib Require Import ZArith Ascii String Lia.
From stdpp Require Import base list strings.

#[local] Open Scope nat_scope.

#[global] Instance nat_ge_dec : RelDecision ge := fun x y => decide (y <= x).
#[global] Instance nat_gt_dec : RelDecision gt := fun x y => decide (y < x).

(** ** Checked reads *)

Inductive access (A : Type) : Type :=
| Got (a : A)
| OutOfRange (idx : nat).
Arguments Got {A} a.
Arguments OutOfRange {A} idx.

#[global] Instance access_bind : MBind access := fun A B k a =>
  match a with
  | Got x => k x
  | OutOfRange i => OutOfRange i
  end.

#[global] Instance access_fmap : FMap access := fun A B f a =>
  match a with
  | Got x => Got (f x)
  | OutOfRange i => OutOfRange i
  end.

(** [a &&& b] and [a ||| b]: the short-circuit operators of the source;
    the right operand is not read when the left one decides. *)
Definition and_then (a b : access bool) : access bool :=
  match a with
  | Got true => b
  | _ => a
  end.

Definition or_else (a b : access bool) : access bool :=
  match a with
  | Got false => b
  | _ => a
  end.

Infix "&&&" := and_then (at level 40, left associativity).
Infix "|||" := or_else (at level 50, left associativity).

Abbreviation buffer := (list ascii).

(** [ops[k]] *)
Definition rd (ops : buffer) (k : nat) : access ascii :=
  match ops !! k with
  | Some c => Got c
  | None => OutOfRange k
  end.

(** [ops[k] == c] and [ops[k] != c] *)
Definition rd_eq (ops : buffer) (k : nat) (c : ascii) : access bool :=
  x ← rd ops k; Got (Ascii.eqb x c).

Definition rd_ne (ops : buffer) (k : nat) (c : ascii) : access bool :=
  x ← rd ops k; Got (negb (Ascii.eqb x c)).

(** ** Instructions *)

Inductive OpCode : Set :=
| OUTPUT
| INPUT
| JUMP_FWD
| JUMP_BACK
| SET_ZERO
| ADD_VAL
| MV_POS
| ADD_TO_NEXT
| MULTIPLY_MV
| SET_VAL
| SCAN_RIGHT
| SCAN_LEFT.

#[global] Instance OpCode_eq_dec : EqDecision OpCode.
Proof. solve_decision. Defined.

(** The underlying [uint16_t] value of the enumerators, in declaration
    order. *)
Definition OpCode_tag (o : OpCode) : Z :=
  match o with
  | OUTPUT => 0
  | INPUT => 1
  | JUMP_FWD => 2
  | JUMP_BACK => 3
  | SET_ZERO => 4
  | ADD_VAL => 5
  | MV_POS => 6
  | ADD_TO_NEXT => 7
  | MULTIPLY_MV => 8
  | SET_VAL => 9
  | SCAN_RIGHT => 10
  | SCAN_LEFT => 11
  end%Z.

Record Instruction : Set := mkInstruction {
  op : OpCode;
  jump_ref : Z;   (* size_t *)
  value : Z       (* int32_t *)
}.

#[global] Instance Instruction_eq_dec : EqDecision Instruction.
Proof. solve_decision. Defined.

Definition to_uint8 (n : Z) : Z := (n mod 256)%Z.
Definition to_uint16 (n : Z) : Z := (n mod 65536)%Z.
Definition to_uint32 (n : Z) : Z := (n mod 2 ^ 32)%Z.
Definition to_int32 (n : Z) : Z := ((n + 2 ^ 31) mod 2 ^ 32 - 2 ^ 31)%Z.
Definition to_size_t (n : Z) : Z := (n mod 2 ^ 64)%Z.

(** ** Methods that change an object, may throw, or may leave the
       language's defined behaviour *)

Inductive undefined : Set :=
| TapeIndexOutOfRange     (* right[k] or left[k] with k outside the array *)
| FetchOutOfRange.        (* bytecode[pc] with pc outside the vector *)

Inductive result (S A : Type) : Type :=
| Ok (a : A) (s : S)
| Throw (what : string) (s : S)    (* std::out_of_range, with the state left behind *)
| Undefined (u : undefined)
| Unfinished.                      (* a loop still running when the fuel ran out *)
Arguments Ok {S A} a s.
Arguments Throw {S A} what s.
Arguments Undefined {S A} u.
Arguments Unfinished {S A}.

Definition M (S A : Type) : Type := S -> result S A.

#[global] Instance M_ret {S} : MRet (M S) := fun A a s => Ok a s.

#[global] Instance M_bind {S} : MBind (M S) := fun A B k m s =>
  match m s with
  | Ok a s' => k a s'
  | Throw what s' => Throw what s'
  | Undefined u => Undefined u
  | Unfinished => Unfinished
  end.

(** ** DirectThreadingCompiler *)

Module DirectThreadingCompiler.

Record PatternCheckResults : Set := mkPattern {
  found : bool;
  val : Z;
  len_of_pattern : nat
}.

Definition no_pattern : PatternCheckResults := mkPattern false 0 0.

Definition is_set_zero_pattern (ops : buffer) (start : nat) : access bool :=
  if decide (start + 2 >= length ops) then Got false
  else
    rd_eq ops start "[" &&&
    (rd_eq ops (start + 1) "-" ||| rd_eq ops (start + 1) "+") &&&
    rd_eq ops (start + 2) "]".

Definition is_scan_pattern (ops : buffer) (pos : nat)
  : access PatternCheckResults :=
  if decide (pos + 2 >= length ops) then Got no_pattern
  else
    c0 ← rd ops pos;
    if negb (Ascii.eqb c0 "[") then Got no_pattern
    else
      direction ← rd ops (pos + 1);
      if negb (Ascii.eqb direction ">") && negb (Ascii.eqb direction "<")
      then Got no_pattern
      else
        c2 ← rd ops (pos + 2);
        if negb (Ascii.eqb c2 "]") then Got no_pattern
        else Got (mkPattern true (if Ascii.eqb direction ">" then 1 else 0) 3).

Definition is_add_to_next_pattern (ops : buffer) (pos : nat) : access bool :=
  if decide (pos + 4 >= length ops) then Got false
  else
    rd_eq ops pos "[" &&& rd_eq ops (pos + 1) "-" &&&
    rd_eq ops (pos + 2) ">" &&& rd_eq ops (pos + 3) "+" &&&
    rd_eq ops (pos + 4) "<" &&& rd_eq ops (pos + 5) "]".

(** The loop shared by the multiply-move and set-value checks:
    [while (i < ops.size() && (ops[i] == '+' || ops[i] == '-'))
       { acc += (ops[i] == '+') ? 1 : -1; i++; }].
    Each iteration advances [i], so [length ops - i] iterations are
    always enough; that is the fuel the callers pass. *)
Fixpoint sign_loop (fuel : nat) (ops : buffer) (i : nat) (acc : Z)
  : access (Z * nat) :=
  match fuel with
  | 0 => Got (acc, i)
  | S fuel' =>
      continue ← (Got (bool_decide (i < length ops)) &&&
                   (rd_eq ops i "+" ||| rd_eq ops i "-"));
      if continue : bool then
        plus ← rd_eq ops i "+";
        sign_loop fuel' ops (i + 1) (acc + (if plus : bool then 1 else -1))%Z
      else Got (acc, i)
  end.

Definition is_multiply_move_pattern (ops : buffer) (pos : nat)
  : access PatternCheckResults :=
  reject ← (Got (bool_decide (pos + 4 >= length ops)) |||
             rd_ne ops pos "[" ||| rd_ne ops (pos + 1) "-" |||
             rd_ne ops (pos + 2) ">" |||
             (rd_ne ops (pos + 3) "+" &&& rd_ne ops (pos + 3) "-"));
  if reject : bool then Got no_pattern
  else
    r ← sign_loop (length ops - (pos + 3)) ops (pos + 3) 0;
    let '(multiplier, i) := r in
    reject' ← (Got (bool_decide (i >= length ops)) ||| rd_ne ops i "<" |||
                Got (bool_decide (i + 1 >= length ops)) |||
                rd_ne ops (i + 1) "]");
    if reject' : bool then Got no_pattern
    else Got (mkPattern true multiplier (i + 2 - pos)).

Definition is_set_value_pattern (ops : buffer) (pos : nat)
  : access PatternCheckResults :=
  if decide (pos + 2 >= length ops) then Got no_pattern
  else
    reject ← (rd_ne ops pos "[" ||| rd_ne ops (pos + 1) "-" |||
               rd_ne ops (pos + 2) "]");
    if reject : bool then Got no_pattern
    else
      r ← sign_loop (length ops - (pos + 3)) ops (pos + 3) 0;
      let '(value, i) := r in
      if decide (value <> 0%Z) then Got (mkPattern true value (i - pos))
      else Got no_pattern.

(** [count_repeated_chars]: [count] starts at 1 and grows while
    [start + count < ops.size() && ops[start + count] == target]. *)
Fixpoint count_loop (fuel : nat) (ops : buffer) (start : nat) (target : ascii)
  (count : nat) : access nat :=
  match fuel with
  | 0 => Got count
  | S fuel' =>
      continue ← (Got (bool_decide (start + count < length ops)) &&&
                   rd_eq ops (start + count) target);
      if continue : bool then count_loop fuel' ops start target (count + 1)
      else Got count
  end.

Definition count_repeated_chars (ops : buffer) (start : nat) (target : ascii)
  : access nat :=
  count_loop (length ops - start) ops start target 1.

(** The locals of [compile] that live across the computed gotos. *)
Record locals : Set := mkLocals {
  bytecode : list Instruction;
  loop_stack : list nat;        (* top of the stack first *)
  i : nat
}.

(** Where control goes after a label's body. *)
Inductive control : Set :=
| Dispatch (s : locals)                 (* goto *dispatch_table[ops[i]] *)
| Return (bc : list Instruction).       (* return bytecode *)

(** [NEXT_CHAR_N(n)]: [i += n; if (i < ops.size()) goto ...; return bytecode;] *)
Definition NEXT_CHAR_N (ops : buffer) (bc : list Instruction)
  (stk : list nat) (i n : nat) : control :=
  if decide (i + n < length ops) then Dispatch (mkLocals bc stk (i + n))
  else Return bc.

Definition NEXT_CHAR (ops : buffer) (bc : list Instruction)
  (stk : list nat) (i : nat) : control :=
  NEXT_CHAR_N ops bc stk i 1.

(** [parse_mv_right], [parse_mv_left], [parse_inc_val], [parse_dec_val]:
    the count is stored in [uint16_t repeated_char_count] before it is
    used as operand and as cursor increment. *)
Definition parse_run (ops : buffer) (s : locals) (target : ascii)
  (o : OpCode) (negate : bool) : access control :=
  count ← count_repeated_chars ops (i s) target;
  let repeated_char_count := to_uint16 (Z.of_nat count) in
  let operand :=
    if negate then (- repeated_char_count)%Z else repeated_char_count in
  Got (NEXT_CHAR_N ops (bytecode s ++ [mkInstruction o 0 operand])
         (loop_stack s) (i s) (Z.to_nat repeated_char_count)).

Definition parse_mv_right ops s := parse_run ops s ">" MV_POS false.
Definition parse_mv_left ops s := parse_run ops s "<" MV_POS true.
Definition parse_inc_val ops s := parse_run ops s "+" ADD_VAL false.
Definition parse_dec_val ops s := parse_run ops s "-" ADD_VAL true.

Definition parse_output (ops : buffer) (s : locals) : access control :=
  Got (NEXT_CHAR ops (bytecode s ++ [mkInstruction OUTPUT 0 0])
         (loop_stack s) (i s)).

Definition parse_input (ops : buffer) (s : locals) : access control :=
  Got (NEXT_CHAR ops (bytecode s ++ [mkInstruction INPUT 0 0])
         (loop_stack s) (i s)).

Definition parse_jmp_fwd (ops : buffer) (s : locals) : access control :=
  let bc := bytecode s in
  let stk := loop_stack s in
  pattern ← is_set_value_pattern ops (i s);
  if found pattern then
    Got (NEXT_CHAR_N ops (bc ++ [mkInstruction SET_VAL 0 (val pattern)])
           stk (i s) (len_of_pattern pattern))
  else
    zero ← is_set_zero_pattern ops (i s);
    if zero : bool then
      Got (NEXT_CHAR_N ops (bc ++ [mkInstruction SET_ZERO 0 0]) stk (i s) 3)
    else
      pattern ← is_scan_pattern ops (i s);
      (* the scan branch pushes its instruction and falls through *)
      let bc :=
        if found pattern then
          if decide (val pattern <> 0%Z)
          then bc ++ [mkInstruction SCAN_RIGHT 0 0]
          else bc ++ [mkInstruction SCAN_LEFT 0 0]
        else bc in
      next ← is_add_to_next_pattern ops (i s);
      if next : bool then
        Got (NEXT_CHAR_N ops (bc ++ [mkInstruction ADD_TO_NEXT 0 0])
               stk (i s) 6)
      else
        pattern ← is_multiply_move_pattern ops (i s);
        if found pattern then
          Got (NEXT_CHAR_N ops
                 (bc ++ [mkInstruction MULTIPLY_MV 0 (val pattern)])
                 stk (i s) (len_of_pattern pattern))
        else
          Got (NEXT_CHAR ops (bc ++ [mkInstruction JUMP_FWD 0 0])
                 (length bc :: stk) (i s)).

(** [bytecode[k].jump_ref = r] *)
Definition set_jump_ref (r : Z) (ins : Instruction) : Instruction :=
  mkInstruction (op ins) r (value ins).

Definition parse_jmp_back (ops : buffer) (s : locals) : access control :=
  match loop_stack s with
  | top :: rest =>
      let bc := alter (set_jump_ref (Z.of_nat (length (bytecode s)))) top
                  (bytecode s) in
      Got (NEXT_CHAR ops (bc ++ [mkInstruction JUMP_BACK (Z.of_nat top) 0])
             rest (i s))
  | [] => Got (NEXT_CHAR ops (bytecode s) [] (i s))
  end.

Definition parse_unknown (ops : buffer) (s : locals) : access control :=
  Got (NEXT_CHAR ops (bytecode s) (loop_stack s) (i s)).

(** The labels of [compile], and the static table of 256 label addresses:
    [parse_unknown] everywhere except at the eight command characters. *)
Inductive label : Set :=
| L_mv_right | L_mv_left | L_inc_val | L_dec_val | L_output | L_input
| L_jmp_fwd | L_jmp_back | L_unknown.

Definition dispatch_table (c : ascii) : label :=
  match c with
  | ">" => L_mv_right
  | "<" => L_mv_left
  | "+" => L_inc_val
  | "-" => L_dec_val
  | "." => L_output
  | "," => L_input
  | "[" => L_jmp_fwd
  | "]" => L_jmp_back
  | _ => L_unknown
  end%char.

(** The code at a label, up to the [goto] or [return] of its
    [NEXT_CHAR_N]. *)
Definition body (l : label) : buffer -> locals -> access control :=
  match l with
  | L_mv_right => parse_mv_right
  | L_mv_left => parse_mv_left
  | L_inc_val => parse_inc_val
  | L_dec_val => parse_dec_val
  | L_output => parse_output
  | L_input => parse_input
  | L_jmp_fwd => parse_jmp_fwd
  | L_jmp_back => parse_jmp_back
  | L_unknown => parse_unknown
  end.

(** [goto *dispatch_table[ops[i]]] *)
Definition dispatch (ops : buffer) (s : locals) : access control :=
  c ← rd ops (i s); body (dispatch_table c) ops s.

Inductive outcome : Set :=
| Returned (bc : list Instruction)
| ReadOutOfRange (idx : nat)      (* undefined behaviour: read past the buffer *)
| OutOfFuel.                      (* still running after [fuel] dispatches *)

Fixpoint run (fuel : nat) (ops : buffer) (s : locals) : outcome :=
  match fuel with
  | 0 => OutOfFuel
  | S fuel' =>
      match dispatch ops s with
      | OutOfRange k => ReadOutOfRange k
      | Got (Return bc) => Returned bc
      | Got (Dispatch s') => run fuel' ops s'
      end
  end.

Definition start : locals := mkLocals [] [] 0.

(** [compile], cut off after [fuel] computed gotos. *)
Definition compile_fuel (fuel : nat) (ops : buffer) : outcome :=
  match ops with
  | [] => Returned []
  | _ => run fuel ops start
  end.

(** One dispatch per source byte is enough whenever every dispatch
    advances the cursor. *)
Definition compile (ops : buffer) : outcome :=
  compile_fuel (length ops) ops.

Definition compiles_to (ops : buffer) (bc : list Instruction) : Prop :=
  exists fuel, compile_fuel fuel ops = Returned bc.

Definition diverges (ops : buffer) : Prop :=
  forall fuel, compile_fuel fuel ops = OutOfFuel.

Definition src (s : string) : buffer := list_ascii_of_string s.

End DirectThreadingCompiler.

(** ** TwoEndedTape *)

Module TwoEndedTape.

Definition TAPE_SIZE : Z := 20000.

Record t : Set := mkTape {
  right : list Z;       (* unsigned char right[TAPE_SIZE] *)
  left : list Z;        (* unsigned char left[TAPE_SIZE] *)
  position : Z          (* size_t *)
}.

Definition set_position (p : Z) (tp : t) : t :=
  mkTape (right tp) (left tp) p.
Definition set_right (r : list Z) (tp : t) : t :=
  mkTape r (left tp) (position tp).
Definition set_left (l : list Z) (tp : t) : t :=
  mkTape (right tp) l (position tp).

Definition init : t :=
  mkTape (replicate (Z.to_nat TAPE_SIZE) 0%Z)
         (replicate (Z.to_nat TAPE_SIZE) 0%Z) TAPE_SIZE.

Open Scope Z_scope.

(** [n] is a [uint16_t]; the comparison and the subtraction are done in
    [size_t]. *)
Definition moveRightBy (n : Z) : M t unit := fun tp =>
  if decide (position tp < to_size_t (2 * TAPE_SIZE - n))
  then Ok () (set_position (to_size_t (position tp + n)) tp)
  else Throw "Tape overflow" tp.

Definition moveLeftBy (n : Z) : M t unit := fun tp =>
  if decide (position tp >= n)
  then Ok () (set_position (to_size_t (position tp - n)) tp)
  else Throw "Tape underflow" tp.

(** The cell under the head: which array, and which index in it. *)
Definition on_right (tp : t) : bool := bool_decide (position tp >= TAPE_SIZE).
Definition right_index (tp : t) : nat := Z.to_nat (position tp - TAPE_SIZE).
Definition left_index (tp : t) : nat := Z.to_nat (TAPE_SIZE - 1 - position tp).

(** [x] is an [int]; the sum is stored back into an [unsigned char]. *)
Definition add (x : Z) : M t unit := fun tp =>
  if on_right tp then
    match right tp !! right_index tp with
    | Some c => Ok () (set_right (<[right_index tp := to_uint8 (c + x)]> (right tp)) tp)
    | None => Undefined TapeIndexOutOfRange
    end
  else
    match left tp !! left_index tp with
    | Some c => Ok () (set_left (<[left_index tp := to_uint8 (c + x)]> (left tp)) tp)
    | None => Undefined TapeIndexOutOfRange
    end.

(** [val] is an [unsigned char]: callers pass [to_uint8] of their [int]. *)
Definition set_curr (val : Z) : M t unit := fun tp =>
  if on_right tp then
    match right tp !! right_index tp with
    | Some _ => Ok () (set_right (<[right_index tp := val]> (right tp)) tp)
    | None => Undefined TapeIndexOutOfRange
    end
  else
    match left tp !! left_index tp with
    | Some _ => Ok () (set_left (<[left_index tp := val]> (left tp)) tp)
    | None => Undefined TapeIndexOutOfRange
    end.

Definition get_curr : M t Z := fun tp =>
  if on_right tp then
    match right tp !! right_index tp with
    | Some c => Ok c tp
    | None => Undefined TapeIndexOutOfRange
    end
  else
    match left tp !! left_index tp with
    | Some c => Ok c tp
    | None => Undefined TapeIndexOutOfRange
    end.

(** The signed offset of the head from its starting cell, and the cell at
    a signed offset: the logical view of the two arrays. *)
Definition offset (tp : t) : Z := position tp - TAPE_SIZE.

Definition cell (tp : t) (o : Z) : option Z :=
  if decide (0 <= o) then right tp !! Z.to_nat o
  else left tp !! Z.to_nat (- o - 1).

(** Both arrays have their declared size, every cell is a byte and the
    head is on a cell. *)
Record wf (tp : t) : Prop := mkWf {
  wf_right : length (right tp) = Z.to_nat TAPE_SIZE;
  wf_left : length (left tp) = Z.to_nat TAPE_SIZE;
  wf_position : 0 <= position tp < 2 * TAPE_SIZE
}.

End TwoEndedTape.

(** ** DirectThreadingInterpreter *)

Module DirectThreadingInterpreter.

Import TwoEndedTape.
Open Scope Z_scope.

Record machine : Set := mkMachine {
  tape : TwoEndedTape.t;
  pc : Z;                 (* size_t *)
  cin : list Z;           (* bytes not yet read from standard input *)
  cout : list Z           (* bytes written to standard output, oldest first *)
}.

(** A method of the [tape] member. *)
Definition on_tape {A} (m : M TwoEndedTape.t A) : M machine A := fun st =>
  match m (tape st) with
  | Ok a tp => Ok a (mkMachine tp (pc st) (cin st) (cout st))
  | Throw what tp => Throw what (mkMachine tp (pc st) (cin st) (cout st))
  | Undefined u => Undefined u
  | Unfinished => Unfinished
  end.

Definition putchar (c : Z) : M machine unit := fun st =>
  Ok () (mkMachine (tape st) (pc st) (cin st) (cout st ++ [to_uint8 c])).

(** [std::cin.get()]: the next byte, or [EOF = -1]. *)
Definition cin_get : M machine Z := fun st =>
  match cin st with
  | c :: rest => Ok c (mkMachine (tape st) (pc st) rest (cout st))
  | [] => Ok (-1) st
  end.

Definition set_pc (p : Z) : M machine unit := fun st =>
  Ok () (mkMachine (tape st) p (cin st) (cout st)).

Definition do_output : M machine unit :=
  c ← on_tape get_curr; putchar c.

Definition do_input : M machine unit :=
  c ← cin_get; on_tape (set_curr (to_uint8 c)).

Definition do_jmp_fwd (ins : Instruction) : M machine unit :=
  c ← on_tape get_curr;
  if decide (c = 0) then set_pc (jump_ref ins) else mret ().

Definition do_jmp_back (ins : Instruction) : M machine unit :=
  c ← on_tape get_curr;
  if decide (c <> 0) then set_pc (jump_ref ins) else mret ().

Definition do_set_zero : M machine unit :=
  on_tape (set_curr 0).

Definition do_add_val (ins : Instruction) : M machine unit :=
  on_tape (add (value ins)).

Definition do_mv_pos (ins : Instruction) : M machine unit :=
  if decide (value ins >= 0)
  then on_tape (moveRightBy (to_uint16 (value ins)))
  else on_tape (moveLeftBy (to_uint16 (- value ins))).

Definition do_add_to_next : M machine unit :=
  c ← on_tape get_curr;
  let tmp := to_uint16 c in
  on_tape (set_curr 0);;
  on_tape (moveRightBy 1);;
  on_tape (add tmp);;
  on_tape (moveLeftBy 1).

Definition do_multiply_mv (ins : Instruction) : M machine unit :=
  c ← on_tape get_curr;
  let tmp := to_uint32 c in
  on_tape (set_curr 0);;
  on_tape (moveRightBy 1);;
  on_tape (add (to_int32 (to_uint32 (tmp * to_uint32 (value ins)))));;
  on_tape (moveLeftBy 1).

Definition do_set_val (ins : Instruction) : M machine unit :=
  on_tape (set_curr (to_uint8 (value ins))).

(** [while (tape.get_curr() != 0) tape.moveRightBy(1);] *)
Fixpoint scan_right_loop (fuel : nat) : M machine unit :=
  match fuel with
  | O => fun _ => Unfinished
  | S fuel' =>
      c ← on_tape get_curr;
      if decide (c <> 0) then on_tape (moveRightBy 1);; scan_right_loop fuel'
      else mret ()
  end.

Fixpoint scan_left_loop (fuel : nat) : M machine unit :=
  match fuel with
  | O => fun _ => Unfinished
  | S fuel' =>
      c ← on_tape get_curr;
      if decide (c <> 0) then on_tape (moveLeftBy 1);; scan_left_loop fuel'
      else mret ()
  end.

(** The body of the label [dispatch_table[op]], up to its [NEXT]. *)
Definition handler (fuel : nat) (ins : Instruction) : M machine unit :=
  match op ins with
  | OUTPUT => do_output
  | INPUT => do_input
  | JUMP_FWD => do_jmp_fwd ins
  | JUMP_BACK => do_jmp_back ins
  | SET_ZERO => do_set_zero
  | ADD_VAL => do_add_val ins
  | MV_POS => do_mv_pos ins
  | ADD_TO_NEXT => do_add_to_next
  | MULTIPLY_MV => do_multiply_mv ins
  | SET_VAL => do_set_val ins
  | SCAN_RIGHT => scan_right_loop fuel
  | SCAN_LEFT => scan_left_loop fuel
  end.

(** [bytecode[pc]] *)
Definition fetch (bytecode : list Instruction) : M machine Instruction :=
  fun st =>
    match bytecode !! Z.to_nat (pc st) with
    | Some ins => Ok ins st
    | None => Undefined FetchOutOfRange
    end.

(** [NEXT]: [if (++pc < bytecode.size()) DISPATCH; return;] answers
    whether to dispatch again. *)
Definition NEXT (bytecode : list Instruction) : M machine bool := fun st =>
  let pc' := to_size_t (pc st + 1) in
  Ok (bool_decide (pc' < Z.of_nat (length bytecode)))
     (mkMachine (tape st) pc' (cin st) (cout st)).

(** [DISPATCH] and the label it reaches, up to and including [NEXT]. *)
Definition DISPATCH (fuel : nat) (bytecode : list Instruction)
  : M machine bool :=
  ins ← fetch bytecode; handler fuel ins;; NEXT bytecode.

Fixpoint dispatch_loop (fuel : nat) (bytecode : list Instruction)
  : M machine unit :=
  match fuel with
  | O => fun _ => Unfinished
  | S fuel' =>
      again ← DISPATCH fuel' bytecode;
      if again : bool then dispatch_loop fuel' bytecode else mret ()
  end.

Definition boot (input : list Z) : machine :=
  mkMachine TwoEndedTape.init 0 input [].

(** [interprete], on a fresh interpreter object and the bytes waiting on
    standard input. *)
Definition interprete (fuel : nat) (bytecode : list Instruction)
  (input : list Z) : result machine unit :=
  match bytecode with
  | [] => Ok () (boot input)
  | _ => dispatch_loop fuel bytecode (boot input)
  end.

End DirectThreadingInterpreter.

(** ** read_program *)

Definition BUFFER_SIZE : nat := 4096.

(** [fread(buffer, 1, BUFFER_SIZE, stream)] on a stream without read
    errors: the next [BUFFER_SIZE] bytes, or all that are left; the bytes
    read and the rest of the stream. *)
Definition fread (stream : buffer) : buffer * buffer :=
  (take BUFFER_SIZE stream, drop BUFFER_SIZE stream).

(** The loop of [read_program]; every iteration but the last consumes at
    least one byte, so [S (length stream)] iterations are enough. *)
Fixpoint read_loop (fuel : nat) (program stream : buffer) : option buffer :=
  match fuel with
  | O => None
  | S fuel' =>
      let '(chunk, rest) := fread stream in
      let bytes_read := length chunk in
      if decide (bytes_read > 0) then read_loop fuel' (program ++ chunk) rest
      else Some program
  end.

Definition read_program (stream : buffer) : option buffer :=
  read_loop (S (length stream)) [] stream.

(** ** print_bytecode and main *)

(** [putchar(static_cast<uint16_t>(instr.op))] for each instruction: the
    bytes written. *)
Definition print_bytecode (bytecode : list Instruction) : list Z :=
  map (fun instr => to_uint8 (OpCode_tag (op instr))) bytecode.

Inductive exit : Set :=
| Exit (status : Z) (out : list Z)     (* return from main *)
| Terminate (what : string) (out : list Z)   (* uncaught exception *)
| NoBehaviour                          (* undefined behaviour was reached *)
| StillRunning.

(** [main] after option parsing and [read_program]: [ops] is the program
    read, [input] what is left on standard input. *)
Definition main (fuel : nat) (should_print_bytecode : bool) (ops : buffer)
  (input : list Z) : exit :=
  match DirectThreadingCompiler.compile_fuel fuel ops with
  | DirectThreadingCompiler.Returned bytecode =>
      if should_print_bytecode then Exit 0 (print_bytecode bytecode)
      else
        match DirectThreadingInterpreter.interprete fuel bytecode input with
        | Ok _ st => Exit 0 (DirectThreadingInterpreter.cout st)
        | Throw what st => Terminate what (DirectThreadingInterpreter.cout st)
        | Undefined _ => NoBehaviour
        | Unfinished => StillRunning
        end
  | DirectThreadingCompiler.ReadOutOfRange _ => NoBehaviour
  | DirectThreadingCompiler.OutOfFuel => StillRunning
  end.

Import DirectThreadingCompiler.

(** * Notions used in the statements *)

(** ** The compiler *)

Definition is_jump (o : OpCode) : bool :=
  match o with
  | JUMP_FWD | JUMP_BACK => true
  | _ => false
  end.

(** What [compile] maintains between two dispatches. *)
Record linking (bc : list Instruction) (stk : list nat) : Prop := mkLinking {
  (* every open bracket is an unresolved JUMP_FWD *)
  lk_open : forall k, k ∈ stk ->
    exists f, bc !! k = Some f /\ op f = JUMP_FWD /\ jump_ref f = 0%Z;
  lk_nodup : NoDup stk;
  (* every JUMP_BACK points back at a JUMP_FWD that points at it *)
  lk_back : forall j b, bc !! j = Some b -> op b = JUMP_BACK ->
    exists r f, jump_ref b = Z.of_nat r /\ r < j /\
                bc !! r = Some f /\ op f = JUMP_FWD /\
                jump_ref f = Z.of_nat j;
  (* every resolved JUMP_FWD points at a JUMP_BACK that points back *)
  lk_fwd : forall k f, bc !! k = Some f -> op f = JUMP_FWD ->
    jump_ref f = 0%Z \/
    exists j b, jump_ref f = Z.of_nat j /\ k < j /\
                bc !! j = Some b /\ op b = JUMP_BACK /\
                jump_ref b = Z.of_nat k
}.

(** The invariant seen through [NEXT_CHAR_N]: the stack is dropped on
    return. *)
Definition linking_after (c : control) : Prop :=
  match c with
  | Dispatch s => linking (bytecode s) (loop_stack s)
  | Return bc => exists stk, linking bc stk
  end.

(** Jump targets point exactly at each other's positions. *)
Definition mutually_linked (bc : list Instruction) : Prop :=
  (forall j b, bc !! j = Some b -> op b = JUMP_BACK ->
     exists f, bc !! Z.to_nat (jump_ref b) = Some f /\ op f = JUMP_FWD /\
               jump_ref f = Z.of_nat j /\ (0 <= jump_ref b < Z.of_nat j)%Z) /\
  (forall k f, bc !! k = Some f -> op f = JUMP_FWD -> jump_ref f <> 0%Z ->
     exists b, bc !! Z.to_nat (jump_ref f) = Some b /\ op b = JUMP_BACK /\
               jump_ref b = Z.of_nat k /\ (Z.of_nat k < jump_ref f)%Z).

(** The same read, [d] cells further. *)
Definition reindex {A} (d : nat) (a : access A) : access A :=
  match a with
  | Got x => Got x
  | OutOfRange k => OutOfRange (d + k)
  end.

(** The same locals, control and outcome with the cursor (and the index
    of a failed read) [d] bytes further. *)
Definition advance (d : nat) (s : locals) : locals :=
  mkLocals (bytecode s) (loop_stack s) (d + i s).

Definition advance_control (d : nat) (c : control) : control :=
  match c with
  | Dispatch s => Dispatch (advance d s)
  | Return bc => Return bc
  end.

Definition advance_outcome (d : nat) (o : outcome) : outcome :=
  match o with
  | ReadOutOfRange k => ReadOutOfRange (d + k)
  | _ => o
  end.

(** The instruction the four run labels push for a count [n]. *)
Definition run_instruction (c : ascii) (n : Z) : option Instruction :=
  match c with
  | ">" => Some (mkInstruction MV_POS 0 n)
  | "<" => Some (mkInstruction MV_POS 0 (- n))
  | "+" => Some (mkInstruction ADD_VAL 0 n)
  | "-" => Some (mkInstruction ADD_VAL 0 (- n))
  | _ => None
  end%char.



(** A byte whose entry in the dispatch table is [parse_unknown]. *)
Definition is_comment (c : ascii) : Prop := dispatch_table c = L_unknown.

(** [ops'] is [ops] with comment bytes inserted. *)
Inductive with_comments : buffer -> buffer -> Prop :=
| wc_nil : with_comments [] []
| wc_keep c ops ops' :
    with_comments ops ops' -> with_comments (c :: ops) (c :: ops')
| wc_insert x ops ops' :
    is_comment x -> with_comments ops ops' -> with_comments ops (x :: ops').

(** The specification's sentence as it is written: inserting comment
    bytes anywhere changes nothing. *)
Definition comments_are_ignored : Prop :=
  forall ops ops' bc,
    with_comments ops ops' -> compiles_to ops bc -> compiles_to ops' bc.

(** A byte that is none of `> < + - [ ]`: an `.`, a `,` or a comment
    byte.  No run and no loop pattern extends over it. *)
Definition is_barrier (b : ascii) : Prop :=
  match dispatch_table b with
  | L_output | L_input | L_unknown => True
  | _ => False
  end.

(** The sign loop on the bytes before a barrier: the sum and the number
    of leading `+` and `-`. *)
Fixpoint sign_run (w : buffer) (acc : Z) : Z * nat :=
  match w with
  | c :: w' =>
      if Ascii.eqb c "+" then
        let '(a, n) := sign_run w' (acc + 1) in (a, S n)
      else if Ascii.eqb c "-" then
        let '(a, n) := sign_run w' (acc + -1) in (a, S n)
      else (acc, 0)
  | [] => (acc, 0)
  end.

(** What [compile] returns once control has reached [c]. *)
Definition returns (ops : buffer) (c : control) (bc : list Instruction)
  : Prop :=
  match c with
  | Dispatch s => exists fuel, run fuel ops s = Returned bc
  | Return bc' => bc' = bc
  end.

(** Control when the cursor arrives at [p]: the test of [NEXT_CHAR_N]. *)
Definition resume (ops : buffer) (bc : list Instruction) (stk : list nat)
  (p : nat) : control :=
  NEXT_CHAR_N ops bc stk p 0.

(** The instruction vector a label's body leaves behind. *)
Definition emitted (c : control) : list Instruction :=
  match c with
  | Dispatch s => bytecode s
  | Return bc => bc
  end.

(** The operand is at most [len] in absolute value, and an instruction
    that is no jump carries no target. *)
Definition plain_operand (len : nat) (ins : Instruction) : Prop :=
  (Z.abs (value ins) <= Z.of_nat len)%Z /\
  (is_jump (op ins) = false -> jump_ref ins = 0%Z).

(** A `+` or a `-`. *)
Definition is_sign (c : ascii) : Prop := c = "+"%char \/ c = "-"%char.

(** The number of `+` minus the number of the other bytes of [w]; on a
    word of signs, the number of `+` minus the number of `-`. *)
Fixpoint sign_sum (w : buffer) : Z :=
  match w with
  | [] => 0%Z
  | c :: w' => ((if Ascii.eqb c "+" then 1 else -1) + sign_sum w')%Z
  end.

(** ** Brackets of the source and jumps of the result *)

(** The brackets left open by [text], a piece of the source that starts
    at index [pos], on top of those in [stk]: the index of each `[` is
    pushed, a `]` pops the innermost one, and a `]` with nothing open is
    passed over. *)
Fixpoint open_brackets (text : buffer) (pos : nat) (stk : list nat)
  : list nat :=
  match text with
  | [] => stk
  | c :: text' =>
      open_brackets text' (S pos)
        (if Ascii.eqb c "[" then pos :: stk
         else if Ascii.eqb c "]" then tail stk
         else stk)
  end.

(** The `]` at index [q] closes the `[` at index [p]: that `[` is the
    innermost bracket still open when the source has been read up to
    [q]. *)
Definition closes (ops : buffer) (p q : nat) : Prop :=
  ops !! p = Some "["%char /\ ops !! q = Some "]"%char /\
  head (open_brackets (take q ops) 0 []) = Some p.

(** The source index each instruction was pushed at: one more entry, the
    cursor, for every instruction a dispatch adds to the vector. *)
Fixpoint run_origins (fuel : nat) (ops : buffer) (s : locals)
  (from : list nat) : option (list nat) :=
  match fuel with
  | 0 => None
  | S fuel' =>
      match dispatch ops s with
      | OutOfRange _ => None
      | Got c =>
          let from' :=
            from ++ replicate (length (emitted c) - length from) (i s) in
          match c with
          | Return _ => Some from'
          | Dispatch s' => run_origins fuel' ops s' from'
          end
      end
  end.

Definition origins (fuel : nat) (ops : buffer) : option (list nat) :=
  match ops with
  | [] => Some []
  | _ => run_origins fuel ops start []
  end.

(** Instruction [k] of [bc] is a jump [o] with target [r], pushed at
    source index [p]. *)
Definition jump_at (bc : list Instruction) (from : list nat) (o : OpCode)
  (k p : nat) (r : Z) : Prop :=
  exists ins, bc !! k = Some ins /\ op ins = o /\ jump_ref ins = r /\
              from !! k = Some p.

(** A byte that is no bracket. *)
Definition no_bracket (c : ascii) : Prop := c <> "["%char /\ c <> "]"%char.

(** The text one dispatch passes over when it pushes no jump: no bracket
    at all, or one loop whose body has none. *)
Inductive consumed : buffer -> Prop :=
| consumed_plain t : Forall no_bracket t -> consumed t
| consumed_loop t1 t2 :
    Forall no_bracket t1 -> Forall no_bracket t2 ->
    consumed ("["%char :: t1 ++ "]"%char :: t2).

(** What [compile] maintains about the origins, with the cursor at
    [cur]. *)
Record traced (ops : buffer) (bc : list Instruction) (stk : list nat)
  (cur : nat) (from : list nat) : Prop := mkTraced {
  tr_len : length from = length bc;
  (* a jump was pushed before the cursor *)
  tr_before : forall k ins p,
    bc !! k = Some ins -> from !! k = Some p -> is_jump (op ins) = true ->
    p < cur;
  (* the loop stack holds the JUMP_FWD of the brackets that are open *)
  tr_stack :
    Forall2 (fun k p => from !! k = Some p) stk
      (open_brackets (take cur ops) 0 []);
  tr_fwd_at : forall k ins p,
    bc !! k = Some ins -> op ins = JUMP_FWD -> from !! k = Some p ->
    ops !! p = Some "["%char;
  tr_inj : forall k k' f f' p,
    bc !! k = Some f -> bc !! k' = Some f' ->
    op f = JUMP_FWD -> op f' = JUMP_FWD ->
    from !! k = Some p -> from !! k' = Some p -> k = k';
  tr_back : forall j b q,
    bc !! j = Some b -> op b = JUMP_BACK -> from !! j = Some q ->
    exists k p, jump_ref b = Z.of_nat k /\ from !! k = Some p /\
                closes ops p q;
  tr_closed : forall k f p q,
    bc !! k = Some f -> op f = JUMP_FWD -> from !! k = Some p ->
    closes ops p q -> q < cur ->
    exists j b, bc !! j = Some b /\ op b = JUMP_BACK /\
                from !! j = Some q /\ jump_ref b = Z.of_nat k
}.

(** What one dispatch does to the instruction vector and the loop stack,
    and how far it moves the cursor. *)
Inductive step (ops : buffer) (s : locals)
  : list Instruction -> list nat -> nat -> Prop :=
| step_plain new n :
    Forall (fun ins => is_jump (op ins) = false) new ->
    consumed (take n (drop (i s) ops)) ->
    step ops s (bytecode s ++ new) (loop_stack s) n
| step_open new :
    ops !! i s = Some "["%char ->
    Forall (fun ins => is_jump (op ins) = false) new ->
    step ops s ((bytecode s ++ new) ++ [mkInstruction JUMP_FWD 0 0])
      (length (bytecode s ++ new) :: loop_stack s) 1
| step_close top rest :
    ops !! i s = Some "]"%char -> loop_stack s = top :: rest ->
    step ops s
      (alter (set_jump_ref (Z.of_nat (length (bytecode s)))) top (bytecode s)
         ++ [mkInstruction JUMP_BACK (Z.of_nat top) 0])
      rest 1
| step_stray :
    ops !! i s = Some "]"%char -> loop_stack s = [] ->
    step ops s (bytecode s) [] 1.

(** ** Text that is folded into one instruction *)

(** Two equal run characters side by side, or the text of a loop that
    [compile] always turns into one instruction: `[-]`, `[+]`, `[>]`,
    `[<]`, and `[->`, signs, `<]` (of which `[->+<]` is one). *)
Inductive folded : buffer -> Prop :=
| folded_run c : is_Some (run_instruction c 0) -> folded [c; c]
| folded_set_zero c : is_sign c -> folded ["["%char; c; "]"%char]
| folded_scan c :
    c = ">"%char \/ c = "<"%char -> folded ["["%char; c; "]"%char]
| folded_multiply s :
    Forall is_sign s -> s <> [] -> folded (src "[->" ++ s ++ src "<]").

(** The place between [pre] and [post] lies in the signs that follow a
    `[-]`, with the signs [s1] before it and the signs [s2], at least
    one, after it, and [is_set_value_pattern] answers differently on
    [s1] and on all of them: one of the two sums is not zero. *)
Definition splits_set_value (pre post : buffer) : Prop :=
  exists w s1 s2 t,
    pre = w ++ src "[-]" ++ s1 /\ post = s2 ++ t /\
    Forall is_sign s1 /\ Forall is_sign s2 /\ s2 <> [] /\
    (forall c, head t = Some c -> ~ is_sign c) /\
    (sign_sum s1 <> 0%Z \/ sign_sum (s1 ++ s2) <> 0%Z).

(** The place between [pre] and [post] lies inside a text that is folded:
    some end of [pre] and some beginning of [post] make one together, or
    it lies in the signs of a `[-]` as above. *)
Definition splits_token (pre post : buffer) : Prop :=
  (exists u v, u <> [] /\ v <> [] /\
               u `suffix_of` pre /\ v `prefix_of` post /\ folded (u ++ v))
  \/ splits_set_value pre post.

(** [ops'] is [ops] with comment bytes inserted, any number of times,
    each time at a place that splits no folded text. *)
Inductive with_comments_outside : buffer -> buffer -> Prop :=
| wco_done ops : with_comments_outside ops ops
| wco_insert pre cs post ops' :
    Forall is_comment cs -> ~ splits_token pre post ->
    with_comments_outside (pre ++ cs ++ post) ops' ->
    with_comments_outside (pre ++ post) ops'.

(** [a] is directly followed by [b] somewhere in a folded text. *)
Definition adjacent (a b : ascii) : bool :=
  let sign c := Ascii.eqb c "+" || Ascii.eqb c "-" in
  let move c := Ascii.eqb c ">" || Ascii.eqb c "<" in
  ((sign a || move a) && Ascii.eqb a b)
  || (Ascii.eqb a "[" && (sign b || move b))
  || (Ascii.eqb a "-" && (Ascii.eqb b "]" || move b || sign b))
  || (Ascii.eqb a "+" && (Ascii.eqb b "]" || Ascii.eqb b "<" || sign b))
  || (Ascii.eqb a ">" && (Ascii.eqb b "]" || sign b))
  || (Ascii.eqb a "<" && Ascii.eqb b "]")
  || (Ascii.eqb a "]" && sign b).

(** The buffer ends in the five bytes `[->+<`. *)
Definition ends_in_open_add_to_next (ops : buffer) : Prop :=
  exists pre, ops = pre ++ src "[->+<".

(** ** The tape and the interpreter *)

Section TapeNotions.

Import TwoEndedTape DirectThreadingInterpreter.
Open Scope Z_scope.

(** The tape with [v] stored in the cell under the head. *)
Definition write (v : Z) (tp : TwoEndedTape.t) : TwoEndedTape.t :=
  if on_right tp
  then set_right (<[right_index tp := v]> (right tp)) tp
  else set_left (<[left_index tp := v]> (left tp)) tp.

(** The machine with another tape. *)
Definition with_tape (tp : TwoEndedTape.t) (st : machine) : machine :=
  mkMachine tp (pc st) (cin st) (cout st).




(** The machine states in which [interprete] executes [DISPATCH]: the
    first one, and every one reached through a [NEXT] whose test
    [++pc < bytecode.size()] succeeded. *)
Inductive dispatches (bytecode : list Instruction) : machine -> Prop :=
| dispatches_first input :
    bytecode <> [] -> dispatches bytecode (boot input)
| dispatches_again fuel st st' :
    dispatches bytecode st ->
    DISPATCH fuel bytecode st = Ok true st' ->
    dispatches bytecode st'.

(** What `+[]` compiles to. *)
Definition endless : list Instruction :=
  [mkInstruction ADD_VAL 0 1; mkInstruction JUMP_FWD 2 0;
   mkInstruction JUMP_BACK 1 0].

(** A method keeps the tape well formed and stays within defined
    behaviour. *)
Definition safe {A} (m : M machine A) : Prop :=
  forall st, wf (tape st) ->
    match m st with
    | Ok _ st' => wf (tape st')
    | Throw _ _ => True
    | Undefined _ => False
    | Unfinished => True
    end.

(** No MV_POS asks for a move right by more than twice the tape size. *)
Definition moves_in_range (bytecode : list Instruction) : Prop :=
  forall ins, ins ∈ bytecode -> op ins = MV_POS ->
    value ins < 0 \/ to_uint16 (value ins) <= 2 * TAPE_SIZE.

(** [st'] comes after [st]: it has read, in order, some of the input
    [st] had left, and has written after what [st] had written. *)
Definition io_after (st st' : machine) : Prop :=
  (exists used, cin st = used ++ cin st') /\
  (exists out, cout st' = cout st ++ out).

(** However a method ends, the state it leaves comes after the one it
    started in. *)
Definition io_in_order {A} (m : M machine A) : Prop :=
  forall st,
    match m st with
    | Ok _ st' | Throw _ st' => io_after st st'
    | Undefined _ | Unfinished => True
    end.

End TapeNotions.

(** * Properties *)

(** ** The specification's scenarios, run on the model *)

Definition hello_world : buffer :=
  src ("++++++++[>++++[>++>+++>+++>+<<<<-]>+>+>->>+[<]<-]>>.>---.+++++++.."
       ++ "+++.>>.<-.<.+++.------.--------.>>+.>++.").

Example scenario_hello_world :
  main 1000 false hello_world []
  = Exit 0 (map (fun c => Z.of_N (N_of_ascii c))
              (src "Hello World!" ++ ["010"%char])).
Proof. vm_compute. reflexivity. Qed.

Example scenario_echo_until_zero :
  main 20 false (src ",[.,]") [97; 98; 99; 0; 120; 121; 122]%Z
  = Exit 0 [97; 98; 99]%Z.
Proof. vm_compute. reflexivity. Qed.

Example scenario_cell_wrap : main 5 false (src "-.") [] = Exit 0 [255]%Z.
Proof. vm_compute. reflexivity. Qed.

Example scenario_multiply_move :
  compile (src "++++[->+++<]>.")
  = Returned [mkInstruction ADD_VAL 0 4; mkInstruction MULTIPLY_MV 0 3;
              mkInstruction MV_POS 0 1; mkInstruction OUTPUT 0 0] /\
  main 20 false (src "++++[->+++<]>.") [] = Exit 0 [12]%Z.
Proof. split; vm_compute; reflexivity. Qed.

Example scenario_left_of_start :
  main 5 false (src "-<.>.") [] = Exit 0 [0; 255]%Z /\
  main 5 false [] [] = Exit 0 [] /\
  main 5 false (src "]+.") [] = Exit 0 [1]%Z.
Proof. repeat split; vm_compute; reflexivity. Qed.

(** ** The compiler's dispatch *)

Lemma dispatch_body ops s :
  dispatch ops s = (c ← rd ops (i s); body (dispatch_table c) ops s).
Proof. reflexivity. Qed.

(** ** Bracket linking *)

Section Linking.

Lemma linking_start : linking [] [].
Proof.
  split.
  - intros k Hk. inversion Hk.
  - constructor.
  - intros j b Hj. rewrite lookup_nil in Hj. discriminate.
  - intros j b Hj. rewrite lookup_nil in Hj. discriminate.
Qed.

Lemma linking_open_lt bc stk k :
  linking bc stk -> k ∈ stk -> k < length bc.
Proof.
  intros L Hk. destruct (lk_open _ _ L k Hk) as (f & Hf & _).
  eapply lookup_lt_Some; eauto.
Qed.

(** Looking an index up after one more [push_back]. *)
Lemma lookup_push (bc : list Instruction) ins k x :
  (bc ++ [ins]) !! k = Some x ->
  (k < length bc /\ bc !! k = Some x) \/ (k = length bc /\ x = ins).
Proof.
  intros H. destruct (decide (k < length bc)) as [Hlt|Hge].
  - left. split; [done|]. by rewrite lookup_app_l in H.
  - right. rewrite lookup_app_r in H by lia.
    destruct (k - length bc) as [|d] eqn:E; simpl in H.
    + split; [lia|congruence].
    + rewrite lookup_nil in H. discriminate.
Qed.

Lemma lookup_push_old (bc : list Instruction) ins k x :
  bc !! k = Some x -> (bc ++ [ins]) !! k = Some x.
Proof. intros H. rewrite lookup_app_l; [done|]. eapply lookup_lt_Some; eauto. Qed.

(** An instruction that is no jump. *)
Lemma linking_push_plain bc stk ins :
  is_jump (op ins) = false -> linking bc stk -> linking (bc ++ [ins]) stk.
Proof.
  intros Hop L. split.
  - intros k Hk. destruct (lk_open _ _ L k Hk) as (f & Hf & ?).
    exists f. split; [by apply lookup_push_old|done].
  - apply (lk_nodup _ _ L).
  - intros j b Hj Hb. apply lookup_push in Hj as [[_ Hj]|[_ ->]].
    + destruct (lk_back _ _ L j b Hj Hb) as (r & f & ? & ? & Hf & ?).
      exists r, f. repeat split; try tauto. by apply lookup_push_old.
    + rewrite Hb in Hop. discriminate.
  - intros k f Hk Hf. apply lookup_push in Hk as [[_ Hk]|[_ ->]].
    + destruct (lk_fwd _ _ L k f Hk Hf) as [?|(j & b & ? & ? & Hb & ?)];
        [by left|right].
      exists j, b. repeat split; try tauto. by apply lookup_push_old.
    + rewrite Hf in Hop. discriminate.
Qed.

(** [loop_stack.push(bytecode.size()); bytecode.push_back({JUMP_FWD, 0, 0})] *)
Lemma linking_push_fwd bc stk :
  linking bc stk ->
  linking (bc ++ [mkInstruction JUMP_FWD 0 0]) (length bc :: stk).
Proof.
  intros L. split.
  - intros k Hk. apply elem_of_cons in Hk as [->|Hk].
    + exists (mkInstruction JUMP_FWD 0 0). split; [|done].
      by rewrite lookup_app_r, Nat.sub_diag by lia.
    + destruct (lk_open _ _ L k Hk) as (f & Hf & ?).
      exists f. split; [by apply lookup_push_old|done].
  - constructor; [|apply (lk_nodup _ _ L)].
    intros Hin. apply (linking_open_lt _ _ _ L) in Hin. lia.
  - intros j b Hj Hb. apply lookup_push in Hj as [[_ Hj]|[_ ->]]; [|done].
    destruct (lk_back _ _ L j b Hj Hb) as (r & f & ? & ? & Hf & ?).
    exists r, f. repeat split; try tauto. by apply lookup_push_old.
  - intros k f Hk Hf. apply lookup_push in Hk as [[_ Hk]|[_ ->]]; [|by left].
    destruct (lk_fwd _ _ L k f Hk Hf) as [?|(j & b & ? & ? & Hb & ?)];
      [by left|right].
    exists j, b. repeat split; try tauto. by apply lookup_push_old.
Qed.

(** The three statements of [parse_jmp_back] on a non-empty stack. *)
Lemma linking_push_back bc top rest :
  linking bc (top :: rest) ->
  linking (alter (set_jump_ref (Z.of_nat (length bc))) top bc
             ++ [mkInstruction JUMP_BACK (Z.of_nat top) 0]) rest.
Proof.
  intros L.
  destruct (lk_open _ _ L top) as (ft & Hft & Hft_op & Hft_ref);
    [by left|].
  pose proof (lookup_lt_Some _ _ _ Hft) as Htop.
  pose proof (lk_nodup _ _ L) as Hnd. apply NoDup_cons in Hnd as [Hnotin Hnd].
  set (n := length bc).
  set (bc' := alter (set_jump_ref (Z.of_nat n)) top bc).
  assert (Hlen : length bc' = n) by (unfold bc'; by rewrite length_alter).
  assert (Hsame : forall k, k <> top -> bc' !! k = bc !! k).
  { intros k Hk. unfold bc'. rewrite list_lookup_alter_ne; [done|lia]. }
  assert (Htop' : bc' !! top = Some (set_jump_ref (Z.of_nat n) ft)).
  { unfold bc'. by rewrite list_lookup_alter_eq, Hft. }
  assert (Hold : forall k x, bc' !! k = Some x ->
            (bc' ++ [mkInstruction JUMP_BACK (Z.of_nat top) 0]) !! k = Some x).
  { intros. by apply lookup_push_old. }
  split.
  - intros k Hk. assert (k <> top) by (intros ->; done).
    destruct (lk_open _ _ L k) as (f & Hf & ?); [by right|].
    exists f. split; [|done]. apply Hold. by rewrite Hsame.
  - done.
  - intros j b Hj Hb. apply lookup_push in Hj as [[_ Hj]|[Hjn ->]].
    + assert (j <> top).
      { intros ->. rewrite Htop' in Hj. injection Hj as <-.
        simpl in Hb. congruence. }
      rewrite Hsame in Hj by done.
      destruct (lk_back _ _ L j b Hj Hb) as (r & f & ? & ? & Hf & ? & Hfr).
      assert (r <> top).
      { intros ->. rewrite Hft in Hf. injection Hf as <-. lia. }
      exists r, f. repeat split; try tauto. apply Hold. by rewrite Hsame.
    + exists top, (set_jump_ref (Z.of_nat n) ft). simpl.
      repeat split; [lia|by apply Hold|done|lia].
  - intros k f Hk Hf. apply lookup_push in Hk as [[_ Hk]|[_ ->]]; [|done].
    destruct (decide (k = top)) as [->|Hne].
    + rewrite Htop' in Hk. injection Hk as <-. right.
      exists n, (mkInstruction JUMP_BACK (Z.of_nat top) 0). simpl.
      repeat split; [lia|].
      by rewrite lookup_app_r, Hlen, Nat.sub_diag by lia.
    + rewrite Hsame in Hk by done.
      destruct (lk_fwd _ _ L k f Hk Hf) as [?|(j & b & ? & ? & Hb & Hbop & ?)];
        [by left|right].
      assert (j <> top).
      { intros ->. rewrite Hft in Hb. injection Hb as <-. congruence. }
      exists j, b. repeat split; try tauto. apply Hold. by rewrite Hsame.
Qed.

Lemma linking_NEXT_CHAR_N ops bc stk i n :
  linking bc stk -> linking_after (NEXT_CHAR_N ops bc stk i n).
Proof.
  intros L. unfold NEXT_CHAR_N. case_decide; simpl; eauto.
Qed.

Lemma linking_body l ops s c :
  linking (bytecode s) (loop_stack s) ->
  body l ops s = Got c -> linking_after c.
Proof.
  intros L.
  assert (Hrun : forall target o negate,
    is_jump o = false -> parse_run ops s target o negate = Got c ->
    linking_after c).
  { intros target o negate Ho. unfold parse_run.
    destruct (count_repeated_chars _ _ _); simpl; [|done].
    intros [= <-]. apply linking_NEXT_CHAR_N. by apply linking_push_plain. }
  destruct l; simpl; try (by apply Hrun).
  - intros [= <-]. apply linking_NEXT_CHAR_N. by apply linking_push_plain.
  - intros [= <-]. apply linking_NEXT_CHAR_N. by apply linking_push_plain.
  - unfold parse_jmp_fwd.
    destruct (is_set_value_pattern _ _) as [p1|]; simpl; [|done].
    destruct (found p1).
    { intros [= <-]. apply linking_NEXT_CHAR_N. by apply linking_push_plain. }
    destruct (is_set_zero_pattern _ _) as [[]|]; simpl; [| |done].
    { intros [= <-]. apply linking_NEXT_CHAR_N. by apply linking_push_plain. }
    destruct (is_scan_pattern _ _) as [p2|]; simpl; [|done].
    set (bc := if found p2 then _ else _).
    assert (Lbc : linking bc (loop_stack s)).
    { unfold bc. destruct (found p2); [|done].
      case_decide; by apply linking_push_plain. }
    clearbody bc.
    destruct (is_add_to_next_pattern _ _) as [[]|]; simpl; [| |done].
    { intros [= <-]. apply linking_NEXT_CHAR_N. by apply linking_push_plain. }
    destruct (is_multiply_move_pattern _ _) as [p3|]; simpl; [|done].
    destruct (found p3).
    { intros [= <-]. apply linking_NEXT_CHAR_N. by apply linking_push_plain. }
    intros [= <-]. apply linking_NEXT_CHAR_N. by apply linking_push_fwd.
  - unfold parse_jmp_back. destruct (loop_stack s) as [|top rest] eqn:E.
    + intros [= <-]. by apply linking_NEXT_CHAR_N.
    + intros [= <-]. by apply linking_NEXT_CHAR_N, linking_push_back.
  - intros [= <-]. apply linking_NEXT_CHAR_N. done.
Qed.

Lemma linking_dispatch ops s c :
  linking (bytecode s) (loop_stack s) ->
  dispatch ops s = Got c -> linking_after c.
Proof.
  intros L. rewrite dispatch_body.
  destruct (rd ops (i s)) as [ch|]; simpl; [|done].
  by apply linking_body.
Qed.

Lemma linking_run fuel ops s bc :
  linking (bytecode s) (loop_stack s) ->
  run fuel ops s = Returned bc -> exists stk, linking bc stk.
Proof.
  revert s. induction fuel as [|fuel IH]; intros s L; simpl; [done|].
  destruct (dispatch ops s) as [[s'|bc']|] eqn:E; [| |done].
  - apply IH. apply (linking_dispatch _ _ _ L E).
  - intros [= <-]. apply (linking_dispatch _ _ _ L E).
Qed.

End Linking.

Lemma linking_mutually_linked bc stk : linking bc stk -> mutually_linked bc.
Proof.
  intros L. split.
  - intros j b Hj Hb.
    destruct (lk_back _ _ L j b Hj Hb) as (r & f & -> & ? & Hf & ? & ?).
    exists f. rewrite Nat2Z.id. repeat split; try done; lia.
  - intros k f Hk Hf Hnz.
    destruct (lk_fwd _ _ L k f Hk Hf) as [?|(j & b & -> & ? & Hb & ? & ?)];
      [done|].
    exists b. rewrite Nat2Z.id. repeat split; try done; lia.
Qed.

(** In whatever [compile] returns, every JUMP_BACK carries the index of
    a JUMP_FWD before it, and that JUMP_FWD carries the index of the
    JUMP_BACK; and every JUMP_FWD whose target was resolved is one of
    these pairs. *)
Lemma compiled_mutually_linked (ops : buffer) (bc : list Instruction) :
  compiles_to ops bc -> mutually_linked bc.
Proof.
  intros [fuel H]. unfold compile_fuel in H. destruct ops as [|c ops].
  - injection H as <-. apply (linking_mutually_linked _ []), linking_start.
  - apply linking_run in H as [stk L]; [|apply linking_start].
    by apply linking_mutually_linked in L.
Qed.

(** ** What lies before the cursor does not matter *)

Section Prefix.

Lemma rd_cons c ops k : rd (c :: ops) (S k) = reindex 1 (rd ops k).
Proof. unfold rd. simpl. destruct (ops !! k); reflexivity. Qed.

Lemma rd_eq_cons c ops k x :
  rd_eq (c :: ops) (S k) x = reindex 1 (rd_eq ops k x).
Proof. unfold rd_eq. rewrite rd_cons. destruct (rd ops k); reflexivity. Qed.

Lemma rd_ne_cons c ops k x :
  rd_ne (c :: ops) (S k) x = reindex 1 (rd_ne ops k x).
Proof. unfold rd_ne. rewrite rd_cons. destruct (rd ops k); reflexivity. Qed.

(** Splits on every read left in the goal. *)
Ltac split_reads :=
  repeat match goal with
    | |- context [rd_eq ?o ?k ?x] => destruct (rd_eq o k x) as [[]|]; simpl
    | |- context [rd_ne ?o ?k ?x] => destruct (rd_ne o k x) as [[]|]; simpl
    | |- context [rd ?o ?k] => destruct (rd o k); simpl
    end.

Ltac cons_reads :=
  simpl; rewrite ?rd_cons, ?rd_eq_cons, ?rd_ne_cons.

Lemma is_set_zero_pattern_cons c ops pos :
  is_set_zero_pattern (c :: ops) (S pos)
  = reindex 1 (is_set_zero_pattern ops pos).
Proof.
  unfold is_set_zero_pattern. cons_reads.
  repeat case_decide; try lia; try reflexivity.
  by split_reads.
Qed.

Lemma is_scan_pattern_cons c ops pos :
  is_scan_pattern (c :: ops) (S pos) = reindex 1 (is_scan_pattern ops pos).
Proof.
  unfold is_scan_pattern. cons_reads.
  repeat case_decide; try lia; try reflexivity.
  destruct (rd ops pos); simpl; [|done]. case_match; [done|].
  destruct (rd ops (pos + 1)); simpl; [|done]. case_match; [done|].
  destruct (rd ops (pos + 2)); simpl; [|done]. by case_match.
Qed.

Lemma is_add_to_next_pattern_cons c ops pos :
  is_add_to_next_pattern (c :: ops) (S pos)
  = reindex 1 (is_add_to_next_pattern ops pos).
Proof.
  unfold is_add_to_next_pattern. cons_reads.
  repeat case_decide; try lia; try reflexivity.
  by split_reads.
Qed.

Lemma sign_loop_cons c ops fuel i acc :
  sign_loop fuel (c :: ops) (S i) acc
  = (r ← reindex 1 (sign_loop fuel ops i acc); Got (r.1, S r.2)).
Proof.
  revert i acc. induction fuel as [|fuel IH]; intros i acc; [done|].
  cbn [sign_loop]. cons_reads.
  rewrite (bool_decide_ext (S i < S (length ops)) (i < length ops)) by lia.
  case_bool_decide; simpl; [|done].
  destruct (rd_eq ops i "+") as [[]|]; simpl; [| |done].
  - apply IH.
  - destruct (rd_eq ops i "-") as [[]|]; simpl; [|done|done]. apply IH.
Qed.

Lemma is_multiply_move_pattern_cons c ops pos :
  is_multiply_move_pattern (c :: ops) (S pos)
  = reindex 1 (is_multiply_move_pattern ops pos).
Proof.
  unfold is_multiply_move_pattern. cons_reads.
  rewrite (bool_decide_ext (S (pos + 4) >= S (length ops))
             (pos + 4 >= length ops)) by lia.
  case_bool_decide; simpl; [done|].
  destruct (rd_ne ops pos "[") as [[]|]; simpl; [done| |done].
  destruct (rd_ne ops (pos + 1) "-") as [[]|]; simpl; [done| |done].
  destruct (rd_ne ops (pos + 2) ">") as [[]|]; simpl; [done| |done].
  assert (Hloop :
    (r ← sign_loop (length ops - (pos + 3)) (c :: ops) (S (pos + 3)) 0;
     let '(multiplier, i) := r in
     reject' ← Got (bool_decide (i >= S (length ops))) ||| rd_ne (c :: ops) i "<"
               ||| Got (bool_decide (i + 1 >= S (length ops)))
               ||| rd_ne (c :: ops) (i + 1) "]";
     if reject' : bool then Got no_pattern
     else Got (mkPattern true multiplier (i + 2 - S pos)))
    = reindex 1
        (r ← sign_loop (length ops - (pos + 3)) ops (pos + 3) 0;
         let '(multiplier, i) := r in
         reject' ← Got (bool_decide (i >= length ops)) ||| rd_ne ops i "<"
                   ||| Got (bool_decide (i + 1 >= length ops))
                   ||| rd_ne ops (i + 1) "]";
         if reject' : bool then Got no_pattern
         else Got (mkPattern true multiplier (i + 2 - pos)))).
  { rewrite sign_loop_cons.
    destruct (sign_loop _ ops _ _) as [[m j]|]; simpl; [|done].
    cons_reads.
    rewrite (bool_decide_ext (S j >= S (length ops)) (j >= length ops)) by lia.
    case_bool_decide; simpl; [done|].
    destruct (rd_ne ops j "<") as [[]|]; simpl; [done| |done].
    rewrite (bool_decide_ext (S (j + 1) >= S (length ops))
               (j + 1 >= length ops)) by lia.
    case_bool_decide; simpl; [done|].
    destruct (rd_ne ops (j + 1) "]") as [[]|]; simpl; [done| |done].
    done. }
  destruct (rd_ne ops (pos + 3) "+") as [[]|]; simpl; [| |done].
  - destruct (rd_ne ops (pos + 3) "-") as [[]|]; simpl; [done| |done].
    apply Hloop.
  - apply Hloop.
Qed.

Lemma is_set_value_pattern_cons c ops pos :
  is_set_value_pattern (c :: ops) (S pos)
  = reindex 1 (is_set_value_pattern ops pos).
Proof.
  unfold is_set_value_pattern. cons_reads.
  repeat case_decide; try lia; try reflexivity.
  destruct (rd_ne ops pos "[") as [[]|]; simpl; [done| |done].
  destruct (rd_ne ops (pos + 1) "-") as [[]|]; simpl; [done| |done].
  destruct (rd_ne ops (pos + 2) "]") as [[]|]; simpl; [done| |done].
  rewrite sign_loop_cons.
  destruct (sign_loop _ ops _ _) as [[v j]|]; simpl; [|done].
  by case_decide.
Qed.

Lemma count_loop_cons c ops fuel start target count :
  count_loop fuel (c :: ops) (S start) target count
  = reindex 1 (count_loop fuel ops start target count).
Proof.
  revert count. induction fuel as [|fuel IH]; intros count; [done|].
  cbn [count_loop]. cons_reads.
  rewrite (bool_decide_ext (S (start + count) < S (length ops))
             (start + count < length ops)) by lia.
  case_bool_decide; simpl; [|done].
  destruct (rd_eq ops (start + count) target) as [[]|]; simpl; [|done|done].
  apply IH.
Qed.

Lemma count_repeated_chars_cons c ops start target :
  count_repeated_chars (c :: ops) (S start) target
  = reindex 1 (count_repeated_chars ops start target).
Proof. apply count_loop_cons. Qed.

Lemma NEXT_CHAR_N_cons c ops bc stk i n :
  NEXT_CHAR_N (c :: ops) bc stk (S i) n
  = advance_control 1 (NEXT_CHAR_N ops bc stk i n).
Proof.
  unfold NEXT_CHAR_N. simpl. repeat case_decide; try lia; reflexivity.
Qed.

Lemma parse_run_cons c ops s target o negate :
  parse_run (c :: ops) (advance 1 s) target o negate
  = reindex 1 (advance_control 1 <$> parse_run ops s target o negate).
Proof.
  unfold parse_run. simpl. rewrite count_repeated_chars_cons.
  destruct (count_repeated_chars ops (i s) target); simpl; [|done].
  by rewrite NEXT_CHAR_N_cons.
Qed.

Lemma parse_jmp_fwd_cons c ops s :
  parse_jmp_fwd (c :: ops) (advance 1 s)
  = reindex 1 (advance_control 1 <$> parse_jmp_fwd ops s).
Proof.
  unfold parse_jmp_fwd, NEXT_CHAR. simpl.
  rewrite is_set_value_pattern_cons, is_set_zero_pattern_cons,
    is_scan_pattern_cons, is_add_to_next_pattern_cons,
    is_multiply_move_pattern_cons.
  destruct (is_set_value_pattern ops (i s)) as [p1|]; simpl; [|done].
  destruct (found p1); simpl; [by rewrite NEXT_CHAR_N_cons|].
  destruct (is_set_zero_pattern ops (i s)) as [[]|]; simpl;
    [by rewrite NEXT_CHAR_N_cons| |done].
  destruct (is_scan_pattern ops (i s)) as [p2|]; simpl; [|done].
  destruct (is_add_to_next_pattern ops (i s)) as [[]|]; simpl;
    [by rewrite NEXT_CHAR_N_cons| |done].
  destruct (is_multiply_move_pattern ops (i s)) as [p3|]; simpl; [|done].
  destruct (found p3); simpl; by rewrite NEXT_CHAR_N_cons.
Qed.

Lemma body_cons l c ops s :
  body l (c :: ops) (advance 1 s)
  = reindex 1 (advance_control 1 <$> body l ops s).
Proof.
  destruct l; simpl; try apply parse_run_cons.
  - unfold parse_output, NEXT_CHAR. simpl. by rewrite NEXT_CHAR_N_cons.
  - unfold parse_input, NEXT_CHAR. simpl. by rewrite NEXT_CHAR_N_cons.
  - apply parse_jmp_fwd_cons.
  - unfold parse_jmp_back, NEXT_CHAR. simpl.
    destruct (loop_stack s); simpl; by rewrite NEXT_CHAR_N_cons.
  - unfold parse_unknown, NEXT_CHAR. simpl. by rewrite NEXT_CHAR_N_cons.
Qed.

Lemma dispatch_cons c ops s :
  dispatch (c :: ops) (advance 1 s)
  = reindex 1 (advance_control 1 <$> dispatch ops s).
Proof.
  rewrite !dispatch_body. simpl. rewrite rd_cons.
  destruct (rd ops (i s)); simpl; [|done]. apply body_cons.
Qed.

Lemma run_cons fuel c ops s :
  run fuel (c :: ops) (advance 1 s) = advance_outcome 1 (run fuel ops s).
Proof.
  revert s. induction fuel as [|fuel IH]; intros s; [done|].
  cbn [run]. rewrite dispatch_cons.
  destruct (dispatch ops s) as [[s'|bc]|]; simpl; [|done|done].
  apply IH.
Qed.

Lemma advance_advance d e s : advance d (advance e s) = advance (d + e) s.
Proof. unfold advance. simpl. f_equal. lia. Qed.

Lemma advance_outcome_advance_outcome d e o :
  advance_outcome d (advance_outcome e o) = advance_outcome (d + e) o.
Proof. destruct o; simpl; f_equal. lia. Qed.

(** The run from a cursor behind a prefix is the run on the rest of the
    buffer. *)
Lemma run_app fuel pre ops s :
  run fuel (pre ++ ops) (advance (length pre) s)
  = advance_outcome (length pre) (run fuel ops s).
Proof.
  induction pre as [|c pre IH]; simpl.
  - destruct s. unfold advance. simpl. by destruct (run _ _ _).
  - change (S (length pre)) with (1 + length pre).
    rewrite <- advance_advance, run_cons, IH.
    by rewrite advance_outcome_advance_outcome.
Qed.

Lemma dispatch_app pre ops s :
  dispatch (pre ++ ops) (advance (length pre) s)
  = reindex (length pre) (advance_control (length pre) <$> dispatch ops s).
Proof.
  induction pre as [|c pre IH]; simpl.
  - destruct s. unfold advance. simpl.
    destruct (dispatch _ _) as [[[]|]|]; reflexivity.
  - change (S (length pre)) with (1 + length pre).
    rewrite <- advance_advance, dispatch_cons, IH.
    destruct (dispatch ops s) as [[s'|bc]|]; simpl; [| done |f_equal; lia].
    by rewrite advance_advance.
Qed.

End Prefix.

(** ** Run-length folding *)

Section Runs.

Lemma rd_eq_Got ops k c x :
  ops !! k = Some c -> rd_eq ops k x = Got (Ascii.eqb c x).
Proof. unfold rd_eq, rd. by intros ->. Qed.

Lemma count_loop_replicate k c post fuel count :
  head post <> Some c -> 1 <= count <= k -> k <= count + fuel ->
  count_loop fuel (replicate k c ++ post) 0 c count = Got k.
Proof.
  intros Hpost. revert count. induction fuel as [|fuel IH]; intros count Hc Hf.
  - simpl. f_equal. lia.
  - cbn [count_loop]. rewrite length_app, length_replicate. simpl.
    case_bool_decide as Hlt; simpl.
    + destruct (decide (count < k)) as [Hck|Hck].
      * rewrite (rd_eq_Got _ _ c).
        2:{ rewrite lookup_app_l by (rewrite length_replicate; lia).
            by apply lookup_replicate_2. }
        rewrite Ascii.eqb_refl. simpl. apply IH; lia.
      * assert (count = k) as -> by lia.
        destruct post as [|x post]; [simpl in Hlt; lia|].
        rewrite (rd_eq_Got _ _ x).
        2:{ rewrite lookup_app_r by (rewrite length_replicate; lia).
            by rewrite length_replicate, Nat.sub_diag. }
        destruct (Ascii.eqb_spec x c) as [->|]; [by destruct Hpost|done].
    + f_equal. lia.
Qed.

Lemma count_repeated_chars_replicate k c post :
  head post <> Some c -> 1 <= k ->
  count_repeated_chars (replicate k c ++ post) 0 c = Got k.
Proof.
  intros. unfold count_repeated_chars. apply count_loop_replicate; [done|lia|].
  rewrite length_app, length_replicate. lia.
Qed.

Lemma NEXT_CHAR_N_app pre ops bc stk i n :
  advance_control (length pre) (NEXT_CHAR_N ops bc stk i n)
  = NEXT_CHAR_N (pre ++ ops) bc stk (length pre + i) n.
Proof.
  unfold NEXT_CHAR_N. rewrite length_app.
  repeat case_decide; try lia; simpl; [|done].
  unfold advance. simpl. do 2 f_equal. lia.
Qed.

(** On the first character of a run of [k] characters [c] that ends
    where the run ends, the label of [c] pushes one instruction whose
    operand is the count reduced to [uint16_t], and moves the cursor by
    that reduced count. *)
Lemma dispatch_run pre post k c ins bc stk :
  run_instruction c (to_uint16 (Z.of_nat k)) = Some ins ->
  head post <> Some c -> 1 <= k ->
  dispatch (pre ++ replicate k c ++ post) (mkLocals bc stk (length pre))
  = Got (NEXT_CHAR_N (pre ++ replicate k c ++ post) (bc ++ [ins]) stk
           (length pre) (Z.to_nat (to_uint16 (Z.of_nat k)))).
Proof.
  intros Hins Hpost Hk.
  pose proof (dispatch_app pre (replicate k c ++ post) (mkLocals bc stk 0))
    as Happ.
  unfold advance in Happ. simpl in Happ. rewrite Nat.add_0_r in Happ.
  rewrite Happ. clear Happ.
  assert (Hrun : forall o negate,
    parse_run (replicate k c ++ post) (mkLocals bc stk 0) c o negate
    = Got (NEXT_CHAR_N (replicate k c ++ post)
             (bc ++ [mkInstruction o 0
                       (if negate then (- to_uint16 (Z.of_nat k))%Z
                        else to_uint16 (Z.of_nat k))])
             stk 0 (Z.to_nat (to_uint16 (Z.of_nat k))))).
  { intros o negate. unfold parse_run. simpl.
    by rewrite count_repeated_chars_replicate. }
  rewrite dispatch_body. simpl.
  assert (rd (replicate k c ++ post) 0 = Got c) as ->.
  { destruct k; [lia|reflexivity]. }
  simpl.
  destruct c as [[] [] [] [] [] [] [] []]; simpl in Hins; try discriminate;
    injection Hins as <-; simpl;
    unfold parse_mv_right, parse_mv_left, parse_inc_val, parse_dec_val;
    rewrite Hrun; simpl; rewrite NEXT_CHAR_N_app;
    by rewrite Nat.add_0_r.
Qed.

(** A run whose length is a multiple of 65536 leaves the cursor where it
    is: the same label runs again and again. *)
Lemma run_stuck pre post m c fuel bc stk :
  is_Some (run_instruction c 0) ->
  head post <> Some c -> 1 <= m -> to_uint16 (Z.of_nat m) = 0%Z ->
  run fuel (pre ++ replicate m c ++ post) (mkLocals bc stk (length pre))
  = OutOfFuel.
Proof.
  intros [ins Hins] Hpost Hm Hz. revert bc.
  induction fuel as [|fuel IH]; intros bc; [done|].
  cbn [run]. rewrite (dispatch_run pre post m c ins); [|by rewrite Hz|done..].
  rewrite Hz. unfold NEXT_CHAR_N. simpl.
  rewrite decide_True.
  - rewrite Nat.add_0_r. apply IH.
  - rewrite !length_app, length_replicate. lia.
Qed.

Lemma compile_fuel_nonempty fuel ops :
  0 < length ops -> compile_fuel fuel ops = run fuel ops start.
Proof. destruct ops; simpl; [lia|done]. Qed.

Lemma replicate_split {A} (a b : nat) (x : A) :
  replicate (a + b) x = replicate a x ++ replicate b x.
Proof. induction a; simpl; congruence. Qed.

Lemma long_run_diverges (k : Z) (c : ascii) :
  is_Some (run_instruction c 0) -> (65536 <= k)%Z ->
  diverges (replicate (Z.to_nat k) c).
Proof.
  intros Hc Hk fuel.
  set (r := (k mod 65536)%Z).
  assert (Hr : (0 <= r < 65536)%Z) by (apply Z.mod_pos_bound; lia).
  set (m := (k - r)%Z).
  assert (Hm0 : (m mod 65536 = 0)%Z).
  { unfold m, r. rewrite Zminus_mod, Zmod_mod, Z.sub_diag. done. }
  assert (Hm : (65536 <= m)%Z).
  { unfold m. pose proof (Z.div_mod k 65536 ltac:(lia)) as Hdm. fold r in Hdm.
    assert (1 <= k / 65536)%Z by (apply Z.div_le_lower_bound; lia). lia. }
  assert (Hstuck : forall fuel bc,
    run fuel (replicate (Z.to_nat k) c) (mkLocals bc [] (Z.to_nat r))
    = OutOfFuel).
  { intros fuel' bc.
    replace (Z.to_nat k) with (Z.to_nat r + Z.to_nat m) by lia.
    rewrite replicate_split.
    pose proof (run_stuck (replicate (Z.to_nat r) c) [] (Z.to_nat m) c
                  fuel' bc [] Hc) as Hs.
    rewrite length_replicate, app_nil_r in Hs. apply Hs; [done|lia|].
    unfold to_uint16. rewrite Z2Nat.id by lia. done. }
  rewrite compile_fuel_nonempty by (rewrite length_replicate; lia).
  unfold start.
  destruct (decide (r = 0%Z)) as [Hr0|Hr0].
  - specialize (Hstuck fuel []). by rewrite Hr0 in Hstuck.
  - destruct fuel as [|fuel]; [done|]. cbn [run].
    destruct Hc as [ins0 Hins0].
    assert (exists ins, run_instruction c (to_uint16 (Z.of_nat (Z.to_nat k)))
                        = Some ins) as [ins Hins].
    { destruct c as [[] [] [] [] [] [] [] []]; simpl in Hins0;
        try discriminate; simpl; eauto. }
    pose proof (dispatch_run [] [] (Z.to_nat k) c ins [] [] Hins) as Hd.
    simpl in Hd. rewrite app_nil_r in Hd. rewrite Hd; [|done|lia].
    unfold to_uint16. rewrite Z2Nat.id by lia. fold r.
    unfold NEXT_CHAR_N. simpl. rewrite decide_True.
    + apply Hstuck.
    + rewrite length_replicate. lia.
Qed.

End Runs.

(** ** The scan branch, long runs and the add-to-next check *)

Ltac decide_lengths :=
  repeat first
    [ rewrite decide_True by (simpl; lia)
    | rewrite decide_False by (simpl; lia)
    | rewrite bool_decide_eq_true_2 by (simpl; lia)
    | rewrite bool_decide_eq_false_2 by (simpl; lia) ];
  simpl.

Lemma parse_jmp_fwd_scan (d : ascii) (post : buffer) bc stk :
  d = ">"%char \/ d = "<"%char ->
  parse_jmp_fwd ("[" :: d :: "]" :: post)%char (mkLocals bc stk 0)
  = Got (Dispatch
           (mkLocals
              ((bc ++ [mkInstruction
                         (if Ascii.eqb d ">" then SCAN_RIGHT else SCAN_LEFT)
                         0 0])
                 ++ [mkInstruction JUMP_FWD 0 0])
              (length (bc ++ [mkInstruction
                         (if Ascii.eqb d ">" then SCAN_RIGHT else SCAN_LEFT)
                         0 0]) :: stk)
              1)).
Proof.
  intros [-> | ->];
    unfold parse_jmp_fwd, is_set_value_pattern, is_set_zero_pattern,
      is_scan_pattern, is_add_to_next_pattern, is_multiply_move_pattern,
      NEXT_CHAR, NEXT_CHAR_N;
    simpl; decide_lengths;
    repeat (first [case_decide | case_bool_decide]; simpl; try lia);
    reflexivity.
Qed.

(** C1: on `[>]` (and `[<]`) the scan branch pushes its instruction and
    then falls through to the generic loop branch: a JUMP_FWD is pushed
    as well, the loop stack grows, and the cursor moves by 1, not by 3.
    The buffer `[>]` alone therefore compiles to four instructions. *)
Theorem scan_branch_falls_through (pre post : buffer) bc stk :
  dispatch (pre ++ src "[>]" ++ post) (mkLocals bc stk (length pre))
  = Got (Dispatch (mkLocals
           (bc ++ [mkInstruction SCAN_RIGHT 0 0; mkInstruction JUMP_FWD 0 0])
           (S (length bc) :: stk) (length pre + 1))) /\
  dispatch (pre ++ src "[<]" ++ post) (mkLocals bc stk (length pre))
  = Got (Dispatch (mkLocals
           (bc ++ [mkInstruction SCAN_LEFT 0 0; mkInstruction JUMP_FWD 0 0])
           (S (length bc) :: stk) (length pre + 1))) /\
  compile (src "[>]")
  = Returned [mkInstruction SCAN_RIGHT 0 0; mkInstruction JUMP_FWD 3 0;
              mkInstruction MV_POS 0 1; mkInstruction JUMP_BACK 1 0] /\
  compile (src "[<]")
  = Returned [mkInstruction SCAN_LEFT 0 0; mkInstruction JUMP_FWD 3 0;
              mkInstruction MV_POS 0 (-1); mkInstruction JUMP_BACK 1 0].
Proof.
  assert (Hstep : forall d, d = ">"%char \/ d = "<"%char ->
    dispatch (pre ++ "[" :: d :: "]" :: post)%char
      (mkLocals bc stk (length pre))
    = Got (Dispatch (mkLocals
             (bc ++ [mkInstruction
                       (if Ascii.eqb d ">" then SCAN_RIGHT else SCAN_LEFT) 0 0;
                     mkInstruction JUMP_FWD 0 0])
             (S (length bc) :: stk) (length pre + 1)))).
  { intros d Hd.
    pose proof (dispatch_app pre ("[" :: d :: "]" :: post)%char
                  (mkLocals bc stk 0)) as Happ.
    unfold advance in Happ. simpl in Happ. rewrite Nat.add_0_r in Happ.
    rewrite Happ, dispatch_body. simpl.
    rewrite (parse_jmp_fwd_scan d post bc stk Hd). simpl.
    unfold advance. simpl.
    by rewrite <- app_assoc, length_app, Nat.add_1_r. }
  split; [apply (Hstep ">"%char); by left|].
  split; [apply (Hstep "<"%char); by right|].
  split; reflexivity.
Qed.

(** C3: on a run of 65536 or more identical `>`, `<`, `+` or `-`
    characters [compile] never returns: once the rest of the run is a
    multiple of 65536 long, the count stored in the [uint16_t] is 0 and
    the cursor stops moving. *)
Theorem compile_diverges_on_long_run (k : Z) (c : ascii) :
  c ∈ [">"; "<"; "+"; "-"]%char -> (65536 <= k)%Z ->
  diverges (replicate (Z.to_nat k) c).
Proof.
  intros Hc Hk. apply long_run_diverges; [|done].
  repeat (apply elem_of_cons in Hc as [->|Hc]); [by eexists..|].
  inversion Hc.
Qed.

Lemma compile_diverges_on_long_run_witness :
  diverges (replicate (Z.to_nat 65536) ">"%char).
Proof.
  apply compile_diverges_on_long_run; [by left|lia].
Defined.

(** C10: on a buffer that ends in `[->+<`, with the cursor on that `[`,
    the guard [pos + 4 >= ops.size()] of [is_add_to_next_pattern] does
    not fire, the five characters match, and the sixth comparison reads
    [ops[pos + 5]], one past the end of the buffer. *)
Theorem is_add_to_next_pattern_reads_past_end (pre : buffer) :
  let ops := pre ++ src "[->+<" in
  let pos := length pre in
  length ops = pos + 5 /\
  ~ pos + 4 >= length ops /\
  rd ops pos = Got "["%char /\ rd ops (pos + 1) = Got "-"%char /\
  rd ops (pos + 2) = Got ">"%char /\ rd ops (pos + 3) = Got "+"%char /\
  rd ops (pos + 4) = Got "<"%char /\
  rd ops (pos + 5) = OutOfRange (pos + 5) /\
  is_add_to_next_pattern ops pos = OutOfRange (pos + 5) /\
  compile (src "[->+<") = ReadOutOfRange 5.
Proof.
  simpl. rewrite length_app. simpl.
  assert (Hrd : forall k, rd (pre ++ src "[->+<") (length pre + k)
                         = reindex (length pre) (rd (src "[->+<") k)).
  { intros k. unfold rd. rewrite lookup_app_r by lia.
    replace (length pre + k - length pre) with k by lia.
    by destruct (_ !! k). }
  split; [done|]. split; [lia|].
  rewrite <- (Nat.add_0_r (length pre)) at 1.
  rewrite !Hrd. simpl.
  do 6 (split; [reflexivity|]). split.
  - clear Hrd. induction pre as [|c pre IH]; [reflexivity|].
    simpl. rewrite is_add_to_next_pattern_cons, IH. reflexivity.
  - reflexivity.
Qed.

(** ** [compile] has at most one result *)

Lemma run_more_fuel fuel fuel' ops s bc :
  run fuel ops s = Returned bc -> fuel <= fuel' ->
  run fuel' ops s = Returned bc.
Proof.
  revert fuel' s. induction fuel as [|fuel IH]; intros fuel' s; [done|].
  destruct fuel' as [|fuel']; [lia|]. simpl.
  destruct (dispatch ops s) as [[s'|bc']|]; try done.
  intros H ?. apply IH; [done|lia].
Qed.

Lemma compiles_to_unique ops bc1 bc2 :
  compiles_to ops bc1 -> compiles_to ops bc2 -> bc1 = bc2.
Proof.
  intros [f1 H1] [f2 H2]. unfold compile_fuel in *.
  destruct ops; [congruence|].
  apply (run_more_fuel _ (f1 `max` f2)) in H1; [|lia].
  apply (run_more_fuel _ (f1 `max` f2)) in H2; [|lia].
  congruence.
Qed.

(** ** Runs inside loop patterns *)




(** ** A comment byte inside a run *)

(** C2 as stated fails: `++` is one ADD_VAL 2; `+x+` is two
    ADD_VAL 1. *)
Lemma comment_splits_a_run : ~ comments_are_ignored.
Proof.
  intros H.
  specialize (H (src "++") (src "+x+") [mkInstruction ADD_VAL 0 2]).
  assert (Hc : compiles_to (src "+x+") [mkInstruction ADD_VAL 0 2]).
  { apply H.
    - apply wc_keep, wc_insert; [reflexivity|]. apply wc_keep, wc_nil.
    - exists 1. reflexivity. }
  assert (Hc' : compiles_to (src "+x+")
                  [mkInstruction ADD_VAL 0 1; mkInstruction ADD_VAL 0 1]).
  { exists 3. reflexivity. }
  pose proof (compiles_to_unique _ _ _ Hc Hc'). discriminate.
Qed.

(** ** The tape *)

Section Tape.

Import TwoEndedTape.
Open Scope Z_scope.

Lemma to_size_t_small n : 0 <= n < 2 ^ 64 -> to_size_t n = n.
Proof. intros. unfold to_size_t. by apply Z.mod_small. Qed.

(** Up to twice the tape size the guard of [moveRightBy] is the bound
    on the new offset. *)
Lemma moveRightBy_in_range tp n :
  wf tp -> 0 <= n <= 2 * TAPE_SIZE ->
  moveRightBy n tp =
    if decide (offset tp + n <= TAPE_SIZE - 1)
    then Ok () (set_position (position tp + n) tp)
    else Throw "Tape overflow" tp.
Proof.
  intros [_ _ Hp] Hn. unfold moveRightBy, offset, TAPE_SIZE in *.
  rewrite (to_size_t_small (2 * 20000 - n)) by lia.
  repeat case_decide; try lia; [|done].
  by rewrite to_size_t_small by lia.
Qed.

(** Above twice the tape size the subtraction wraps and the guard lets
    every head through. *)
Lemma moveRightBy_wrapped tp n :
  wf tp -> 2 * TAPE_SIZE < n < 65536 ->
  moveRightBy n tp = Ok () (set_position (position tp + n) tp).
Proof.
  intros [_ _ Hp] Hn. unfold moveRightBy, to_size_t, TAPE_SIZE in *.
  rewrite decide_True.
  - by rewrite Z.mod_small by lia.
  - replace (2 * 20000 - n) with ((2 ^ 64 - (n - 40000)) + (-1) * 2 ^ 64)
      by lia.
    rewrite Z.mod_add by lia. rewrite Z.mod_small by lia. lia.
Qed.

Lemma moveLeftBy_spec tp n :
  wf tp -> 0 <= n ->
  moveLeftBy n tp =
    if decide (offset tp - n >= - TAPE_SIZE)
    then Ok () (set_position (position tp - n) tp)
    else Throw "Tape underflow" tp.
Proof.
  intros [_ _ Hp] Hn. unfold moveLeftBy, offset, TAPE_SIZE in *.
  repeat case_decide; try lia; [|done].
  by rewrite to_size_t_small by lia.
Qed.

End Tape.

Section TapeClaims.

Import TwoEndedTape DirectThreadingInterpreter.
Open Scope Z_scope.

Lemma wf_init : wf init.
Proof.
  split; unfold init; cbn [right left position];
    rewrite ?length_replicate; unfold TAPE_SIZE; done || lia.
Qed.

(** C5: a move right by more than twice the tape size is not refused.
    [2 * TAPE_SIZE - n] is computed in [size_t] and wraps, so the guard
    passes for every head; from the starting cell, [moveRightBy(50000)]
    puts the head at offset 50000, past the last cell 19999.  Fifty
    thousand `>` compile to that move, and the interpreter performs
    it. *)
Theorem moveRightBy_leaves_the_tape :
  moveRightBy 50000 init = Ok () (set_position 70000 init) /\
  offset (set_position 70000 init) = 50000 /\
  compile_fuel 1 (replicate (Z.to_nat 50000) ">"%char)
  = Returned [mkInstruction MV_POS 0 50000] /\
  interprete 1 [mkInstruction MV_POS 0 50000] []
  = Ok () (mkMachine (set_position 70000 init) 1 [] []).
Proof.
  assert (Hmv : moveRightBy 50000 init = Ok () (set_position 70000 init)).
  { rewrite moveRightBy_wrapped; [done|apply wf_init|unfold TAPE_SIZE; lia]. }
  split; [done|]. split; [done|]. split.
  - rewrite compile_fuel_nonempty by (rewrite length_replicate; lia).
    cbn [run]. unfold start.
    pose proof (dispatch_run [] [] (Z.to_nat 50000) ">"%char
                  (mkInstruction MV_POS 0 50000) [] []) as Hd.
    rewrite app_nil_r in Hd. change (length (@nil ascii)) with 0%nat in Hd.
    cbn [app] in Hd. rewrite Hd; [|by rewrite Z2Nat.id by lia|done|lia].
    unfold NEXT_CHAR_N. rewrite decide_False; [done|].
    rewrite length_replicate, Z2Nat.id by lia.
    change (to_uint16 50000) with 50000. lia.
  - unfold interprete, dispatch_loop, DISPATCH, fetch, boot, mbind, M_bind.
    cbv [pc Z.to_nat lookup list_lookup handler op do_mv_pos value on_tape
         tape].
    rewrite decide_True by lia.
    change (to_uint16 50000) with 50000. rewrite Hmv. reflexivity.
Qed.

End TapeClaims.

(** ** The cell under the head *)

Section Cells.

Import TwoEndedTape DirectThreadingInterpreter.
Open Scope Z_scope.

Lemma bind_Ok {S A B} (m : M S A) (k : A -> M S B) s a s' :
  m s = Ok a s' -> (m ≫= k) s = k a s'.
Proof. unfold mbind, M_bind. by intros ->. Qed.

Lemma bind_Throw {S A B} (m : M S A) (k : A -> M S B) s what s' :
  m s = Throw what s' -> (m ≫= k) s = Throw what s'.
Proof. unfold mbind, M_bind. by intros ->. Qed.

Lemma on_tape_Ok {A} (m : M TwoEndedTape.t A) st a tp :
  m (tape st) = Ok a tp -> on_tape m st = Ok a (with_tape tp st).
Proof. unfold on_tape. by intros ->. Qed.

Lemma on_tape_Throw {A} (m : M TwoEndedTape.t A) st what tp :
  m (tape st) = Throw what tp -> on_tape m st = Throw what (with_tape tp st).
Proof. unfold on_tape. by intros ->. Qed.

Lemma cell_offset tp :
  wf tp ->
  cell tp (offset tp)
  = if on_right tp then right tp !! right_index tp
    else left tp !! left_index tp.
Proof.
  intros [_ _ Hp]. unfold cell, on_right, offset, right_index, left_index.
  case_decide; case_bool_decide; try lia; f_equal; lia.
Qed.

Lemma cell_is_Some tp o :
  wf tp -> - TAPE_SIZE <= o < TAPE_SIZE -> is_Some (cell tp o).
Proof.
  intros [Hr Hl _] Ho. unfold cell.
  case_decide; apply lookup_lt_is_Some; lia.
Qed.

Lemma get_curr_wf tp :
  wf tp -> exists c, cell tp (offset tp) = Some c /\ get_curr tp = Ok c tp.
Proof.
  intros Hwf. destruct (cell_is_Some tp (offset tp) Hwf) as [c Hc].
  { destruct Hwf as [_ _ Hp]. unfold offset. lia. }
  exists c. split; [done|]. rewrite cell_offset in Hc by done.
  unfold get_curr. destruct (on_right tp); by rewrite Hc.
Qed.

Lemma set_curr_wf tp v : wf tp -> set_curr v tp = Ok () (write v tp).
Proof.
  intros Hwf. destruct (get_curr_wf tp Hwf) as (c & Hc & _).
  rewrite cell_offset in Hc by done.
  unfold set_curr, write. destruct (on_right tp); by rewrite Hc.
Qed.

Lemma add_wf tp x c :
  wf tp -> cell tp (offset tp) = Some c ->
  add x tp = Ok () (write (to_uint8 (c + x)) tp).
Proof.
  intros Hwf Hc. rewrite cell_offset in Hc by done.
  unfold add, write. destruct (on_right tp); by rewrite Hc.
Qed.

Lemma wf_write tp v : wf tp -> wf (write v tp).
Proof.
  intros [Hr Hl Hp]. unfold write.
  destruct (on_right tp); split; simpl; by rewrite ?length_insert.
Qed.

Lemma position_write tp v : position (write v tp) = position tp.
Proof. unfold write. by destruct (on_right tp). Qed.

Lemma cell_write tp v o :
  wf tp ->
  cell (write v tp) o = if decide (o = offset tp) then Some v else cell tp o.
Proof.
  intros [Hr Hl Hp].
  unfold write, cell, on_right, offset, right_index, left_index.
  case_bool_decide; simpl; repeat case_decide; try lia; subst; try done;
    try (apply list_lookup_insert_ne; lia);
    try (apply list_lookup_insert_eq; lia).
  replace (Z.to_nat (- (position tp - TAPE_SIZE) - 1))
    with (Z.to_nat (TAPE_SIZE - 1 - position tp)) by lia.
  apply list_lookup_insert_eq. lia.
Qed.

Lemma wf_set_position tp p :
  wf tp -> 0 <= p < 2 * TAPE_SIZE -> wf (set_position p tp).
Proof. intros [Hr Hl Hp] ?. by split. Qed.


End Cells.

(** ** SET_ZERO, SET_VAL, ADD_TO_NEXT and MULTIPLY_MV *)

Section Superinstructions.

Import TwoEndedTape DirectThreadingInterpreter.
Open Scope Z_scope.











End Superinstructions.

(** ** The program counter *)

Section ProgramCounter.

Import TwoEndedTape DirectThreadingInterpreter.
Open Scope Z_scope.

Lemma bind_Ok_inv {S A B} (m : M S A) (k : A -> M S B) s b s'' :
  (m ≫= k) s = Ok b s'' ->
  exists a s', m s = Ok a s' /\ k a s' = Ok b s''.
Proof. unfold mbind, M_bind. destruct (m s); try done. eauto. Qed.

Lemma bind_Undefined_inv {S A B} (m : M S A) (k : A -> M S B) s u :
  (m ≫= k) s = Undefined u ->
  m s = Undefined u \/ exists a s', m s = Ok a s' /\ k a s' = Undefined u.
Proof.
  unfold mbind, M_bind. destruct (m s) eqn:E; try done; [eauto|].
  intros [= <-]. by left.
Qed.

Lemma on_tape_pc {A} (m : M TwoEndedTape.t A) st a st' :
  on_tape m st = Ok a st' -> pc st' = pc st.
Proof. unfold on_tape. destruct (m (tape st)); try done. by intros [= _ <-]. Qed.

Lemma on_tape_Undefined {A} (m : M TwoEndedTape.t A) st u :
  (forall tp, m tp <> Undefined FetchOutOfRange) ->
  on_tape m st = Undefined u -> u = TapeIndexOutOfRange.
Proof.
  intros Hm. unfold on_tape. destruct (m (tape st)) eqn:E; try done.
  intros [= <-]. destruct u0; [done|]. by apply Hm in E.
Qed.

Lemma tape_methods_fetch_nothing :
  (forall tp, get_curr tp <> Undefined FetchOutOfRange) /\
  (forall v tp, set_curr v tp <> Undefined FetchOutOfRange) /\
  (forall x tp, add x tp <> Undefined FetchOutOfRange) /\
  (forall n tp, moveRightBy n tp <> Undefined FetchOutOfRange) /\
  (forall n tp, moveLeftBy n tp <> Undefined FetchOutOfRange).
Proof.
  repeat split; intros;
    unfold get_curr, set_curr, add, moveRightBy, moveLeftBy;
    repeat case_match; done.
Qed.

(** Ties every [≫=] in a hypothesis apart. *)
Ltac unbind H :=
  repeat match type of H with
    | (_ ≫= _) _ = Ok _ _ =>
        let a := fresh "a" in let s := fresh "s" in
        let H1 := fresh "H" in
        apply bind_Ok_inv in H as (a & s & H1 & H)
    end.

Lemma scan_right_loop_pc fuel st st' :
  scan_right_loop fuel st = Ok () st' -> pc st' = pc st.
Proof.
  revert st. induction fuel as [|fuel IH]; intros st; [done|].
  cbn [scan_right_loop]. intros H.
  apply bind_Ok_inv in H as (c & s1 & H1 & H).
  apply on_tape_pc in H1. case_decide.
  - apply bind_Ok_inv in H as (? & s2 & H2 & H).
    apply on_tape_pc in H2. apply IH in H. congruence.
  - injection H as <-. done.
Qed.

Lemma scan_left_loop_pc fuel st st' :
  scan_left_loop fuel st = Ok () st' -> pc st' = pc st.
Proof.
  revert st. induction fuel as [|fuel IH]; intros st; [done|].
  cbn [scan_left_loop]. intros H.
  apply bind_Ok_inv in H as (c & s1 & H1 & H).
  apply on_tape_pc in H1. case_decide.
  - apply bind_Ok_inv in H as (? & s2 & H2 & H).
    apply on_tape_pc in H2. apply IH in H. congruence.
  - injection H as <-. done.
Qed.

(** A label leaves [pc] alone or assigns it the jump target. *)
Lemma handler_pc fuel ins st st' :
  handler fuel ins st = Ok () st' ->
  pc st' = pc st \/ pc st' = jump_ref ins.
Proof.
  unfold handler. destruct (op ins); intros H.
  - unfold do_output in H. unbind H. apply on_tape_pc in H0.
    injection H as <-. by left.
  - unfold do_input in H. unbind H. apply on_tape_pc in H.
    left. rewrite H. unfold cin_get in H0.
    destruct (cin st); by injection H0 as _ <-.
  - unfold do_jmp_fwd in H. unbind H. apply on_tape_pc in H0.
    case_decide; injection H as <-; [by right|by left].
  - unfold do_jmp_back in H. unbind H. apply on_tape_pc in H0.
    case_decide; injection H as <-; [by right|by left].
  - left. by apply on_tape_pc in H.
  - left. by apply on_tape_pc in H.
  - left. unfold do_mv_pos in H. case_decide; by apply on_tape_pc in H.
  - left. unfold do_add_to_next in H. unbind H.
    apply on_tape_pc in H, H0, H1, H2, H3. congruence.
  - left. unfold do_multiply_mv in H. unbind H.
    apply on_tape_pc in H, H0, H1, H2, H3. congruence.
  - left. by apply on_tape_pc in H.
  - left. by apply scan_right_loop_pc in H.
  - left. by apply scan_left_loop_pc in H.
Qed.

Lemma DISPATCH_inv fuel bytecode st again st' :
  DISPATCH fuel bytecode st = Ok again st' ->
  exists ins mid,
    bytecode !! Z.to_nat (pc st) = Some ins /\
    handler fuel ins st = Ok () mid /\
    pc st' = to_size_t (pc mid + 1) /\
    again = bool_decide (pc st' < Z.of_nat (length bytecode)).
Proof.
  unfold DISPATCH. intros H.
  apply bind_Ok_inv in H as (ins & s1 & Hf & H).
  apply bind_Ok_inv in H as ([] & mid & Hh & H).
  unfold fetch in Hf.
  destruct (bytecode !! Z.to_nat (pc st)) as [ins'|] eqn:E; [|done].
  injection Hf as -> ->. exists ins, mid. split; [done|]. split; [done|].
  unfold NEXT in H. injection H as <- <-. done.
Qed.

Lemma dispatches_pc bytecode st :
  dispatches bytecode st -> 0 <= pc st < Z.of_nat (length bytecode).
Proof.
  induction 1 as [input Hne|fuel st st' _ _ H].
  - simpl. destruct bytecode; [done|]. simpl. lia.
  - apply DISPATCH_inv in H as (ins & mid & _ & _ & Hpc & Hagain).
    symmetry in Hagain. apply bool_decide_eq_true in Hagain.
    split; [|done]. rewrite Hpc. unfold to_size_t.
    apply Z.mod_pos_bound. lia.
Qed.

End ProgramCounter.

Section Fetch.

Import TwoEndedTape DirectThreadingInterpreter.
Open Scope Z_scope.

Lemma on_tape_no_fetch {A} (m : M TwoEndedTape.t A) st :
  (forall tp, m tp <> Undefined FetchOutOfRange) ->
  on_tape m st <> Undefined FetchOutOfRange.
Proof.
  intros Hm H. by apply on_tape_Undefined in H.
Qed.

Lemma bind_no_fetch {S A B} (m : M S A) (k : A -> M S B) s :
  m s <> Undefined FetchOutOfRange ->
  (forall a s', k a s' <> Undefined FetchOutOfRange) ->
  (m ≫= k) s <> Undefined FetchOutOfRange.
Proof.
  intros Hm Hk H. apply bind_Undefined_inv in H as [H|(a & s' & _ & H)];
    [done|by apply Hk in H].
Qed.

Lemma scan_right_loop_no_fetch fuel st :
  scan_right_loop fuel st <> Undefined FetchOutOfRange.
Proof.
  destruct tape_methods_fetch_nothing as (Hg & _ & _ & Hr & _).
  revert st. induction fuel as [|fuel IH]; intros st; [done|].
  cbn [scan_right_loop]. apply bind_no_fetch; [by apply on_tape_no_fetch|].
  intros c s'. case_decide; [|done].
  apply bind_no_fetch; [by apply on_tape_no_fetch|]. intros _ s''. apply IH.
Qed.

Lemma scan_left_loop_no_fetch fuel st :
  scan_left_loop fuel st <> Undefined FetchOutOfRange.
Proof.
  destruct tape_methods_fetch_nothing as (Hg & _ & _ & _ & Hl).
  revert st. induction fuel as [|fuel IH]; intros st; [done|].
  cbn [scan_left_loop]. apply bind_no_fetch; [by apply on_tape_no_fetch|].
  intros c s'. case_decide; [|done].
  apply bind_no_fetch; [by apply on_tape_no_fetch|]. intros _ s''. apply IH.
Qed.

(** No label reads [bytecode] at another index than [pc]. *)
Lemma handler_no_fetch fuel ins st :
  handler fuel ins st <> Undefined FetchOutOfRange.
Proof.
  destruct tape_methods_fetch_nothing as (Hg & Hs & Ha & Hr & Hl).
  unfold handler. destruct (op ins);
    unfold do_output, do_input, do_jmp_fwd, do_jmp_back, do_set_zero,
      do_add_val, do_mv_pos, do_add_to_next, do_multiply_mv, do_set_val;
    try apply scan_right_loop_no_fetch; try apply scan_left_loop_no_fetch;
    repeat first
      [ by apply on_tape_no_fetch
      | apply bind_no_fetch; [|intros ? ?]
      | case_decide
      | done ].
  unfold cin_get. by destruct (cin st).
Qed.

Lemma DISPATCH_no_fetch fuel bytecode st :
  0 <= pc st < Z.of_nat (length bytecode) ->
  DISPATCH fuel bytecode st <> Undefined FetchOutOfRange.
Proof.
  intros Hpc. unfold DISPATCH. apply bind_no_fetch.
  - unfold fetch.
    destruct (lookup_lt_is_Some_2 bytecode (Z.to_nat (pc st)) ltac:(lia))
      as [ins ->]. done.
  - intros ins s'. apply bind_no_fetch; [apply handler_no_fetch|done].
Qed.

Lemma dispatch_loop_no_fetch fuel bytecode st :
  0 <= pc st < Z.of_nat (length bytecode) ->
  dispatch_loop fuel bytecode st <> Undefined FetchOutOfRange.
Proof.
  revert st. induction fuel as [|fuel IH]; intros st Hpc; [done|].
  cbn [dispatch_loop]. intros H.
  apply bind_Undefined_inv in H as [H|(again & st' & Hd & H)].
  - by apply DISPATCH_no_fetch in H.
  - destruct again; [|done]. apply IH in H; [done|].
    apply DISPATCH_inv in Hd as (ins & mid & _ & _ & Hpc' & Hagain).
    symmetry in Hagain. apply bool_decide_eq_true in Hagain.
    split; [|done]. rewrite Hpc'. apply Z.mod_pos_bound. lia.
Qed.

(** [interprete] as a whole never reads [bytecode] out of range. *)
Lemma interprete_no_fetch fuel bytecode input :
  interprete fuel bytecode input <> Undefined FetchOutOfRange.
Proof.
  unfold interprete. destruct bytecode as [|ins bytecode]; [done|].
  apply dispatch_loop_no_fetch. simpl. lia.
Qed.

(** C9: with every jump target below the length of the sequence, every
    state in which the dispatch loop fetches has [0 <= pc < length], so
    [bytecode[pc]] is an element of the vector; the label reached leaves
    [pc] alone or assigns it a jump target, so after [++pc] the counter is
    at most the length, and the loop dispatches again exactly when it is
    below the length. *)
Theorem fetch_stays_in_range (bytecode : list Instruction) (st : machine) :
  (forall ins, ins ∈ bytecode ->
     0 <= jump_ref ins < Z.of_nat (length bytecode)) ->
  dispatches bytecode st ->
  0 <= pc st < Z.of_nat (length bytecode) /\
  is_Some (bytecode !! Z.to_nat (pc st)) /\
  (forall fuel, DISPATCH fuel bytecode st <> Undefined FetchOutOfRange) /\
  (forall fuel again st', DISPATCH fuel bytecode st = Ok again st' ->
     0 <= pc st' <= Z.of_nat (length bytecode) /\
     (again = true <-> pc st' < Z.of_nat (length bytecode))).
Proof.
  intros Hjump Hd. pose proof (dispatches_pc _ _ Hd) as Hpc.
  split; [done|]. split; [apply lookup_lt_is_Some; lia|].
  split; [intros fuel; by apply DISPATCH_no_fetch|].
  intros fuel again st' H.
  apply DISPATCH_inv in H as (ins & mid & Hins & Hh & Hpc' & ->).
  split; [|by rewrite bool_decide_eq_true].
  assert (Hmid : 0 <= pc mid < Z.of_nat (length bytecode)).
  { apply handler_pc in Hh as [->| ->]; [done|].
    apply Hjump. by eapply list_elem_of_lookup_2. }
  rewrite Hpc'. unfold to_size_t.
  pose proof (Z.mod_pos_bound (pc mid + 1) (2 ^ 64) ltac:(lia)).
  pose proof (Z.mod_le (pc mid + 1) (2 ^ 64) ltac:(lia) ltac:(lia)). lia.
Qed.

Lemma fetch_stays_in_range_witness :
  let bytecode := [mkInstruction ADD_VAL 0 1; mkInstruction JUMP_FWD 3 0;
                   mkInstruction ADD_VAL 0 (-1); mkInstruction JUMP_BACK 1 0] in
  let st := boot [] in
  0 <= pc st < Z.of_nat (length bytecode) /\
  is_Some (bytecode !! Z.to_nat (pc st)) /\
  (forall fuel, DISPATCH fuel bytecode st <> Undefined FetchOutOfRange) /\
  (forall fuel again st', DISPATCH fuel bytecode st = Ok again st' ->
     0 <= pc st' <= Z.of_nat (length bytecode) /\
     (again = true <-> pc st' < Z.of_nat (length bytecode))).
Proof.
  apply fetch_stays_in_range.
  - intros ins Hin. simpl.
    repeat (apply elem_of_cons in Hin as [->|Hin]; [simpl; lia|]).
    inversion Hin.
  - by apply dispatches_first.
Defined.

End Fetch.

(** ** The dump of [-c] *)

Section EndlessLoop.

Import TwoEndedTape DirectThreadingInterpreter.
Open Scope Z_scope.

Lemma DISPATCH_step fuel bytecode st ins mid :
  bytecode !! Z.to_nat (pc st) = Some ins ->
  handler fuel ins st = Ok () mid ->
  DISPATCH fuel bytecode st = NEXT bytecode mid.
Proof.
  intros Hins Hh. unfold DISPATCH.
  rewrite (bind_Ok _ _ _ ins st) by (unfold fetch; by rewrite Hins).
  by rewrite (bind_Ok _ _ _ () mid).
Qed.

Lemma get_curr_write_1 : get_curr (write 1 init) = Ok 1 (write 1 init).
Proof.
  destruct (get_curr_wf (write 1 init)) as (c & Hc & ->);
    [apply wf_write, wf_init|].
  rewrite cell_write in Hc by apply wf_init.
  rewrite decide_True in Hc by (unfold offset; by rewrite position_write).
  by injection Hc as <-.
Qed.

(** `+[]` never leaves its JUMP_BACK. *)
Lemma endless_spins fuel input :
  dispatch_loop fuel endless (mkMachine (write 1 init) 2 input [])
  = Unfinished.
Proof.
  induction fuel as [|fuel IH]; [done|].
  cbn [dispatch_loop].
  rewrite (bind_Ok _ _ _ true (mkMachine (write 1 init) 2 input []));
    [done|].
  rewrite (DISPATCH_step _ _ _ (mkInstruction JUMP_BACK 1 0)
             (mkMachine (write 1 init) 1 input [])); [done|done|].
  unfold handler, do_jmp_back. cbn [op].
  rewrite (bind_Ok _ _ _ 1 (mkMachine (write 1 init) 2 input []));
    [done|].
  by rewrite (on_tape_Ok _ _ 1 (write 1 init)) by apply get_curr_write_1.
Qed.

Lemma endless_interprete fuel input :
  interprete fuel endless input = Unfinished.
Proof.
  unfold interprete, endless. fold endless.
  do 2 (destruct fuel as [|fuel]; [done|]).
  cbn [dispatch_loop].
  rewrite (bind_Ok _ _ _ true (mkMachine (write 1 init) 1 input [])).
  2:{ rewrite (DISPATCH_step _ _ _ (mkInstruction ADD_VAL 0 1)
                 (mkMachine (write 1 init) 0 input [])); [done|done|].
      unfold handler, do_add_val. cbn [op value].
      rewrite (on_tape_Ok _ _ () (write 1 init)); [done|].
      cbn [boot tape]. rewrite (add_wf _ _ 0); [done|apply wf_init|].
      rewrite cell_offset by apply wf_init. done. }
  cbn [mbind]. 
  destruct fuel as [|fuel]; [|cbn [dispatch_loop]].
  { unfold DISPATCH, mbind, M_bind. cbn. done. }
  rewrite (bind_Ok _ _ _ true (mkMachine (write 1 init) 2 input []));
    [apply endless_spins|].
  rewrite (DISPATCH_step _ _ _ (mkInstruction JUMP_FWD 2 0)
             (mkMachine (write 1 init) 1 input [])); [done|done|].
  unfold handler, do_jmp_fwd. cbn [op].
  rewrite (bind_Ok _ _ _ 1 (mkMachine (write 1 init) 1 input []));
    [done|].
  by rewrite (on_tape_Ok _ _ 1 (write 1 init)) by apply get_curr_write_1.
Qed.

End EndlessLoop.

(** C8: with [-c], [main] writes one byte per compiled instruction, in
    sequence order, equal to the tag of its opcode, where the tags are
    OUTPUT 0, INPUT 1, JUMP_FWD 2, JUMP_BACK 3, SET_ZERO 4, ADD_VAL 5,
    MV_POS 6, ADD_TO_NEXT 7, MULTIPLY_MV 8, SET_VAL 9, SCAN_RIGHT 10,
    SCAN_LEFT 11; nothing is read from standard input and the interpreter
    is not run: `+[]`, which without [-c] never finishes, is dumped and
    [main] returns.
    For `+++[-].` the bytes are 5, 4, 0. *)
Theorem dump_mode (fuel : nat) (ops : buffer) (input : list Z)
  (bytecode : list Instruction) :
  compile_fuel fuel ops = Returned bytecode ->
  main fuel true ops input = Exit 0 (map (fun instr => OpCode_tag (op instr)) bytecode) /\
  map OpCode_tag [OUTPUT; INPUT; JUMP_FWD; JUMP_BACK; SET_ZERO; ADD_VAL; MV_POS;
                  ADD_TO_NEXT; MULTIPLY_MV; SET_VAL; SCAN_RIGHT; SCAN_LEFT]
  = [0; 1; 2; 3; 4; 5; 6; 7; 8; 9; 10; 11]%Z /\
  main 7 true (src "+++[-].") input = Exit 0 [5; 4; 0]%Z /\
  (forall more, main (3 + more) true (src "+[]") input = Exit 0 [5; 2; 3]%Z) /\
  (forall more, main (3 + more) false (src "+[]") input = StillRunning).
Proof.
  intros H.
  assert (Hc : forall more,
    compile_fuel (3 + more) (src "+[]") = Returned endless).
  { intros more. apply (run_more_fuel 3); [reflexivity|lia]. }
  split; [|split; [done|split; [done|split]]].
  - unfold main. rewrite H. f_equal. unfold print_bytecode.
    apply map_ext. intros instr. by destruct (op instr).
  - intros more. unfold main. by rewrite Hc.
  - intros more. unfold main. by rewrite Hc, endless_interprete.
Qed.

Lemma dump_mode_witness :
  main 7 true (src "+++[-].") []
  = Exit 0 (map (fun instr => OpCode_tag (op instr))
              [mkInstruction ADD_VAL 0 3; mkInstruction SET_ZERO 0 0;
               mkInstruction OUTPUT 0 0]) /\
  map OpCode_tag [OUTPUT; INPUT; JUMP_FWD; JUMP_BACK; SET_ZERO; ADD_VAL; MV_POS;
                  ADD_TO_NEXT; MULTIPLY_MV; SET_VAL; SCAN_RIGHT; SCAN_LEFT]
  = [0; 1; 2; 3; 4; 5; 6; 7; 8; 9; 10; 11]%Z /\
  main 7 true (src "+++[-].") [] = Exit 0 [5; 4; 0]%Z /\
  (forall more, main (3 + more) true (src "+[]") [] = Exit 0 [5; 2; 3]%Z) /\
  (forall more, main (3 + more) false (src "+[]") [] = StillRunning).
Proof.
  apply dump_mode. reflexivity.
Defined.

(** ** Bytes that end every lookahead *)

Section Barrier.

Lemma is_comment_barrier x : is_comment x -> is_barrier x.
Proof. unfold is_comment, is_barrier. by intros ->. Qed.

Lemma barrier_eqb b :
  is_barrier b ->
  Ascii.eqb b ">" = false /\ Ascii.eqb b "<" = false /\
  Ascii.eqb b "+" = false /\ Ascii.eqb b "-" = false /\
  Ascii.eqb b "[" = false /\ Ascii.eqb b "]" = false.
Proof.
  unfold is_barrier.
  destruct b as [[] [] [] [] [] [] [] []]; simpl; intros H;
    try done; repeat split.
Qed.

(** Rewrites every comparison of the barrier [b] with a command
    character. *)
Ltac barrier b Hb :=
  let H1 := fresh in let H2 := fresh in let H3 := fresh in
  let H4 := fresh in let H5 := fresh in let H6 := fresh in
  destruct (barrier_eqb b Hb) as (H1 & H2 & H3 & H4 & H5 & H6);
  rewrite ?H1, ?H2, ?H3, ?H4, ?H5, ?H6.

Ltac by_cases :=
  repeat (first [case_decide | case_bool_decide]; simpl; try lia);
  try reflexivity.

Lemma is_set_zero_pattern_local (w : buffer) :
  exists v : bool,
    (v = true -> 3 <= length w) /\
    forall b r, is_barrier b -> is_set_zero_pattern (w ++ b :: r) 0 = Got v.
Proof.
  destruct w as [|c0 [|c1 [|c2 w]]].
  - exists false. split; [done|]. intros b r Hb.
    unfold is_set_zero_pattern, rd_eq, rd. simpl. barrier b Hb. by_cases.
  - exists false. split; [done|]. intros b r Hb.
    unfold is_set_zero_pattern, rd_eq, rd. simpl. barrier b Hb. by_cases.
    by destruct (Ascii.eqb c0 "[").
  - exists false. split; [done|]. intros b r Hb.
    unfold is_set_zero_pattern, rd_eq, rd. simpl. barrier b Hb. by_cases.
    destruct (Ascii.eqb c0 "["); simpl; [|done].
    by destruct (Ascii.eqb c1 "-"), (Ascii.eqb c1 "+").
  - exists (Ascii.eqb c0 "[" && (Ascii.eqb c1 "-" || Ascii.eqb c1 "+")
            && Ascii.eqb c2 "]").
    split; [simpl; lia|]. intros b r Hb.
    unfold is_set_zero_pattern, rd_eq, rd. simpl. by_cases.
    destruct (Ascii.eqb c0 "["); simpl; [|done].
    by destruct (Ascii.eqb c1 "-"), (Ascii.eqb c1 "+").
Qed.

Ltac eqb_cases :=
  repeat match goal with
    | |- context [Ascii.eqb ?c ?x] =>
        destruct (Ascii.eqb c x); simpl; try reflexivity
    end.

Lemma is_scan_pattern_local (w : buffer) :
  exists p, forall b r,
    is_barrier b -> is_scan_pattern (w ++ b :: r) 0 = Got p.
Proof.
  destruct w as [|c0 [|c1 [|c2 w]]];
    [exists no_pattern..|
     exists (if Ascii.eqb c0 "[" && (Ascii.eqb c1 ">" || Ascii.eqb c1 "<")
                && Ascii.eqb c2 "]"
             then mkPattern true (if Ascii.eqb c1 ">" then 1 else 0) 3
             else no_pattern)];
    intros b r Hb; unfold is_scan_pattern, rd; simpl;
    try barrier b Hb; by_cases; eqb_cases.
Qed.

Lemma is_add_to_next_pattern_local (w : buffer) :
  exists v : bool,
    (v = true -> 6 <= length w) /\
    forall b r, is_barrier b -> is_add_to_next_pattern (w ++ b :: r) 0 = Got v.
Proof.
  destruct w as [|c0 [|c1 [|c2 [|c3 [|c4 [|c5 w]]]]]];
    [exists false..|
     exists (Ascii.eqb c0 "[" && Ascii.eqb c1 "-" && Ascii.eqb c2 ">"
             && Ascii.eqb c3 "+" && Ascii.eqb c4 "<" && Ascii.eqb c5 "]")];
    (split; [simpl; done || lia|]);
    intros b r Hb; unfold is_add_to_next_pattern, rd_eq, rd; simpl;
    try barrier b Hb; by_cases; eqb_cases.
Qed.

Lemma sign_run_le w acc : (sign_run w acc).2 <= length w.
Proof.
  revert acc. induction w as [|c w IH]; intros acc; simpl; [lia|].
  destruct (Ascii.eqb c "+").
  - specialize (IH (acc + 1)%Z). destruct (sign_run w _). simpl in *. lia.
  - destruct (Ascii.eqb c "-"); [|simpl; lia].
    specialize (IH (acc + -1)%Z). destruct (sign_run w _). simpl in *. lia.
Qed.

Lemma sign_loop_local w b r fuel acc :
  is_barrier b -> length w < fuel ->
  sign_loop fuel (w ++ b :: r) 0 acc = Got (sign_run w acc).
Proof.
  intros Hb. revert fuel acc.
  induction w as [|c w IH]; intros fuel acc Hf;
    (destruct fuel as [|fuel]; [simpl in Hf; lia|]).
  - cbn [sign_loop]. unfold rd_eq, rd. simpl. barrier b Hb. by_cases.
  - cbn [sign_loop]. rewrite bool_decide_eq_true_2 by (simpl; lia).
    unfold rd_eq at 1 2 3, rd. simpl.
    destruct (Ascii.eqb c "+"); simpl.
    + rewrite sign_loop_cons, IH by (simpl in Hf; lia).
      simpl. by destruct (sign_run w _).
    + destruct (Ascii.eqb c "-"); simpl; [|done].
      rewrite sign_loop_cons, IH by (simpl in Hf; lia).
      simpl. by destruct (sign_run w _).
Qed.

Lemma rd_in (l : buffer) b r n x :
  l !! n = Some x -> rd (l ++ b :: r) n = Got x.
Proof.
  intros H. unfold rd. rewrite lookup_app_l by (by eapply lookup_lt_Some).
  by rewrite H.
Qed.

Lemma rd_at (l : buffer) b r : rd (l ++ b :: r) (length l) = Got b.
Proof.
  unfold rd. rewrite lookup_app_r by lia. by rewrite Nat.sub_diag.
Qed.

Lemma is_set_value_pattern_local (w : buffer) :
  exists p,
    (found p = true -> len_of_pattern p <= length w) /\
    forall b r, is_barrier b -> is_set_value_pattern (w ++ b :: r) 0 = Got p.
Proof.
  destruct w as [|c0 [|c1 [|c2 w]]].
  1-3: exists no_pattern; (split; [done|]); intros b r Hb;
    unfold is_set_value_pattern, rd_ne, rd; simpl;
    barrier b Hb; by_cases; eqb_cases.
  exists (if Ascii.eqb c0 "[" && Ascii.eqb c1 "-" && Ascii.eqb c2 "]"
          then if decide ((sign_run w 0).1 <> 0%Z)
               then mkPattern true (sign_run w 0).1 (3 + (sign_run w 0).2)
               else no_pattern
          else no_pattern).
  split.
  - pose proof (sign_run_le w 0).
    destruct (_ && _); [|done]. case_decide; [simpl; lia|done].
  - intros b r Hb. unfold is_set_value_pattern.
    rewrite decide_False by (simpl; lia).
    unfold rd_ne, rd. simpl.
    destruct (Ascii.eqb c0 "["); simpl; [|done].
    destruct (Ascii.eqb c1 "-"); simpl; [|done].
    destruct (Ascii.eqb c2 "]"); simpl; [|done].
    rewrite !sign_loop_cons, sign_loop_local
      by (done || rewrite length_app; simpl; lia).
    simpl. destruct (sign_run w 0) as [v n]. simpl.
    by case_decide.
Qed.

Lemma is_multiply_move_pattern_local (w : buffer) :
  exists p,
    (found p = true -> len_of_pattern p <= length w) /\
    forall b r,
      is_barrier b -> is_multiply_move_pattern (w ++ b :: r) 0 = Got p.
Proof.
  destruct w as [|c0 [|c1 [|c2 l]]].
  1-3: exists no_pattern; (split; [done|]); intros b r Hb;
    unfold is_multiply_move_pattern, rd_ne, rd; simpl;
    barrier b Hb; by_cases; eqb_cases.
  set (m := (sign_run l 0).1). set (n := (sign_run l 0).2).
  exists (if Ascii.eqb c0 "[" && Ascii.eqb c1 "-" && Ascii.eqb c2 ">"
          then
            if decide (n = 0) then no_pattern
            else
              match l !! n, l !! (n + 1) with
              | Some x, Some y =>
                  if Ascii.eqb x "<" && Ascii.eqb y "]"
                  then mkPattern true m (3 + n + 2)
                  else no_pattern
              | _, _ => no_pattern
              end
          else no_pattern).
  split.
  - destruct (_ && _); [|done]. case_decide; [done|].
    destruct (l !! n) as [x|]; [|done].
    destruct (l !! (n + 1)) as [y|] eqn:Ey; [|done].
    destruct (_ && _); [|done]. simpl.
    apply lookup_lt_Some in Ey. lia.
  - intros b r Hb. unfold is_multiply_move_pattern.
    change ((c0 :: c1 :: c2 :: l) ++ b :: r)
      with (c0 :: c1 :: c2 :: (l ++ b :: r)).
    pose proof (sign_run_le l 0) as Hn. fold n in Hn.
    (* the part after the first test *)
    assert (Htail :
      (sign_loop (length (c0 :: c1 :: c2 :: l ++ b :: r) - (0 + 3))
         (c0 :: c1 :: c2 :: l ++ b :: r) (0 + 3) 0
       ≫= λ '(multiplier, i0),
            Got (bool_decide (i0 ≥ length (c0 :: c1 :: c2 :: l ++ b :: r)))
            ||| rd_ne (c0 :: c1 :: c2 :: l ++ b :: r) i0 "<"
            ||| Got (bool_decide
                       (i0 + 1 ≥ length (c0 :: c1 :: c2 :: l ++ b :: r)))
            ||| rd_ne (c0 :: c1 :: c2 :: l ++ b :: r) (i0 + 1) "]"
            ≫= λ reject' : bool,
                 if reject' then Got no_pattern
                 else Got (mkPattern true multiplier (i0 + 2 - 0)))
      = Got (match l !! n, l !! (n + 1) with
             | Some x, Some y =>
                 if Ascii.eqb x "<" && Ascii.eqb y "]"
                 then mkPattern true m (3 + n + 2)
                 else no_pattern
             | _, _ => no_pattern
             end)).
    { simpl (0 + 3). rewrite !sign_loop_cons, sign_loop_local
        by (done || simpl; rewrite length_app; simpl; lia).
      simpl. fold m n.
      destruct (sign_run l 0) as [m' n'] eqn:E. simpl in m, n. subst m n.
      rewrite bool_decide_eq_false_2
        by (simpl; rewrite length_app; simpl; lia).
      simpl. rewrite !rd_ne_cons.
      destruct (l !! n') as [x|] eqn:Ex.
      - unfold rd_ne at 1. rewrite (rd_in _ _ _ _ _ Ex). simpl.
        destruct (Ascii.eqb x "<"); simpl.
        + apply lookup_lt_Some in Ex.
          rewrite bool_decide_eq_false_2
            by (simpl; rewrite length_app; simpl; lia).
          simpl.
          destruct (l !! (n' + 1)) as [y|] eqn:Ey.
          * unfold rd_ne. rewrite (rd_in _ _ _ _ _ Ey). simpl.
            by destruct (Ascii.eqb y "]").
          * apply lookup_ge_None in Ey.
            replace (n' + 1) with (length l) by lia.
            unfold rd_ne. rewrite rd_at. simpl. by barrier b Hb.
        + by destruct (l !! (n' + 1)).
      - apply lookup_ge_None in Ex.
        replace n' with (length l) by lia.
        unfold rd_ne at 1. rewrite rd_at. simpl. by barrier b Hb. }
    rewrite Htail. clear Htail.
    case_bool_decide as Hlen; simpl.
    { (* nothing but the three bytes and the barrier *)
      destruct l;
        [|simpl in Hlen; rewrite length_app in Hlen; simpl in Hlen; lia].
      subst n. simpl. by destruct (_ && _). }
    unfold rd_ne at 1 2 3, rd. simpl.
    destruct (Ascii.eqb c0 "["); simpl; [|done].
    destruct (Ascii.eqb c1 "-"); simpl; [|done].
    destruct (Ascii.eqb c2 ">"); simpl; [|done].
    rewrite !rd_ne_cons.
    destruct l as [|c3 w4].
    + unfold rd_ne, rd. simpl. by barrier b Hb.
    + unfold rd_ne, rd. simpl. subst n. simpl.
      destruct (Ascii.eqb c3 "+"); simpl.
      * by destruct (sign_run w4 _).
      * destruct (Ascii.eqb c3 "-"); simpl; [|done].
        by destruct (sign_run w4 _).
Qed.

Lemma run_decompose c (w : buffer) :
  exists k w', c :: w = replicate (S k) c ++ w' /\ head w' <> Some c.
Proof.
  induction w as [|x w (k & w' & IH & Hw')].
  - exists 0, []. done.
  - destruct (decide (x = c)) as [->|Hne].
    + exists (S k), w'. split; [|done]. simpl. by rewrite IH.
    + exists 0, (x :: w). split; [done|]. simpl. congruence.
Qed.

Lemma run_instruction_operand c n n' :
  is_Some (run_instruction c n) -> is_Some (run_instruction c n').
Proof.
  destruct c as [[] [] [] [] [] [] [] []]; simpl; intros [? ?];
    try done; by eexists.
Qed.

Lemma run_instruction_not_barrier c b n :
  is_Some (run_instruction c n) -> is_barrier b -> b <> c.
Proof.
  intros Hc Hb ->. unfold is_barrier in Hb.
  destruct c as [[] [] [] [] [] [] [] []]; simpl in Hc, Hb;
    destruct Hc; done.
Qed.

Lemma no_run_label c :
  run_instruction c 0 = None ->
  dispatch_table c ∈ [L_output; L_input; L_jmp_fwd; L_jmp_back; L_unknown].
Proof.
  destruct c as [[] [] [] [] [] [] [] []]; simpl; intros H; try done;
    repeat (first [by left|right]).
Qed.

Lemma NEXT_CHAR_N_Dispatch ops bc stk i n :
  i + n < length ops ->
  NEXT_CHAR_N ops bc stk i n = Dispatch (mkLocals bc stk (i + n)).
Proof. intros. unfold NEXT_CHAR_N. by rewrite decide_True. Qed.

(** Bracket patterns, on the bytes before a barrier. *)
Lemma parse_jmp_fwd_local (w : buffer) bc stk :
  w <> [] ->
  exists s', i s' <= length w /\
    forall b r, is_barrier b ->
      parse_jmp_fwd (w ++ b :: r) (mkLocals bc stk 0) = Got (Dispatch s').
Proof.
  intros Hw.
  assert (Hlen : forall b r, 1 < length (w ++ b :: r)).
  { intros. rewrite length_app. destruct w; [done|simpl; lia]. }
  assert (Hw1 : 1 <= length w) by (destruct w; [done|simpl; lia]).
  assert (Hnext : forall b r bc' stk' n, n <= length w ->
    NEXT_CHAR_N (w ++ b :: r) bc' stk' 0 n = Dispatch (mkLocals bc' stk' n)).
  { intros. rewrite NEXT_CHAR_N_Dispatch; [done|].
    rewrite length_app. simpl. lia. }
  destruct (is_set_value_pattern_local w) as (p1 & Hp1 & H1).
  destruct (is_set_zero_pattern_local w) as (v2 & Hv2 & H2).
  destruct (is_scan_pattern_local w) as (p3 & H3).
  destruct (is_add_to_next_pattern_local w) as (v4 & Hv4 & H4).
  destruct (is_multiply_move_pattern_local w) as (p5 & Hp5 & H5).
  unfold parse_jmp_fwd, NEXT_CHAR. cbn [bytecode loop_stack i].
  destruct (found p1) eqn:E1.
  { eexists. split; [|intros b r Hb; rewrite H1 by done; cbn;
                       rewrite E1, Hnext by auto; reflexivity].
    simpl. auto. }
  destruct v2.
  { eexists. split; [|intros b r Hb; rewrite H1, H2 by done; cbn;
                       rewrite E1, Hnext by auto; reflexivity].
    simpl. auto. }
  destruct v4.
  { eexists. split; [|intros b r Hb; rewrite H1, H2, H3, H4 by done; cbn;
                       rewrite E1, Hnext by auto; reflexivity].
    simpl. etrans; [|apply Hv4; done]. lia. }
  destruct (found p5) eqn:E5.
  { eexists. split; [|intros b r Hb; rewrite H1, H2, H3, H4, H5 by done; cbn;
                       rewrite E1, E5, Hnext by auto; reflexivity].
    simpl. auto. }
  eexists. split; [|intros b r Hb; rewrite H1, H2, H3, H4, H5 by done; cbn;
                     rewrite E1, E5, Hnext by auto; reflexivity].
  simpl. done.
Qed.

(** One dispatch on the bytes before a barrier: the barrier and what
    follows it are not looked at, and the cursor does not pass the
    barrier. *)
Lemma dispatch_local (w : buffer) bc stk :
  w <> [] ->
  exists s', i s' <= length w /\
    forall b r, is_barrier b ->
      dispatch (w ++ b :: r) (mkLocals bc stk 0) = Got (Dispatch s').
Proof.
  intros Hw. destruct w as [|c w]; [done|].
  destruct (run_instruction c 0) as [ins0|] eqn:Erun.
  - destruct (run_decompose c w) as (k & w' & Hdec & Hw').
    destruct (run_instruction_operand c 0 (to_uint16 (Z.of_nat (S k))))
      as [ins Hins]; [by eexists|].
    assert (Hle : Z.to_nat (to_uint16 (Z.of_nat (S k))) <= S k).
    { unfold to_uint16.
      pose proof (Z.mod_le (Z.of_nat (S k)) 65536 ltac:(lia) ltac:(lia)).
      pose proof (Z.mod_pos_bound (Z.of_nat (S k)) 65536 ltac:(lia)). lia. }
    exists (mkLocals (bc ++ [ins]) stk
              (Z.to_nat (to_uint16 (Z.of_nat (S k))))).
    split.
    { pose proof (f_equal length Hdec) as Hl.
      rewrite length_app, length_replicate in Hl. simpl in Hl |- *. lia. }
    intros b r Hb. rewrite Hdec, <- app_assoc.
    pose proof (dispatch_run [] (w' ++ b :: r) (S k) c ins bc stk Hins)
      as Hd.
    simpl in Hd. simpl. rewrite Hd; [|clear Hd|lia].
    + rewrite NEXT_CHAR_N_Dispatch; [done|].
      simpl. rewrite length_app, length_replicate, length_app. simpl. lia.
    + destruct w'; simpl; [|by simpl in Hw'].
      intros [= ->]. by eapply run_instruction_not_barrier.
  - apply no_run_label in Erun.
    assert (Hlen : forall b r, 0 + 1 < length ((c :: w) ++ b :: r)).
    { intros. simpl. rewrite length_app. simpl. lia. }
    destruct (parse_jmp_fwd_local (c :: w) bc stk) as (sf & Hsf & Hf);
      [done|].
    assert (Hbody : exists s', i s' <= length (c :: w) /\
      forall b r, is_barrier b ->
        body (dispatch_table c) ((c :: w) ++ b :: r) (mkLocals bc stk 0)
        = Got (Dispatch s')).
    { repeat (apply elem_of_cons in Erun as [->|Erun]).
      - eexists. split; [|intros b r Hb; cbn [body]; unfold parse_output,
          NEXT_CHAR; by rewrite NEXT_CHAR_N_Dispatch by apply Hlen].
        simpl. lia.
      - eexists. split; [|intros b r Hb; cbn [body]; unfold parse_input,
          NEXT_CHAR; by rewrite NEXT_CHAR_N_Dispatch by apply Hlen].
        simpl. lia.
      - exists sf. split; [done|]. intros b r Hb. by apply Hf.
      - destruct stk as [|top rest].
        + eexists. split; [|intros b r Hb; cbn [body]; unfold parse_jmp_back,
            NEXT_CHAR; cbn [loop_stack bytecode i];
            by rewrite NEXT_CHAR_N_Dispatch by apply Hlen].
          simpl. lia.
        + eexists. split; [|intros b r Hb; cbn [body]; unfold parse_jmp_back,
            NEXT_CHAR; cbn [loop_stack bytecode i];
            by rewrite NEXT_CHAR_N_Dispatch by apply Hlen].
          simpl. lia.
      - eexists. split; [|intros b r Hb; cbn [body]; unfold parse_unknown,
          NEXT_CHAR; by rewrite NEXT_CHAR_N_Dispatch by apply Hlen].
        simpl. lia.
      - inversion Erun. }
    destruct Hbody as (s' & Hs' & Hbody). exists s'. split; [done|].
    intros b r Hb. rewrite dispatch_body. simpl. by apply Hbody.
Qed.

End Barrier.

(** ** Comment bytes *)

Section Comments.

Lemma NEXT_CHAR_N_resume ops bc stk i n :
  NEXT_CHAR_N ops bc stk i n = resume ops bc stk (i + n).
Proof. unfold resume, NEXT_CHAR_N. by rewrite Nat.add_0_r. Qed.

Lemma resume_Dispatch ops bc stk p :
  p < length ops -> resume ops bc stk p = Dispatch (mkLocals bc stk p).
Proof.
  intros. unfold resume. rewrite NEXT_CHAR_N_Dispatch by lia.
  by rewrite Nat.add_0_r.
Qed.

Lemma resume_app pre ops bc stk p :
  advance_control (length pre) (resume ops bc stk p)
  = resume (pre ++ ops) bc stk (length pre + p).
Proof. apply NEXT_CHAR_N_app. Qed.

Lemma compiles_to_returns ops bc :
  compiles_to ops bc <-> returns ops (resume ops [] [] 0) bc.
Proof.
  unfold compiles_to, compile_fuel, resume, NEXT_CHAR_N.
  destruct ops as [|c ops]; simpl.
  - split; [by intros [_ [= <-]]|intros <-; by exists 0].
  - done.
Qed.

Lemma returns_step ops s c bc :
  dispatch ops s = Got c ->
  returns ops (Dispatch s) bc <-> returns ops c bc.
Proof.
  intros Hd. split.
  - intros [[|fuel] H]; [done|]. simpl in H. rewrite Hd in H.
    destruct c as [s'|bc']; simpl; [by exists fuel|congruence].
  - destruct c as [s'|bc']; simpl.
    + intros [fuel H]. exists (S fuel). simpl. by rewrite Hd.
    + intros <-. exists 1. simpl. by rewrite Hd.
Qed.

Lemma returns_app pre ops c bc :
  returns (pre ++ ops) (advance_control (length pre) c) bc
  <-> returns ops c bc.
Proof.
  destruct c as [s|bc']; simpl; [|done].
  split; intros [fuel H]; exists fuel.
  - rewrite run_app in H. by destruct (run fuel ops s).
  - by rewrite run_app, H.
Qed.

(** Comment bytes under the cursor are skipped one by one. *)
Lemma returns_comments cs ops bc0 stk bc :
  Forall is_comment cs ->
  returns (cs ++ ops) (resume (cs ++ ops) bc0 stk 0) bc
  <-> returns ops (resume ops bc0 stk 0) bc.
Proof.
  induction 1 as [|x cs Hx _ IH]; [done|].
  rewrite <- IH. change ((x :: cs) ++ ops) with (x :: (cs ++ ops)).
  rewrite (resume_Dispatch (x :: cs ++ ops)) by (simpl; lia).
  rewrite (returns_step _ _ (resume (x :: cs ++ ops) bc0 stk 1)).
  - change (x :: cs ++ ops) with ([x] ++ (cs ++ ops)).
    change 1 with (length [x] + 0) at 1.
    rewrite <- resume_app. apply returns_app.
  - rewrite dispatch_body. simpl. unfold is_comment in Hx. rewrite Hx.
    simpl. unfold parse_unknown, NEXT_CHAR.
    by rewrite NEXT_CHAR_N_resume.
Qed.

Lemma dispatch_before_barrier (w : buffer) bc stk p :
  p < length w ->
  exists s', i s' <= length w /\
    forall b r, is_barrier b ->
      dispatch (w ++ b :: r) (mkLocals bc stk p) = Got (Dispatch s').
Proof.
  intros Hp.
  destruct (dispatch_local (drop p w) bc stk) as (s' & Hs' & Hd).
  { intros E. apply (f_equal length) in E. rewrite length_drop in E.
    simpl in E. lia. }
  assert (Hlen : length (take p w) = p) by (rewrite length_take; lia).
  exists (advance p s'). split.
  { simpl. rewrite length_drop in Hs'. lia. }
  intros b r Hb.
  rewrite <- (take_drop p w) at 1. rewrite <- app_assoc.
  pose proof (dispatch_app (take p w) (drop p w ++ b :: r)
                (mkLocals bc stk 0)) as Happ.
  rewrite Hlen in Happ. unfold advance at 1 in Happ. simpl in Happ.
  rewrite Nat.add_0_r in Happ. rewrite Happ, Hd by done. done.
Qed.

(** Two buffers that agree up to a barrier each: if they return the same
    from the barrier on, they return the same from any cursor before
    it. *)
Lemma returns_before_barrier (w : buffer) b1 r1 b2 r2 :
  is_barrier b1 -> is_barrier b2 ->
  (forall bc0 stk bc,
     returns (w ++ b1 :: r1) (Dispatch (mkLocals bc0 stk (length w))) bc ->
     returns (w ++ b2 :: r2) (Dispatch (mkLocals bc0 stk (length w))) bc) ->
  forall fuel bc0 stk p bc,
    p <= length w ->
    run fuel (w ++ b1 :: r1) (mkLocals bc0 stk p) = Returned bc ->
    returns (w ++ b2 :: r2) (Dispatch (mkLocals bc0 stk p)) bc.
Proof.
  intros Hb1 Hb2 Htail fuel.
  induction fuel as [|fuel IH]; intros bc0 stk p bc Hp Hrun; [done|].
  destruct (decide (p = length w)) as [->|Hne].
  { apply Htail. by exists (S fuel). }
  destruct (dispatch_before_barrier w bc0 stk p ltac:(lia))
    as ([bc' stk' p'] & Hp' & Hd).
  simpl in Hrun. rewrite (Hd b1 r1 Hb1) in Hrun.
  apply (returns_step _ _ _ _ (Hd b2 r2 Hb2)). simpl.
  by apply IH.
Qed.

(** The step on a barrier byte. *)
Lemma returns_on_barrier (w : buffer) b bc0 stk :
  is_barrier b ->
  exists bc1, forall rest bc,
    returns (w ++ b :: rest) (Dispatch (mkLocals bc0 stk (length w))) bc
    <-> returns rest (resume rest bc1 stk 0) bc.
Proof.
  intros Hb.
  assert (exists bc1, forall rest,
    dispatch (b :: rest) (mkLocals bc0 stk 0)
    = Got (resume (b :: rest) bc1 stk 1)) as [bc1 Hd].
  { unfold is_barrier in Hb.
    destruct (dispatch_table b) eqn:E; try done;
      eexists; intros rest; rewrite dispatch_body; simpl; rewrite E; simpl;
      unfold parse_output, parse_input, parse_unknown, NEXT_CHAR;
      by rewrite NEXT_CHAR_N_resume. }
  exists bc1. intros rest bc.
  pose proof (dispatch_app w (b :: rest) (mkLocals bc0 stk 0)) as Happ.
  unfold advance at 1 in Happ. simpl in Happ. rewrite Nat.add_0_r in Happ.
  rewrite Hd in Happ. simpl in Happ.
  rewrite (returns_step _ _ _ _ Happ), returns_app.
  change (b :: rest) with ([b] ++ rest).
  change 1 with (length [b] + 0).
  rewrite <- resume_app. apply returns_app.
Qed.

Lemma returns_at_cursor pre ops bc0 stk bc :
  0 < length ops ->
  returns (pre ++ ops) (Dispatch (mkLocals bc0 stk (length pre))) bc
  <-> returns ops (resume ops bc0 stk 0) bc.
Proof.
  intros Hlen. rewrite <- (returns_app pre ops).
  rewrite resume_app, Nat.add_0_r, resume_Dispatch; [done|].
  rewrite length_app. lia.
Qed.

Lemma comments_after_barrier (w : buffer) b cs post bc :
  is_barrier b -> Forall is_comment cs ->
  compiles_to (w ++ b :: cs ++ post) bc <-> compiles_to (w ++ b :: post) bc.
Proof.
  intros Hb Hcs.
  assert (Htail : forall bc0 stk bc,
    returns (w ++ b :: cs ++ post) (Dispatch (mkLocals bc0 stk (length w))) bc
    <-> returns (w ++ b :: post) (Dispatch (mkLocals bc0 stk (length w))) bc).
  { intros bc0 stk bc'.
    destruct (returns_on_barrier w b bc0 stk Hb) as [bc1 H1].
    by rewrite !H1, returns_comments. }
  rewrite !compiles_to_returns.
  rewrite !resume_Dispatch by (rewrite length_app; simpl; lia).
  split; intros [fuel H].
  - eapply (returns_before_barrier w b (cs ++ post) b post); eauto; [|lia].
    intros ???. by apply Htail.
  - eapply (returns_before_barrier w b post b (cs ++ post)); eauto; [|lia].
    intros ???. by apply Htail.
Qed.

Lemma comments_before_barrier (pre : buffer) b cs post bc :
  is_barrier b -> Forall is_comment cs ->
  compiles_to (pre ++ cs ++ b :: post) bc
  <-> compiles_to (pre ++ b :: post) bc.
Proof.
  intros Hb Hcs. destruct Hcs as [|x cs Hx Hcs]; [done|].
  assert (Htail : forall bc0 stk bc,
    returns (pre ++ x :: cs ++ b :: post)
      (Dispatch (mkLocals bc0 stk (length pre))) bc
    <-> returns (pre ++ b :: post)
          (Dispatch (mkLocals bc0 stk (length pre))) bc).
  { intros bc0 stk bc'.
    rewrite !returns_at_cursor by (simpl; lia).
    apply (returns_comments (x :: cs)). by constructor. }
  rewrite !compiles_to_returns.
  rewrite !resume_Dispatch by (rewrite length_app; simpl; lia).
  pose proof (is_comment_barrier x Hx) as Hbx.
  split; intros [fuel H].
  - eapply (returns_before_barrier pre x (cs ++ b :: post) b post);
      eauto; [|lia].
    intros ???. by apply Htail.
  - eapply (returns_before_barrier pre b post x (cs ++ b :: post));
      eauto; [|lia].
    intros ???. by apply Htail.
Qed.

End Comments.

(** Comment bytes at the start of the buffer, or directly after or
    before a byte that is not one of `> < + - [ ]`, leave the result of
    [compile] as it was: the buffer with the inserted bytes returns a
    sequence exactly when the buffer without them does, and it is the
    same sequence. *)
Lemma comments_next_to_barrier (pre cs post : buffer)
  (bc : list Instruction) :
  Forall is_comment cs ->
  pre = [] \/ (exists b, last pre = Some b /\ is_barrier b)
  \/ (exists b, head post = Some b /\ is_barrier b) ->
  compiles_to (pre ++ cs ++ post) bc <-> compiles_to (pre ++ post) bc.
Proof.
  intros Hcs [->|[(b & Hlast & Hb)|(b & Hhead & Hb)]].
  - simpl. rewrite !compiles_to_returns. by apply returns_comments.
  - apply last_Some in Hlast as [w ->]. rewrite <- !app_assoc. simpl.
    by apply comments_after_barrier.
  - destruct post as [|b' post]; [done|]. injection Hhead as ->.
    by apply comments_before_barrier.
Qed.

(** * Further properties *)

(** ** Head motion and cell arithmetic *)

Section TapeLaws.

Import TwoEndedTape DirectThreadingInterpreter.
Open Scope Z_scope.

Lemma set_position_id tp : set_position (position tp) tp = tp.
Proof. by destruct tp. Qed.

Lemma set_position_set_position p q tp :
  set_position p (set_position q tp) = set_position p tp.
Proof. done. Qed.

Lemma write_write u v tp : write v (write u tp) = write v tp.
Proof.
  unfold write, on_right, right_index, left_index.
  destruct (bool_decide (position tp >= TAPE_SIZE)) eqn:E; simpl;
    rewrite E; unfold set_right, set_left; simpl;
    by rewrite list_insert_insert_eq.
Qed.

(** X1: on a well-formed tape and for [n <= 2 * TAPE_SIZE], a move right
    by [n] followed by a move left by [n] gives back the tape it started
    from when the first move is within the tape, and otherwise fails with
    "Tape overflow" on the unchanged tape; likewise left then right, with
    "Tape underflow". *)
Theorem moves_undo_each_other (tp : TwoEndedTape.t) (n : Z) :
  wf tp -> 0 <= n <= 2 * TAPE_SIZE ->
  (moveRightBy n ≫= λ _, moveLeftBy n) tp
  = (if decide (offset tp + n <= TAPE_SIZE - 1) then Ok () tp
     else Throw "Tape overflow" tp) /\
  (moveLeftBy n ≫= λ _, moveRightBy n) tp
  = (if decide (offset tp - n >= - TAPE_SIZE) then Ok () tp
     else Throw "Tape underflow" tp).
Proof.
  intros Hwf Hn. pose proof Hwf as [Hr Hl Hp]. split.
  - unfold mbind, M_bind. rewrite moveRightBy_in_range by done.
    case_decide as Ho; [|done]. unfold offset, TAPE_SIZE in *.
    rewrite moveLeftBy_spec;
      [|apply wf_set_position; [done|unfold TAPE_SIZE; lia]|lia].
    rewrite decide_True by (unfold offset, TAPE_SIZE; simpl; lia).
    simpl. replace (position tp + n - n) with (position tp) by lia.
    by rewrite set_position_set_position, set_position_id.
  - unfold mbind, M_bind. rewrite moveLeftBy_spec by (done || lia).
    case_decide as Ho; [|done]. unfold offset, TAPE_SIZE in *.
    rewrite moveRightBy_in_range;
      [|apply wf_set_position; [done|unfold TAPE_SIZE; lia]
       |unfold TAPE_SIZE; lia].
    rewrite decide_True by (unfold offset, TAPE_SIZE; simpl; lia).
    simpl. replace (position tp - n + n) with (position tp) by lia.
    by rewrite set_position_set_position, set_position_id.
Qed.

Lemma moves_undo_each_other_witness :
  (moveRightBy 7 ≫= λ _, moveLeftBy 7) init
  = (if decide (offset init + 7 <= TAPE_SIZE - 1) then Ok () init
     else Throw "Tape overflow" init) /\
  (moveLeftBy 7 ≫= λ _, moveRightBy 7) init
  = (if decide (offset init - 7 >= - TAPE_SIZE) then Ok () init
     else Throw "Tape underflow" init).
Proof.
  apply moves_undo_each_other; [apply wf_init|unfold TAPE_SIZE; lia].
Defined.

(** X2: on a well-formed tape, two additions to the cell under the head
    are the addition of the sum, and an addition stores [(c + x) mod 256]
    under the head and changes nothing else. *)
Theorem add_composes (tp : TwoEndedTape.t) (x y : Z) :
  wf tp ->
  (add x ≫= λ _, add y) tp = add (x + y) tp /\
  exists c, cell tp (offset tp) = Some c /\
    add x tp = Ok () (write ((c + x) mod 256) tp) /\
    forall o, cell (write ((c + x) mod 256) tp) o
              = if decide (o = offset tp) then Some ((c + x) mod 256)
                else cell tp o.
Proof.
  intros Hwf. destruct (get_curr_wf tp Hwf) as (c & Hc & _).
  split.
  - unfold mbind, M_bind. rewrite (add_wf tp x c), (add_wf tp (x + y) c) by done.
    rewrite (add_wf _ y (to_uint8 (c + x))).
    + rewrite write_write. do 2 f_equal. unfold to_uint8.
      rewrite Zplus_mod_idemp_l. f_equal. lia.
    + by apply wf_write.
    + rewrite cell_write by done. unfold offset.
      by rewrite position_write, decide_True.
  - exists c. split; [done|]. split; [by apply add_wf|].
    intros o. by apply cell_write.
Qed.

Lemma add_composes_witness :
  (add 200 ≫= λ _, add 100) init = add (200 + 100) init /\
  exists c, cell init (offset init) = Some c /\
    add 200 init = Ok () (write ((c + 200) mod 256) init) /\
    forall o, cell (write ((c + 200) mod 256) init) o
              = if decide (o = offset init) then Some ((c + 200) mod 256)
                else cell init o.
Proof. apply add_composes, wf_init. Defined.

(** X3: on a well-formed tape, storing [v] under the head and reading it
    back gives [v]; the head stays, every other cell keeps its value, and
    reading changes nothing. *)
Theorem set_then_get (tp : TwoEndedTape.t) (v : Z) :
  wf tp ->
  (set_curr v ≫= λ _, get_curr) tp = Ok v (write v tp) /\
  offset (write v tp) = offset tp /\
  (forall o, o <> offset tp -> cell (write v tp) o = cell tp o) /\
  wf (write v tp).
Proof.
  intros Hwf. split; [|split; [|split]].
  - unfold mbind, M_bind. rewrite set_curr_wf by done.
    destruct (get_curr_wf (write v tp)) as (c & Hc & ->); [by apply wf_write|].
    rewrite cell_write in Hc by done. unfold offset in Hc.
    rewrite position_write, decide_True in Hc by done. congruence.
  - unfold offset. by rewrite position_write.
  - intros o Ho. rewrite cell_write by done. by rewrite decide_False.
  - by apply wf_write.
Qed.

Lemma set_then_get_witness :
  (set_curr 42 ≫= λ _, get_curr) init = Ok 42 (write 42 init) /\
  offset (write 42 init) = offset init /\
  (forall o, o <> offset init -> cell (write 42 init) o = cell init o) /\
  wf (write 42 init).
Proof. apply set_then_get, wf_init. Defined.

End TapeLaws.

(** ** The interpreter stays within defined behaviour *)

Section Safety.

Import TwoEndedTape DirectThreadingInterpreter.
Open Scope Z_scope.

Lemma safe_ret {A} (a : A) : safe (mret a).
Proof. intros st Hwf. done. Qed.

Lemma safe_bind {A B} (m : M machine A) (k : A -> M machine B) :
  safe m -> (forall a, safe (k a)) -> safe (m ≫= k).
Proof.
  intros Hm Hk st Hwf. specialize (Hm st Hwf). unfold mbind, M_bind.
  destruct (m st) as [a st'| | |]; try done. by apply Hk.
Qed.

Lemma safe_on_tape {A} (m : M TwoEndedTape.t A) :
  (forall tp, wf tp ->
     match m tp with
     | Ok _ tp' => wf tp'
     | Undefined _ => False
     | _ => True
     end) ->
  safe (on_tape m).
Proof.
  intros Hm st Hwf. specialize (Hm _ Hwf). unfold on_tape.
  by destruct (m (tape st)).
Qed.

Lemma safe_get_curr : safe (on_tape get_curr).
Proof.
  apply safe_on_tape. intros tp Hwf.
  by destruct (get_curr_wf tp Hwf) as (c & _ & ->).
Qed.

Lemma safe_set_curr v : safe (on_tape (set_curr v)).
Proof.
  apply safe_on_tape. intros tp Hwf. rewrite set_curr_wf by done.
  by apply wf_write.
Qed.

Lemma safe_add x : safe (on_tape (add x)).
Proof.
  apply safe_on_tape. intros tp Hwf.
  destruct (get_curr_wf tp Hwf) as (c & Hc & _).
  rewrite (add_wf tp x c) by done. by apply wf_write.
Qed.

Lemma safe_moveLeftBy n : 0 <= n -> safe (on_tape (moveLeftBy n)).
Proof.
  intros Hn. apply safe_on_tape. intros tp Hwf.
  rewrite moveLeftBy_spec by done. case_decide as Ho; [|done].
  destruct Hwf as [? ? ?]. apply wf_set_position; [done|].
  unfold offset in Ho. lia.
Qed.

Lemma safe_moveRightBy n :
  0 <= n <= 2 * TAPE_SIZE -> safe (on_tape (moveRightBy n)).
Proof.
  intros Hn. apply safe_on_tape. intros tp Hwf.
  rewrite moveRightBy_in_range by done. case_decide as Ho; [|done].
  destruct Hwf as [? ? ?]. apply wf_set_position; [done|].
  unfold offset in Ho. lia.
Qed.

Lemma safe_scan_right_loop fuel : safe (scan_right_loop fuel).
Proof.
  induction fuel as [|fuel IH]; [done|]. cbn [scan_right_loop].
  apply safe_bind; [apply safe_get_curr|]. intros c.
  case_decide; [|apply safe_ret].
  apply safe_bind; [|done].
  apply safe_moveRightBy. unfold TAPE_SIZE. lia.
Qed.

Lemma safe_scan_left_loop fuel : safe (scan_left_loop fuel).
Proof.
  induction fuel as [|fuel IH]; [done|]. cbn [scan_left_loop].
  apply safe_bind; [apply safe_get_curr|]. intros c.
  case_decide; [|apply safe_ret].
  apply safe_bind; [|done]. apply safe_moveLeftBy. lia.
Qed.

Lemma to_uint16_nonneg n : 0 <= to_uint16 n.
Proof. unfold to_uint16. apply Z.mod_pos_bound. lia. Qed.

Lemma safe_handler fuel ins :
  (op ins = MV_POS ->
   value ins < 0 \/ to_uint16 (value ins) <= 2 * TAPE_SIZE) ->
  safe (handler fuel ins).
Proof.
  intros Hmove. unfold handler. destruct (op ins) eqn:Eop.
  - apply safe_bind; [apply safe_get_curr|]. by intros c st Hwf.
  - apply safe_bind.
    + intros st Hwf. unfold cin_get. by destruct (cin st).
    + intros c. apply safe_set_curr.
  - apply safe_bind; [apply safe_get_curr|]. intros c.
    case_decide; [by intros st Hwf|apply safe_ret].
  - apply safe_bind; [apply safe_get_curr|]. intros c.
    case_decide; [by intros st Hwf|apply safe_ret].
  - apply safe_set_curr.
  - apply safe_add.
  - unfold do_mv_pos. case_decide as Hv.
    + apply safe_moveRightBy. split; [apply to_uint16_nonneg|].
      destruct Hmove as [?|?]; [done|lia|done].
    + apply safe_moveLeftBy, to_uint16_nonneg.
  - unfold do_add_to_next.
    apply safe_bind; [apply safe_get_curr|]. intros c.
    apply safe_bind; [apply safe_set_curr|]. intros _.
    apply safe_bind; [apply safe_moveRightBy; unfold TAPE_SIZE; lia|].
    intros _. apply safe_bind; [apply safe_add|]. intros _.
    apply safe_moveLeftBy. lia.
  - unfold do_multiply_mv.
    apply safe_bind; [apply safe_get_curr|]. intros c.
    apply safe_bind; [apply safe_set_curr|]. intros _.
    apply safe_bind; [apply safe_moveRightBy; unfold TAPE_SIZE; lia|].
    intros _. apply safe_bind; [apply safe_add|]. intros _.
    apply safe_moveLeftBy. lia.
  - apply safe_set_curr.
  - apply safe_scan_right_loop.
  - apply safe_scan_left_loop.
Qed.

Lemma dispatch_loop_defined fuel bytecode st u :
  moves_in_range bytecode -> wf (tape st) ->
  0 <= pc st < Z.of_nat (length bytecode) ->
  dispatch_loop fuel bytecode st <> Undefined u.
Proof.
  intros Hmoves. revert st.
  induction fuel as [|fuel IH]; intros st Hwf Hpc; [done|].
  cbn [dispatch_loop]. unfold DISPATCH, fetch, mbind, M_bind.
  destruct (lookup_lt_is_Some_2 bytecode (Z.to_nat (pc st)) ltac:(lia))
    as [ins Hins].
  rewrite Hins.
  assert (Hsafe : safe (handler fuel ins)).
  { apply safe_handler. intros Hop. apply Hmoves; [|done].
    by eapply list_elem_of_lookup_2. }
  specialize (Hsafe st Hwf).
  destruct (handler fuel ins st) as [[] mid| | |]; try done.
  unfold NEXT. case_bool_decide as Hnext; [|done].
  apply IH; [done|]. simpl. split; [|done].
  apply Z.mod_pos_bound. lia.
Qed.

(** X4: when no MV_POS of the sequence has an operand above
    [2 * TAPE_SIZE], interpretation never leaves defined behaviour: no
    cell outside the two arrays is read or written and no instruction
    outside the sequence is fetched, however long it runs. *)
Theorem interprete_defined (fuel : nat) (bytecode : list Instruction)
  (input : list Z) (u : undefined) :
  moves_in_range bytecode ->
  interprete fuel bytecode input <> Undefined u.
Proof.
  intros Hmoves. unfold interprete.
  destruct bytecode as [|ins bytecode]; [done|].
  apply dispatch_loop_defined; [done|apply wf_init|simpl; lia].
Qed.

Lemma interprete_defined_witness :
  interprete 100 [mkInstruction MV_POS 0 (-3); mkInstruction ADD_VAL 0 1;
                  mkInstruction MV_POS 0 40000; mkInstruction OUTPUT 0 0] []
  <> Undefined TapeIndexOutOfRange.
Proof.
  apply interprete_defined. intros ins Hin Hop.
  repeat (apply elem_of_cons in Hin as [->|Hin];
          [first [by left | right; vm_compute; discriminate
                 | discriminate Hop]|]).
  inversion Hin.
Defined.

End Safety.

(** ** The scan loops *)

Section Scans.

Import TwoEndedTape DirectThreadingInterpreter.
Open Scope Z_scope.






End Scans.

(** ** Reads of the pattern checks *)

Section Bounds.

(** Resolves the read of [ops[k]] for a [k] below the length. *)
Ltac read_at ops k :=
  let c := fresh "c" in
  let H := fresh "H" in
  destruct (lookup_lt_is_Some_2 ops k ltac:(lia)) as [c H];
  unfold rd_eq, rd_ne, rd; rewrite ?H.

Ltac settle :=
  simpl; repeat (destruct (Ascii.eqb _ _); simpl); eauto.

Lemma is_set_zero_pattern_Got ops pos :
  exists v, is_set_zero_pattern ops pos = Got v.
Proof.
  unfold is_set_zero_pattern. case_decide; [eauto|].
  read_at ops pos. read_at ops (pos + 1). read_at ops (pos + 2). settle.
Qed.

Lemma is_scan_pattern_Got ops pos :
  exists p, is_scan_pattern ops pos = Got p.
Proof.
  unfold is_scan_pattern. case_decide; [eauto|].
  read_at ops pos. read_at ops (pos + 1). read_at ops (pos + 2). settle.
Qed.

Lemma sign_loop_Got fuel ops i acc :
  exists m j, sign_loop fuel ops i acc = Got (m, j) /\ i <= j /\
              (i <= length ops -> j <= length ops).
Proof.
  revert i acc. induction fuel as [|fuel IH]; intros i acc; simpl; [eauto|].
  case_bool_decide as Hi; simpl; [|eauto].
  read_at ops i. simpl.
  destruct (Ascii.eqb c "+"); simpl.
  - destruct (IH (i + 1) (acc + 1)%Z) as (m & j & -> & ? & ?).
    exists m, j. split; [done|]. split; lia.
  - destruct (Ascii.eqb c "-"); simpl; [|eauto].
    destruct (IH (i + 1) (acc + -1)%Z) as (m & j & -> & ? & ?).
    exists m, j. split; [done|]. split; lia.
Qed.

Lemma is_set_value_pattern_Got ops pos :
  exists p, is_set_value_pattern ops pos = Got p /\
    (found p = true ->
     3 <= len_of_pattern p /\ pos + len_of_pattern p <= length ops).
Proof.
  unfold is_set_value_pattern. case_decide; [by eexists|].
  read_at ops pos. read_at ops (pos + 1). read_at ops (pos + 2). simpl.
  destruct (Ascii.eqb c "["); simpl; [|by eexists].
  destruct (Ascii.eqb c0 "-"); simpl; [|by eexists].
  destruct (Ascii.eqb c1 "]"); simpl; [|by eexists].
  destruct (sign_loop_Got (length ops - (pos + 3)) ops (pos + 3) 0)
    as (m & j & -> & ? & ?).
  simpl. case_decide; eexists; (split; [done|]); [|done].
  simpl. lia.
Qed.

Lemma is_multiply_move_pattern_Got ops pos :
  exists p, is_multiply_move_pattern ops pos = Got p /\
    (found p = true ->
     5 <= len_of_pattern p /\ pos + len_of_pattern p <= length ops).
Proof.
  unfold is_multiply_move_pattern.
  case_bool_decide; simpl; [by eexists|].
  read_at ops pos. read_at ops (pos + 1). read_at ops (pos + 2).
  read_at ops (pos + 3). simpl.
  destruct (Ascii.eqb c "["); simpl; [|by eexists].
  destruct (Ascii.eqb c0 "-"); simpl; [|by eexists].
  destruct (Ascii.eqb c1 ">"); simpl; [|by eexists].
  assert (Htail : exists p,
    (sign_loop (length ops - (pos + 3)) ops (pos + 3) 0
     ≫= λ '(multiplier, i),
          Got (bool_decide (i >= length ops))
          ||| (x ← match ops !! i with
                   | Some c => Got c
                   | None => OutOfRange i
                   end; Got (negb (Ascii.eqb x "<")))
          ||| Got (bool_decide (i + 1 >= length ops))
          ||| (x ← match ops !! (i + 1) with
                   | Some c => Got c
                   | None => OutOfRange (i + 1)
                   end; Got (negb (Ascii.eqb x "]")))
          ≫= λ reject' : bool,
               if reject' then Got no_pattern
               else Got (mkPattern true multiplier (i + 2 - pos)))
    = Got p /\
    (found p = true ->
     5 <= len_of_pattern p /\ pos + len_of_pattern p <= length ops)).
  { destruct (sign_loop_Got (length ops - (pos + 3)) ops (pos + 3) 0)
      as (m & j & -> & ? & ?).
    simpl. case_bool_decide; simpl; [by eexists|].
    destruct (lookup_lt_is_Some_2 ops j ltac:(lia)) as [x ->]. simpl.
    destruct (Ascii.eqb x "<"); simpl; [|by eexists].
    case_bool_decide; simpl; [by eexists|].
    destruct (lookup_lt_is_Some_2 ops (j + 1) ltac:(lia)) as [y ->]. simpl.
    destruct (Ascii.eqb y "]"); simpl; [|by eexists].
    eexists. split; [done|]. simpl. lia. }
  destruct (Ascii.eqb c2 "+"); simpl; [done|].
  destruct (Ascii.eqb c2 "-"); simpl; [done|by eexists].
Qed.

Lemma count_loop_Got fuel ops start target count :
  exists n, count_loop fuel ops start target count = Got n /\ count <= n /\
            (start + count <= length ops -> start + n <= length ops).
Proof.
  revert count. induction fuel as [|fuel IH]; intros count; simpl; [eauto|].
  case_bool_decide; simpl; [|eauto].
  read_at ops (start + count). simpl.
  destruct (Ascii.eqb c target); [|eauto].
  destruct (IH (count + 1)) as (n & -> & ? & ?).
  exists n. split; [done|]. split; lia.
Qed.

(** X7: [is_set_zero_pattern], [is_scan_pattern],
    [is_multiply_move_pattern], [is_set_value_pattern] and
    [count_repeated_chars] read the buffer only at indices below its
    length, for every buffer and every cursor, and a pattern they report
    lies within the buffer; the count of [count_repeated_chars] is at
    least 1. *)
Theorem pattern_checks_stay_in_bounds (ops : buffer) (pos : nat)
  (target : ascii) :
  (exists v, is_set_zero_pattern ops pos = Got v) /\
  (exists p, is_scan_pattern ops pos = Got p) /\
  (exists p, is_multiply_move_pattern ops pos = Got p /\
     (found p = true ->
      5 <= len_of_pattern p /\ pos + len_of_pattern p <= length ops)) /\
  (exists p, is_set_value_pattern ops pos = Got p /\
     (found p = true ->
      3 <= len_of_pattern p /\ pos + len_of_pattern p <= length ops)) /\
  (exists n, count_repeated_chars ops pos target = Got n /\ 1 <= n /\
     (pos < length ops -> pos + n <= length ops)).
Proof.
  split; [apply is_set_zero_pattern_Got|].
  split; [apply is_scan_pattern_Got|].
  split; [apply is_multiply_move_pattern_Got|].
  split; [apply is_set_value_pattern_Got|].
  destruct (count_loop_Got (length ops - pos) ops pos target 1)
    as (n & Hn & ? & ?).
  exists n. split; [done|]. split; [done|]. lia.
Qed.

Lemma is_add_to_next_pattern_cases ops pos :
  (exists v, is_add_to_next_pattern ops pos = Got v /\
             (v = true -> pos + 6 <= length ops)) \/
  (is_add_to_next_pattern ops pos = OutOfRange (length ops) /\
   ends_in_open_add_to_next ops).
Proof.
  unfold is_add_to_next_pattern. case_decide; [left; by eexists|].
  destruct (lookup_lt_is_Some_2 ops pos ltac:(lia)) as [c0 H0].
  destruct (lookup_lt_is_Some_2 ops (pos + 1) ltac:(lia)) as [c1 H1].
  destruct (lookup_lt_is_Some_2 ops (pos + 2) ltac:(lia)) as [c2 H2].
  destruct (lookup_lt_is_Some_2 ops (pos + 3) ltac:(lia)) as [c3 H3].
  destruct (lookup_lt_is_Some_2 ops (pos + 4) ltac:(lia)) as [c4 H4].
  unfold rd_eq, rd. rewrite H0, H1, H2, H3, H4. simpl.
  destruct (Ascii.eqb_spec c0 "[") as [->|]; simpl; [|left; by eexists].
  destruct (Ascii.eqb_spec c1 "-") as [->|]; simpl; [|left; by eexists].
  destruct (Ascii.eqb_spec c2 ">") as [->|]; simpl; [|left; by eexists].
  destruct (Ascii.eqb_spec c3 "+") as [->|]; simpl; [|left; by eexists].
  destruct (Ascii.eqb_spec c4 "<") as [->|]; simpl; [|left; by eexists].
  destruct (ops !! (pos + 5)) as [c5|] eqn:H5; simpl.
  - left. eexists. split; [done|]. intros _.
    apply lookup_lt_Some in H5. lia.
  - right. apply lookup_ge_None in H5.
    assert (Hlen : length ops = pos + 5) by lia.
    split; [by rewrite Hlen|].
    exists (take pos ops). rewrite <- (take_drop pos ops) at 1. f_equal.
    apply list_eq. intros k. rewrite lookup_drop.
    do 5 (destruct k as [|k];
          [rewrite ?Nat.add_0_r; simpl; congruence|]).
    simpl. rewrite lookup_ge_None_2 by lia. done.
Qed.

(** One dispatch with the cursor inside the buffer: the cursor stays
    inside the buffer when control comes back to the dispatcher, it has
    moved when the buffer is shorter than 65536 bytes, and a read outside
    the buffer is the one of the add-to-next check at the very end. *)
Lemma dispatch_progress ops s :
  i s < length ops ->
  match dispatch ops s with
  | Got (Dispatch s') =>
      i s' < length ops /\
      ((Z.of_nat (length ops) < 65536)%Z -> i s < i s')
  | Got (Return _) => True
  | OutOfRange k => k = length ops /\ ends_in_open_add_to_next ops
  end.
Proof.
  intros Hi.
  assert (Hnext : forall bc stk n, 1 <= n ->
    match NEXT_CHAR_N ops bc stk (i s) n with
    | Dispatch s' =>
        i s' < length ops /\
        ((Z.of_nat (length ops) < 65536)%Z -> i s < i s')
    | Return _ => True
    end).
  { intros bc stk n Hn. unfold NEXT_CHAR_N. case_decide; [|done].
    simpl. split; [done|lia]. }
  assert (Hrun : forall target o negate,
    match parse_run ops s target o negate with
    | Got (Dispatch s') =>
        i s' < length ops /\
        ((Z.of_nat (length ops) < 65536)%Z -> i s < i s')
    | Got (Return _) => True
    | OutOfRange k => k = length ops /\ ends_in_open_add_to_next ops
    end).
  { intros target o negate. unfold parse_run, count_repeated_chars.
    destruct (count_loop_Got (length ops - i s) ops (i s) target 1)
      as (n & -> & Hn1 & Hn2).
    simpl. unfold NEXT_CHAR_N. case_decide; [|done]. simpl.
    split; [done|]. intros Hshort.
    unfold to_uint16. rewrite Z.mod_small by lia. lia. }
  rewrite dispatch_body.
  destruct (lookup_lt_is_Some_2 ops (i s) Hi) as [c Hc].
  unfold rd. rewrite Hc. simpl.
  destruct (dispatch_table c); simpl; try apply Hrun;
    try (unfold parse_output, parse_input, parse_unknown, NEXT_CHAR;
         apply Hnext; lia).
  - unfold parse_jmp_fwd, NEXT_CHAR.
    destruct (is_set_value_pattern_Got ops (i s)) as (p1 & -> & Hp1).
    simpl. destruct (found p1).
    { apply Hnext. destruct Hp1; [done|lia]. }
    destruct (is_set_zero_pattern_Got ops (i s)) as (v2 & ->). simpl.
    destruct v2; [apply Hnext; lia|].
    destruct (is_scan_pattern_Got ops (i s)) as (p3 & ->). simpl.
    destruct (is_add_to_next_pattern_cases ops (i s))
      as [(v4 & -> & _)|[-> Hend]]; simpl; [|done].
    destruct v4; [apply Hnext; lia|].
    destruct (is_multiply_move_pattern_Got ops (i s)) as (p5 & -> & Hp5).
    simpl. destruct (found p5).
    { apply Hnext. destruct Hp5; [done|lia]. }
    apply Hnext. lia.
  - unfold parse_jmp_back, NEXT_CHAR.
    destruct (loop_stack s); apply Hnext; lia.
Qed.

Lemma run_out_of_range fuel ops s k :
  i s < length ops -> run fuel ops s = ReadOutOfRange k ->
  k = length ops /\ ends_in_open_add_to_next ops.
Proof.
  revert s. induction fuel as [|fuel IH]; intros s Hi; [done|]. simpl.
  pose proof (dispatch_progress ops s Hi) as Hd.
  destruct (dispatch ops s) as [[s'|bc]|k']; [| done |].
  - apply IH. tauto.
  - by intros [= <-].
Qed.

Lemma run_enough_fuel fuel ops s :
  (Z.of_nat (length ops) < 65536)%Z -> i s < length ops ->
  length ops - i s <= fuel -> run fuel ops s <> OutOfFuel.
Proof.
  intros Hshort. revert s.
  induction fuel as [|fuel IH]; intros s Hi Hfuel; [lia|]. simpl.
  pose proof (dispatch_progress ops s Hi) as Hd.
  destruct (dispatch ops s) as [[s'|bc]|k']; [| done | done].
  destruct Hd as [Hi' Hadv]. specialize (Hadv Hshort).
  apply IH; [done|lia].
Qed.

(** X8: the compiler reads outside its buffer in one situation only: the
    buffer ends in `[->+<`, and the read is at index [length ops], one
    past the last byte. *)
Theorem compile_out_of_range_only_at_the_end (fuel : nat) (ops : buffer)
  (k : nat) :
  compile_fuel fuel ops = ReadOutOfRange k ->
  k = length ops /\ ends_in_open_add_to_next ops.
Proof.
  unfold compile_fuel. destruct ops as [|c ops]; [done|].
  apply run_out_of_range. simpl. lia.
Qed.

Lemma compile_out_of_range_only_at_the_end_witness :
  compile_fuel 1 (src "[->+<") = ReadOutOfRange 5 /\
  5 = length (src "[->+<") /\ ends_in_open_add_to_next (src "[->+<").
Proof.
  split; [reflexivity|].
  apply (compile_out_of_range_only_at_the_end 1). reflexivity.
Defined.

(** X9: on a buffer shorter than 65536 bytes that does not end in
    `[->+<`, [compile] returns an instruction sequence after at most one
    dispatch per byte. *)
Theorem compile_returns_on_short_buffers (ops : buffer) :
  (Z.of_nat (length ops) < 65536)%Z ->
  ~ ends_in_open_add_to_next ops ->
  exists bc, compile ops = Returned bc.
Proof.
  intros Hshort Hend. unfold compile.
  destruct (compile_fuel (length ops) ops) as [bc|k|] eqn:E.
  - by exists bc.
  - exfalso. unfold compile_fuel in E. destruct ops as [|c ops]; [done|].
    apply run_out_of_range in E; [tauto|simpl; lia].
  - exfalso. unfold compile_fuel in E. destruct ops as [|c ops]; [done|].
    revert E. apply run_enough_fuel; simpl; [done|lia|lia].
Qed.

Lemma compile_returns_on_short_buffers_witness :
  exists bc, compile (src "+[>[-]<-].") = Returned bc.
Proof.
  apply compile_returns_on_short_buffers; [simpl; lia|].
  intros [pre E]. apply (f_equal (fun l => last l)) in E.
  rewrite last_app in E. vm_compute in E. discriminate.
Defined.

End Bounds.

(** ** Operands and targets of compiled code *)

Section Operands.

Lemma sign_loop_sum fuel ops i acc m j :
  sign_loop fuel ops i acc = Got (m, j) ->
  (Z.abs (m - acc) <= Z.of_nat (j - i))%Z /\ i <= j.
Proof.
  revert i acc. induction fuel as [|fuel IH]; intros i acc; simpl.
  { intros [= <- <-]. lia. }
  case_bool_decide as Hi; simpl; [|intros [= <- <-]; lia].
  destruct (lookup_lt_is_Some_2 ops i Hi) as [c Hc].
  unfold rd_eq, rd. rewrite Hc. simpl.
  destruct (Ascii.eqb c "+"); simpl.
  - intros H. apply IH in H. lia.
  - destruct (Ascii.eqb c "-"); simpl; [|intros [= <- <-]; lia].
    intros H. apply IH in H. lia.
Qed.

Lemma is_set_value_pattern_val ops pos p :
  is_set_value_pattern ops pos = Got p ->
  (Z.abs (val p) <= Z.of_nat (length ops))%Z.
Proof.
  unfold is_set_value_pattern. case_decide; [intros [= <-]; simpl; lia|].
  destruct (rd_ne ops pos "[" ||| rd_ne ops (pos + 1) "-" |||
            rd_ne ops (pos + 2) "]") as [[]|]; simpl;
    [intros [= <-]; simpl; lia| |done].
  destruct (sign_loop _ _ _ _) as [[m j]|] eqn:E; simpl; [|done].
  pose proof (sign_loop_Got (length ops - (pos + 3)) ops (pos + 3) 0)
    as (m' & j' & E' & ? & ?).
  rewrite E in E'. injection E' as <- <-.
  apply sign_loop_sum in E.
  case_decide; intros [= <-]; simpl; lia.
Qed.

Lemma is_multiply_move_pattern_val ops pos p :
  is_multiply_move_pattern ops pos = Got p ->
  (Z.abs (val p) <= Z.of_nat (length ops))%Z.
Proof.
  unfold is_multiply_move_pattern.
  destruct (Got (bool_decide (pos + 4 >= length ops)) ||| _ ||| _ ||| _ ||| _)
    as [[]|]; simpl; [intros [= <-]; simpl; lia| |done].
  destruct (sign_loop _ _ _ _) as [[m j]|] eqn:E; simpl; [|done].
  assert (Hm : (Z.abs m <= Z.of_nat (length ops))%Z).
  { destruct (decide (pos + 3 <= length ops)) as [Hin|Hout].
    - pose proof (sign_loop_Got (length ops - (pos + 3)) ops (pos + 3) 0)
        as (m' & j' & E' & ? & ?).
      rewrite E in E'. injection E' as <- <-.
      apply sign_loop_sum in E. lia.
    - replace (length ops - (pos + 3)) with 0 in E by lia.
      injection E as <- <-. lia. }
  match goal with
  | |- (?a ≫= _) = _ -> _ => destruct a as [[]|]; simpl
  end; [intros [= <-]; simpl; lia| |done].
  by intros [= <-].
Qed.

Lemma plain_push len bc ins :
  Forall (plain_operand len) bc -> plain_operand len ins ->
  Forall (plain_operand len) (bc ++ [ins]).
Proof. intros. apply Forall_app. split; [done|]. by constructor. Qed.

Lemma emitted_NEXT_CHAR_N ops bc stk i n :
  emitted (NEXT_CHAR_N ops bc stk i n) = bc.
Proof. unfold NEXT_CHAR_N. by case_decide. Qed.

Lemma plain_body l ops s c :
  i s < length ops ->
  linking (bytecode s) (loop_stack s) ->
  Forall (plain_operand (length ops)) (bytecode s) ->
  body l ops s = Got c ->
  Forall (plain_operand (length ops)) (emitted c).
Proof.
  intros Hi L HP.
  assert (Hzero : forall o, is_jump o = false ->
            plain_operand (length ops) (mkInstruction o 0 0)).
  { intros o Ho. split; simpl; [lia|done]. }
  assert (Hrun : forall target o negate,
    is_jump o = false -> parse_run ops s target o negate = Got c ->
    Forall (plain_operand (length ops)) (emitted c)).
  { intros target o negate Ho. unfold parse_run, count_repeated_chars.
    destruct (count_loop_Got (length ops - i s) ops (i s) target 1)
      as (n & -> & Hn1 & Hn2).
    simpl. intros [= <-]. rewrite emitted_NEXT_CHAR_N.
    apply plain_push; [done|]. split; simpl; [|done]. unfold to_uint16.
    pose proof (Z.mod_pos_bound (Z.of_nat n) 65536 ltac:(lia)).
    pose proof (Z.mod_le (Z.of_nat n) 65536 ltac:(lia) ltac:(lia)).
    destruct negate; lia. }
  destruct l; simpl; try (by apply Hrun).
  - intros [= <-]. unfold NEXT_CHAR. rewrite emitted_NEXT_CHAR_N.
    apply plain_push; auto.
  - intros [= <-]. unfold NEXT_CHAR. rewrite emitted_NEXT_CHAR_N.
    apply plain_push; auto.
  - unfold parse_jmp_fwd.
    destruct (is_set_value_pattern ops (i s)) as [p1|] eqn:E1; simpl;
      [|done].
    destruct (found p1).
    { intros [= <-]. rewrite emitted_NEXT_CHAR_N. apply plain_push; [done|].
      split; simpl; [by eapply is_set_value_pattern_val|done]. }
    destruct (is_set_zero_pattern _ _) as [[]|]; simpl; [| |done].
    { intros [= <-]. rewrite emitted_NEXT_CHAR_N. apply plain_push; auto. }
    destruct (is_scan_pattern _ _) as [p2|]; simpl; [|done].
    set (bc := if found p2 then _ else _).
    assert (Hbc : Forall (plain_operand (length ops)) bc).
    { unfold bc. destruct (found p2); [|done].
      case_decide; apply plain_push; auto. }
    clearbody bc.
    destruct (is_add_to_next_pattern _ _) as [[]|]; simpl; [| |done].
    { intros [= <-]. rewrite emitted_NEXT_CHAR_N. apply plain_push; auto. }
    destruct (is_multiply_move_pattern ops (i s)) as [p3|] eqn:E3; simpl;
      [|done].
    destruct (found p3).
    { intros [= <-]. rewrite emitted_NEXT_CHAR_N. apply plain_push; [done|].
      split; simpl; [by eapply is_multiply_move_pattern_val|done]. }
    intros [= <-]. unfold NEXT_CHAR. rewrite emitted_NEXT_CHAR_N.
    apply plain_push; [done|]. split; simpl; [lia|done].
  - unfold parse_jmp_back. destruct (loop_stack s) as [|top rest] eqn:E.
    + intros [= <-]. unfold NEXT_CHAR. by rewrite emitted_NEXT_CHAR_N.
    + intros [= <-]. unfold NEXT_CHAR. rewrite emitted_NEXT_CHAR_N.
      apply plain_push.
      * apply Forall_alter; [done|]. intros x Hx [Hv Hj].
        split; simpl; [done|].
        destruct (lk_open _ _ L top) as (f & Hf & Hop & _); [by left|].
        rewrite Hx in Hf. injection Hf as ->. by rewrite Hop.
      * split; simpl; [lia|done].
  - intros [= <-]. unfold NEXT_CHAR. by rewrite emitted_NEXT_CHAR_N.
Qed.

Lemma plain_run fuel ops s bc :
  i s < length ops ->
  linking (bytecode s) (loop_stack s) ->
  Forall (plain_operand (length ops)) (bytecode s) ->
  run fuel ops s = Returned bc ->
  Forall (plain_operand (length ops)) bc /\ exists stk, linking bc stk.
Proof.
  revert s. induction fuel as [|fuel IH]; intros s Hi L HP; simpl; [done|].
  pose proof (dispatch_progress ops s Hi) as Hd.
  destruct (dispatch ops s) as [[s'|bc']|] eqn:E; [| |done].
  - apply IH; [tauto|apply (linking_dispatch _ _ _ L E)|].
    rewrite dispatch_body in E.
    destruct (rd ops (i s)) as [ch|]; simpl in E; [|done].
    apply (plain_body _ _ _ _ Hi L HP E).
  - intros [= <-]. split; [|apply (linking_dispatch _ _ _ L E)].
    rewrite dispatch_body in E.
    destruct (rd ops (i s)) as [ch|]; simpl in E; [|done].
    apply (plain_body _ _ _ _ Hi L HP E).
Qed.

Lemma plain_compile fuel ops bc :
  compile_fuel fuel ops = Returned bc ->
  Forall (plain_operand (length ops)) bc /\ exists stk, linking bc stk.
Proof.
  unfold compile_fuel. destruct ops as [|c ops].
  - intros [= <-]. split; [constructor|]. exists []. apply linking_start.
  - apply plain_run; [simpl; lia|apply linking_start|constructor].
Qed.



End Operands.

(** ** From the source text to the end of the run *)

Section WholeProgram.

Import TwoEndedTape DirectThreadingInterpreter.
Open Scope Z_scope.

Lemma compiled_moves_in_range fuel ops bc :
  Z.of_nat (length ops) <= 2 * TAPE_SIZE ->
  compile_fuel fuel ops = Returned bc -> moves_in_range bc.
Proof.
  intros Hlen H. apply plain_compile in H as [HP _].
  rewrite Forall_forall in HP. intros ins Hin _.
  destruct (HP ins Hin) as [Hv _].
  destruct (decide (value ins < 0)); [by left|right].
  unfold to_uint16. unfold TAPE_SIZE in *. rewrite Z.mod_small; lia.
Qed.

(** X11: a program of at most [2 * TAPE_SIZE] bytes that does not end in
    `[->+<` never takes [main] outside defined behaviour, with or without
    the dump flag, whatever is on standard input and however long it
    runs: it exits, terminates on a tape exception, or is still
    running. *)
Theorem main_defined (fuel : nat) (should_print_bytecode : bool)
  (ops : buffer) (input : list Z) :
  Z.of_nat (length ops) <= 2 * TAPE_SIZE ->
  ~ ends_in_open_add_to_next ops ->
  main fuel should_print_bytecode ops input <> NoBehaviour.
Proof.
  intros Hlen Hend. unfold main.
  destruct (compile_fuel fuel ops) as [bc|k|] eqn:E; [| |done].
  - destruct should_print_bytecode; [done|].
    destruct (interprete fuel bc input) as [| |u|] eqn:E2; try done.
    exfalso. revert E2. unfold interprete.
    pose proof (compiled_moves_in_range _ _ _ Hlen E) as Hmoves.
    destruct bc as [|ins rest]; [done|].
    apply dispatch_loop_defined; [done|apply wf_init|simpl; lia].
  - exfalso. unfold compile_fuel in E. destruct ops as [|c ops]; [done|].
    apply run_out_of_range in E; [tauto|simpl; lia].
Qed.

Lemma main_defined_witness :
  main 50 false (src "++[->+<]>.") [] <> NoBehaviour.
Proof.
  apply main_defined.
  - vm_compute. discriminate.
  - intros [pre E]. apply (f_equal (fun l => last l)) in E.
    rewrite last_app in E. vm_compute in E. discriminate.
Defined.

Lemma read_loop_all (fuel : nat) (program stream : buffer) :
  (length stream < fuel)%nat ->
  read_loop fuel program stream = Some (program ++ stream).
Proof.
  assert (Hsize : (0 < BUFFER_SIZE)%nat) by (unfold BUFFER_SIZE; lia).
  revert program stream.
  induction fuel as [|fuel IH]; intros program stream Hfuel; [lia|].
  cbn [read_loop]. unfold fread.
  destruct (decide (length (take BUFFER_SIZE stream) > 0)%nat) as [Hgot|Hend].
  - rewrite length_take in Hgot.
    rewrite IH by (rewrite length_drop; lia).
    by rewrite <- app_assoc, take_drop.
  - rewrite length_take in Hend.
    destruct stream as [|c stream]; [by rewrite app_nil_r|].
    simpl in Hend. lia.
Qed.

(** X12: [read_program] returns the whole stream, byte for byte and in
    order, whatever its length is relative to [BUFFER_SIZE]; the empty
    stream gives the empty program. *)
Theorem read_program_reads_the_stream (stream : buffer) :
  read_program stream = Some stream.
Proof. unfold read_program. by rewrite read_loop_all by lia. Qed.

End WholeProgram.

(** ** MULTIPLY_MV with any multiplier *)

Section Transfer.

Import TwoEndedTape DirectThreadingInterpreter.
Open Scope Z_scope.





End Transfer.

(** ** A closing bracket without an open one *)

Section Closers.

(** With the loop stack empty, [parse_jmp_back] pushes nothing and moves
    on. *)
Lemma returns_closers (n : nat) ops bc0 bc :
  returns (replicate n "]"%char ++ ops)
    (resume (replicate n "]"%char ++ ops) bc0 [] 0) bc
  <-> returns ops (resume ops bc0 [] 0) bc.
Proof.
  induction n as [|n IH]; [done|].
  rewrite <- IH. cbn [replicate].
  change (("]"%char :: replicate n "]"%char) ++ ops)
    with ("]"%char :: (replicate n "]"%char ++ ops)).
  set (tl := replicate n "]"%char ++ ops).
  rewrite (resume_Dispatch ("]"%char :: tl)) by (simpl; lia).
  rewrite (returns_step _ _ (resume ("]"%char :: tl) bc0 [] 1)).
  - change ("]"%char :: tl) with (["]"%char] ++ tl).
    change 1 with (length ["]"%char] + 0) at 1.
    rewrite <- resume_app. apply returns_app.
  - rewrite dispatch_body. simpl. unfold parse_jmp_back, NEXT_CHAR. simpl.
    by rewrite NEXT_CHAR_N_resume.
Qed.

(** X14: closing brackets at the very start of the source, where no
    bracket is open, are dropped without an error: the source compiles
    exactly as it does without them. *)
Theorem leading_closers_are_dropped (n : nat) (ops : buffer)
  (bc : list Instruction) :
  compiles_to (replicate n "]"%char ++ ops) bc <-> compiles_to ops bc.
Proof. rewrite !compiles_to_returns. apply returns_closers. Qed.

End Closers.

(** ** Input and output *)

Section InputOutput.

Import TwoEndedTape DirectThreadingInterpreter.
Open Scope Z_scope.

(** X15: on a well-formed tape OUTPUT appends the byte under the head to
    the output and changes nothing else; INPUT stores the next input byte
    under the head and consumes exactly that byte, and at end of input it
    stores 255 (the byte of [EOF = -1]) and the input stays empty. *)
Theorem input_and_output (st : machine) :
  wf (tape st) ->
  (exists c, cell (tape st) (offset (tape st)) = Some c /\
     do_output st
     = Ok () (mkMachine (tape st) (pc st) (cin st) (cout st ++ [c mod 256])))
  /\
  do_input st
  = Ok () (mkMachine
             (write (match cin st with b :: _ => b mod 256 | [] => 255 end)
                (tape st))
             (pc st) (tail (cin st)) (cout st)).
Proof.
  intros Hwf. split.
  - destruct (get_curr_wf _ Hwf) as (c & Hc & Hget).
    exists c. split; [done|].
    unfold do_output. rewrite (bind_Ok _ _ st c st); [done|].
    rewrite (on_tape_Ok _ _ c (tape st) Hget). by destruct st.
  - unfold do_input, mbind, M_bind, cin_get.
    destruct (cin st) as [|b rest] eqn:E.
    + rewrite (on_tape_Ok _ _ () (write 255 (tape st)))
        by (by apply set_curr_wf).
      unfold with_tape. by rewrite E.
    + by rewrite (on_tape_Ok _ _ () (write (b mod 256) (tape st)))
        by (by apply set_curr_wf).
Qed.

Lemma input_and_output_witness :
  (exists c, cell (tape (boot [])) (offset (tape (boot []))) = Some c /\
     do_output (boot [])
     = Ok () (mkMachine (tape (boot [])) (pc (boot [])) (cin (boot []))
                (cout (boot []) ++ [c mod 256])))
  /\
  do_input (boot [])
  = Ok () (mkMachine
             (write (match cin (boot []) with
                     | b :: _ => b mod 256
                     | [] => 255
                     end)
                (tape (boot [])))
             (pc (boot [])) (tail (cin (boot []))) (cout (boot []))).
Proof. apply (input_and_output (boot [])). apply wf_init. Defined.

Lemma io_after_refl st : io_after st st.
Proof. split; [by exists []|exists []; by rewrite app_nil_r]. Qed.

Lemma io_after_trans st1 st2 st3 :
  io_after st1 st2 -> io_after st2 st3 -> io_after st1 st3.
Proof.
  intros [[u1 Hu1] [o1 Ho1]] [[u2 Hu2] [o2 Ho2]]. split.
  - exists (u1 ++ u2). by rewrite Hu1, Hu2, app_assoc.
  - exists (o1 ++ o2). by rewrite Ho2, Ho1, app_assoc.
Qed.

Lemma io_ret {A} (a : A) : io_in_order (mret a).
Proof. intros st. apply io_after_refl. Qed.

Lemma io_bind {A B} (m : M machine A) (k : A -> M machine B) :
  io_in_order m -> (forall a, io_in_order (k a)) -> io_in_order (m ≫= k).
Proof.
  intros Hm Hk st. specialize (Hm st). unfold mbind, M_bind.
  destruct (m st) as [a mid| | |]; try done.
  specialize (Hk a mid).
  destruct (k a mid); try done; by eapply io_after_trans.
Qed.

Lemma io_on_tape {A} (m : M TwoEndedTape.t A) : io_in_order (on_tape m).
Proof.
  intros st. unfold on_tape.
  destruct (m (tape st)); try done;
    (split; simpl; [by exists []|exists []; by rewrite app_nil_r]).
Qed.

Lemma io_scan_right_loop fuel : io_in_order (scan_right_loop fuel).
Proof.
  induction fuel as [|fuel IH]; [done|]. cbn [scan_right_loop].
  apply io_bind; [apply io_on_tape|]. intros c.
  case_decide; [|apply io_ret].
  apply io_bind; [apply io_on_tape|done].
Qed.

Lemma io_scan_left_loop fuel : io_in_order (scan_left_loop fuel).
Proof.
  induction fuel as [|fuel IH]; [done|]. cbn [scan_left_loop].
  apply io_bind; [apply io_on_tape|]. intros c.
  case_decide; [|apply io_ret].
  apply io_bind; [apply io_on_tape|done].
Qed.

Lemma io_set_pc p : io_in_order (set_pc p).
Proof.
  intros st. split; simpl; [by exists []|exists []; by rewrite app_nil_r].
Qed.

Lemma io_handler fuel ins : io_in_order (handler fuel ins).
Proof.
  unfold handler. destruct (op ins).
  - apply io_bind; [apply io_on_tape|]. intros c st. split; simpl.
    + by exists [].
    + by eexists.
  - apply io_bind; [|intros; apply io_on_tape]. intros st.
    unfold cin_get. destruct (cin st) as [|b rest] eqn:E.
    + apply io_after_refl.
    + split; simpl; [by exists [b]|exists []; by rewrite app_nil_r].
  - apply io_bind; [apply io_on_tape|]. intros c.
    case_decide; [apply io_set_pc|apply io_ret].
  - apply io_bind; [apply io_on_tape|]. intros c.
    case_decide; [apply io_set_pc|apply io_ret].
  - apply io_on_tape.
  - apply io_on_tape.
  - unfold do_mv_pos. case_decide; apply io_on_tape.
  - repeat (apply io_bind; [apply io_on_tape|intros ?]). apply io_on_tape.
  - repeat (apply io_bind; [apply io_on_tape|intros ?]). apply io_on_tape.
  - apply io_on_tape.
  - apply io_scan_right_loop.
  - apply io_scan_left_loop.
Qed.

Lemma io_DISPATCH fuel bytecode : io_in_order (DISPATCH fuel bytecode).
Proof.
  apply io_bind.
  { intros st. unfold fetch.
    destruct (bytecode !! Z.to_nat (pc st)); [apply io_after_refl|done]. }
  intros ins. apply io_bind; [apply io_handler|].
  intros _ st. split; simpl; [by exists []|exists []; by rewrite app_nil_r].
Qed.

(** X16: however long the instruction sequence runs and however it ends
    (normally or on a tape exception), what is left of the input is a
    suffix of what was there, and the output is what had been written
    followed by new bytes: input is consumed strictly in order and output
    is never taken back. *)
Theorem interpreter_io_in_order (fuel : nat) (bytecode : list Instruction) :
  io_in_order (dispatch_loop fuel bytecode).
Proof.
  induction fuel as [|fuel IH]; [done|]. cbn [dispatch_loop].
  apply io_bind; [apply io_DISPATCH|].
  intros [|]; [apply IH|apply io_ret].
Qed.

End InputOutput.

(** ** Code without jumps *)

Section StraightLine.

Import TwoEndedTape DirectThreadingInterpreter.
Open Scope Z_scope.

Lemma scan_right_loop_ends fuel st :
  wf (tape st) -> (Z.to_nat (TAPE_SIZE - offset (tape st)) < fuel)%nat ->
  scan_right_loop fuel st <> Unfinished.
Proof.
  revert st. induction fuel as [|fuel IH]; intros st Hwf Hfuel; [lia|].
  cbn [scan_right_loop].
  destruct (get_curr_wf _ Hwf) as (c & Hc & Hget).
  rewrite (bind_Ok _ _ st c st).
  2:{ rewrite (on_tape_Ok _ _ c (tape st) Hget). by destruct st. }
  case_decide; [|done].
  pose proof (moveRightBy_in_range (tape st) 1 Hwf
                ltac:(unfold TAPE_SIZE; lia)) as Hmove.
  pose proof Hwf as [_ _ Hp].
  destruct (decide (offset (tape st) + 1 <= TAPE_SIZE - 1)) as [Hin|Hout].
  - rewrite (bind_Ok _ _ st ()
               (with_tape (set_position (position (tape st) + 1) (tape st))
                  st)) by (by apply on_tape_Ok).
    apply IH; simpl.
    + apply wf_set_position; [done|]. unfold offset in Hin. lia.
    + unfold offset in *. simpl. lia.
  - rewrite (bind_Throw _ _ st "Tape overflow" (with_tape (tape st) st));
      [done|].
    by apply on_tape_Throw.
Qed.

Lemma scan_left_loop_ends fuel st :
  wf (tape st) -> (Z.to_nat (offset (tape st) + TAPE_SIZE + 1) < fuel)%nat ->
  scan_left_loop fuel st <> Unfinished.
Proof.
  revert st. induction fuel as [|fuel IH]; intros st Hwf Hfuel; [lia|].
  cbn [scan_left_loop].
  destruct (get_curr_wf _ Hwf) as (c & Hc & Hget).
  rewrite (bind_Ok _ _ st c st).
  2:{ rewrite (on_tape_Ok _ _ c (tape st) Hget). by destruct st. }
  case_decide; [|done].
  pose proof (moveLeftBy_spec (tape st) 1 Hwf ltac:(lia)) as Hmove.
  pose proof Hwf as [_ _ Hp].
  destruct (decide (offset (tape st) - 1 >= - TAPE_SIZE)) as [Hin|Hout].
  - rewrite (bind_Ok _ _ st ()
               (with_tape (set_position (position (tape st) - 1) (tape st))
                  st)) by (by apply on_tape_Ok).
    apply IH; simpl.
    + apply wf_set_position; [done|]. unfold offset in Hin. lia.
    + unfold offset in *. simpl. lia.
  - rewrite (bind_Throw _ _ st "Tape underflow" (with_tape (tape st) st));
      [done|].
    by apply on_tape_Throw.
Qed.

Lemma bind_ends {A B} (m : M machine A) (k : A -> M machine B) st :
  m st <> Unfinished ->
  (forall a mid, m st = Ok a mid -> k a mid <> Unfinished) ->
  (m ≫= k) st <> Unfinished.
Proof.
  intros Hm Hk. unfold mbind, M_bind.
  destruct (m st) as [a mid| | |]; try done. by apply Hk.
Qed.

Lemma on_tape_ends {A} (m : M TwoEndedTape.t A) st :
  (forall tp, m tp <> Unfinished) -> on_tape m st <> Unfinished.
Proof.
  intros Hm. unfold on_tape. specialize (Hm (tape st)).
  by destruct (m (tape st)).
Qed.

Lemma tape_methods_end :
  (forall tp, get_curr tp <> Unfinished) /\
  (forall v tp, set_curr v tp <> Unfinished) /\
  (forall x tp, add x tp <> Unfinished) /\
  (forall n tp, moveRightBy n tp <> Unfinished) /\
  (forall n tp, moveLeftBy n tp <> Unfinished).
Proof.
  repeat split; intros;
    unfold get_curr, set_curr, add, moveRightBy, moveLeftBy;
    repeat case_match; done.
Qed.

(** With fuel for a scan from one edge of the tape to the other, every
    label comes to its [NEXT] or throws. *)
Lemma handler_ends fuel ins st :
  wf (tape st) -> 2 * TAPE_SIZE < Z.of_nat fuel ->
  handler fuel ins st <> Unfinished.
Proof.
  intros Hwf Hfuel.
  destruct tape_methods_end as (Hget & Hset & Hadd & Hright & Hleft).
  pose proof Hwf as [_ _ Hp].
  unfold handler. destruct (op ins).
  - apply bind_ends; [by apply on_tape_ends|done].
  - apply bind_ends; [unfold cin_get; by destruct (cin st)|].
    intros. by apply on_tape_ends.
  - apply bind_ends; [by apply on_tape_ends|]. intros. by case_decide.
  - apply bind_ends; [by apply on_tape_ends|]. intros. by case_decide.
  - by apply on_tape_ends.
  - by apply on_tape_ends.
  - unfold do_mv_pos. case_decide; by apply on_tape_ends.
  - repeat (apply bind_ends; [by apply on_tape_ends|intros]).
    by apply on_tape_ends.
  - repeat (apply bind_ends; [by apply on_tape_ends|intros]).
    by apply on_tape_ends.
  - by apply on_tape_ends.
  - apply scan_right_loop_ends; [done|]. unfold offset, TAPE_SIZE in *. lia.
  - apply scan_left_loop_ends; [done|]. unfold offset, TAPE_SIZE in *. lia.
Qed.

(** A label other than the two jumps leaves [pc] alone. *)
Lemma handler_pc_plain fuel ins st st' :
  is_jump (op ins) = false ->
  handler fuel ins st = Ok () st' -> pc st' = pc st.
Proof.
  intros Hop H. destruct (handler_pc _ _ _ _ H) as [|Hjump]; [done|].
  revert H. unfold handler.
  destruct (op ins); try done; intros H.
  - unfold do_output in H.
    apply bind_Ok_inv in H as (c & s1 & H1 & H).
    apply on_tape_pc in H1. injection H as <-. done.
  - unfold do_input in H.
    apply bind_Ok_inv in H as (c & s1 & H1 & H).
    apply on_tape_pc in H. rewrite H. unfold cin_get in H1.
    destruct (cin st); by injection H1 as _ <-.
  - by apply on_tape_pc in H.
  - by apply on_tape_pc in H.
  - unfold do_mv_pos in H. case_decide; by apply on_tape_pc in H.
  - unfold do_add_to_next in H.
    apply bind_Ok_inv in H as (c & s1 & H1 & H).
    apply bind_Ok_inv in H as (? & s2 & H2 & H).
    apply bind_Ok_inv in H as (? & s3 & H3 & H).
    apply bind_Ok_inv in H as (? & s4 & H4 & H).
    apply on_tape_pc in H, H1, H2, H3, H4. congruence.
  - unfold do_multiply_mv in H.
    apply bind_Ok_inv in H as (c & s1 & H1 & H).
    apply bind_Ok_inv in H as (? & s2 & H2 & H).
    apply bind_Ok_inv in H as (? & s3 & H3 & H).
    apply bind_Ok_inv in H as (? & s4 & H4 & H).
    apply on_tape_pc in H, H1, H2, H3, H4. congruence.
  - by apply on_tape_pc in H.
  - by apply scan_right_loop_pc in H.
  - by apply scan_left_loop_pc in H.
Qed.

Lemma dispatch_loop_ends fuel bytecode st :
  moves_in_range bytecode ->
  (forall ins, ins ∈ bytecode -> is_jump (op ins) = false) ->
  Z.of_nat (length bytecode) < 2 ^ 64 ->
  wf (tape st) -> 0 <= pc st < Z.of_nat (length bytecode) ->
  Z.of_nat (length bytecode) - pc st + 2 * TAPE_SIZE < Z.of_nat fuel ->
  match dispatch_loop fuel bytecode st with
  | Ok _ st' => pc st' = Z.of_nat (length bytecode)
  | Throw _ _ => True
  | Undefined _ | Unfinished => False
  end.
Proof.
  intros Hmoves Hplain Hsize. revert st.
  induction fuel as [|fuel IH]; intros st Hwf Hpc Hfuel.
  { unfold TAPE_SIZE in Hfuel. lia. }
  cbn [dispatch_loop]. unfold DISPATCH, fetch, mbind, M_bind.
  destruct (lookup_lt_is_Some_2 bytecode (Z.to_nat (pc st)) ltac:(lia))
    as [ins Hins].
  rewrite Hins.
  assert (Hin : ins ∈ bytecode) by (by eapply list_elem_of_lookup_2).
  assert (Hsafe : safe (handler fuel ins)).
  { apply safe_handler. intros Hop. by apply Hmoves. }
  specialize (Hsafe st Hwf).
  pose proof (handler_ends fuel ins st Hwf ltac:(lia)) as Hends.
  destruct (handler fuel ins st) as [[] mid| | |] eqn:Hh; try done.
  apply handler_pc_plain in Hh; [|by apply Hplain].
  assert (Hnext : to_size_t (pc mid + 1) = pc st + 1).
  { rewrite Hh. unfold to_size_t. apply Z.mod_small. lia. }
  unfold NEXT. rewrite Hnext. case_bool_decide as Hagain.
  - apply IH; simpl; [done|lia|lia].
  - simpl. lia.
Qed.

(** X17: an instruction sequence without JUMP_FWD and JUMP_BACK, whose
    MV_POS operands are in range and whose size fits a [size_t], always
    comes to an end: given fuel for one step per instruction and one scan
    across the tape, [interprete] returns with every instruction
    executed, or stops on a tape exception. *)
Theorem straight_line_code_finishes (fuel : nat)
  (bytecode : list Instruction) (input : list Z) :
  moves_in_range bytecode ->
  (forall ins, ins ∈ bytecode -> is_jump (op ins) = false) ->
  Z.of_nat (length bytecode) < 2 ^ 64 ->
  Z.of_nat (length bytecode) + 2 * TAPE_SIZE < Z.of_nat fuel ->
  match interprete fuel bytecode input with
  | Ok _ st' => pc st' = Z.of_nat (length bytecode)
  | Throw _ _ => True
  | Undefined _ | Unfinished => False
  end.
Proof.
  intros Hmoves Hplain Hsize Hfuel. unfold interprete.
  destruct bytecode as [|ins rest] eqn:E; [done|]. rewrite <- E in *.
  apply dispatch_loop_ends; [done|done|done|apply wf_init|..].
  - rewrite E. simpl. lia.
  - simpl. lia.
Qed.

Lemma straight_line_code_finishes_witness :
  match interprete (Z.to_nat 40010)
          [mkInstruction ADD_VAL 0 65; mkInstruction OUTPUT 0 0;
           mkInstruction SCAN_RIGHT 0 0] [] with
  | Ok _ st' =>
      pc st' = Z.of_nat (length [mkInstruction ADD_VAL 0 65;
                                 mkInstruction OUTPUT 0 0;
                                 mkInstruction SCAN_RIGHT 0 0])
  | Throw _ _ => True
  | Undefined _ | Unfinished => False
  end.
Proof.
  apply straight_line_code_finishes.
  - intros ins Hin Hop.
    repeat (apply elem_of_cons in Hin as [->|Hin]; [discriminate Hop|]).
    inversion Hin.
  - intros ins Hin.
    repeat (apply elem_of_cons in Hin as [->|Hin]; [reflexivity|]).
    inversion Hin.
  - simpl. lia.
  - rewrite Z2Nat.id by lia. unfold TAPE_SIZE. simpl. lia.
Defined.

End StraightLine.

(** ** The loops that are folded into one instruction *)

Section SignPatterns.

Lemma sign_loop_signs (w rest : buffer) fuel acc :
  Forall is_sign w ->
  (forall c, head rest = Some c -> ~ is_sign c) ->
  length (w ++ rest) <= fuel ->
  sign_loop fuel (w ++ rest) 0 acc = Got ((acc + sign_sum w)%Z, length w).
Proof.
  intros Hw Hrest. revert fuel acc.
  induction Hw as [|c w Hc Hw IH]; intros fuel acc Hfuel.
  - simpl. rewrite Z.add_0_r. destruct fuel as [|fuel]; [done|].
    cbn [sign_loop]. destruct rest as [|c r]; [done|].
    rewrite bool_decide_eq_true_2 by (simpl; lia).
    unfold rd_eq, rd. simpl.
    destruct (Ascii.eqb_spec c "+") as [->|];
      [exfalso; apply (Hrest "+"%char); [done|by left]|].
    destruct (Ascii.eqb_spec c "-") as [->|];
      [exfalso; apply (Hrest "-"%char); [done|by right]|].
    done.
  - destruct fuel as [|fuel]; [simpl in Hfuel; lia|].
    cbn [sign_loop]. rewrite bool_decide_eq_true_2 by (simpl; lia).
    unfold rd_eq at 1 2 3, rd. simpl.
    change (c :: w ++ rest) with (c :: (w ++ rest)).
    assert (Hstep : forall a,
      sign_loop fuel (c :: (w ++ rest)) 1 a
      = Got ((a + sign_sum w)%Z, S (length w))).
    { intros a. rewrite sign_loop_cons, IH by (simpl in Hfuel; lia). done. }
    destruct Hc as [-> | ->]; simpl; rewrite Hstep; do 2 f_equal; lia.
Qed.

Lemma sign_loop_app pre ops fuel i acc :
  sign_loop fuel (pre ++ ops) (length pre + i) acc
  = (r ← reindex (length pre) (sign_loop fuel ops i acc);
     Got (r.1, length pre + r.2)).
Proof.
  induction pre as [|c pre IH]; simpl.
  - destruct (sign_loop fuel ops i acc) as [[m j]|]; done.
  - rewrite sign_loop_cons, IH.
    destruct (sign_loop fuel ops i acc) as [[m j]|]; done.
Qed.

Lemma is_set_value_pattern_app pre ops pos :
  is_set_value_pattern (pre ++ ops) (length pre + pos)
  = reindex (length pre) (is_set_value_pattern ops pos).
Proof.
  induction pre as [|c pre IH]; simpl.
  - by destruct (is_set_value_pattern ops pos).
  - rewrite is_set_value_pattern_cons, IH.
    destruct (is_set_value_pattern ops pos); simpl; [done|f_equal; lia].
Qed.

Lemma is_multiply_move_pattern_app pre ops pos :
  is_multiply_move_pattern (pre ++ ops) (length pre + pos)
  = reindex (length pre) (is_multiply_move_pattern ops pos).
Proof.
  induction pre as [|c pre IH]; simpl.
  - by destruct (is_multiply_move_pattern ops pos).
  - rewrite is_multiply_move_pattern_cons, IH.
    destruct (is_multiply_move_pattern ops pos); simpl; [done|f_equal; lia].
Qed.

Lemma sign_loop_after (pre w rest : buffer) fuel :
  Forall is_sign w ->
  (forall c, head rest = Some c -> ~ is_sign c) ->
  length (w ++ rest) <= fuel ->
  sign_loop fuel (pre ++ w ++ rest) (length pre) 0
  = Got (sign_sum w, length pre + length w).
Proof.
  intros Hw Hrest Hfuel.
  rewrite <- (Nat.add_0_r (length pre)) at 1.
  by rewrite sign_loop_app, sign_loop_signs.
Qed.

Lemma is_set_value_pattern_signs (w rest : buffer) :
  Forall is_sign w ->
  (forall c, head rest = Some c -> ~ is_sign c) ->
  is_set_value_pattern (src "[-]" ++ w ++ rest) 0
  = Got (if decide (sign_sum w <> 0%Z)
         then mkPattern true (sign_sum w) (3 + length w)
         else no_pattern).
Proof.
  intros Hw Hrest.
  pose proof (sign_loop_after (src "[-]") w rest (length (w ++ rest))
                Hw Hrest ltac:(lia)) as Hloop.
  remember (w ++ rest) as ops eqn:Eops.
  destruct (decide (ops = [])) as [->|Hne].
  { symmetry in Eops. apply app_eq_nil in Eops as [-> ->]. done. }
  unfold is_set_value_pattern.
  rewrite decide_False by (destruct ops; [done|simpl; lia]).
  unfold rd_ne, rd. simpl. simpl in Hloop.
  rewrite Nat.sub_0_r, Hloop. simpl. by case_decide.
Qed.

Lemma rd_ne_Some (ops : buffer) k c x :
  ops !! k = Some c -> rd_ne ops k x = Got (negb (Ascii.eqb c x)).
Proof. unfold rd_ne, rd. by intros ->. Qed.

Lemma is_multiply_move_pattern_signs (w rest : buffer) :
  Forall is_sign w -> w <> [] ->
  is_multiply_move_pattern (src "[->" ++ w ++ src "<]" ++ rest) 0
  = Got (mkPattern true (sign_sum w) (5 + length w)).
Proof.
  intros Hw Hne.
  set (ops := src "[->" ++ w ++ src "<]" ++ rest).
  assert (Hlen : length ops = 5 + length w + length rest).
  { unfold ops. rewrite !length_app. simpl. lia. }
  assert (Hloop : sign_loop (length ops - (0 + 3)) ops (0 + 3) 0
                  = Got (sign_sum w, 3 + length w)).
  { apply (sign_loop_after (src "[->") w (src "<]" ++ rest)); [done| |].
    - intros c [= <-] [|]; done.
    - fold ops. rewrite length_app, Hlen. simpl. lia. }
  assert (Hat : forall k x, (src "<]" ++ rest) !! k = Some x ->
            ops !! (3 + length w + k) = Some x).
  { intros k x Hk. unfold ops. rewrite lookup_app_r by (simpl; lia).
    rewrite lookup_app_r by (simpl; lia).
    by replace (3 + length w + k - length (src "[->") - length w) with k
      by (simpl; lia). }
  pose proof (Hat 0 "<"%char eq_refl) as Hj.
  pose proof (Hat 1 "]"%char eq_refl) as Hj1.
  assert (H0 : ops !! 0 = Some "["%char) by done.
  assert (H1 : ops !! (0 + 1) = Some "-"%char) by done.
  assert (H2 : ops !! (0 + 2) = Some ">"%char) by done.
  assert (H3 : exists c, ops !! (0 + 3) = Some c /\ is_sign c).
  { destruct w as [|c w]; [done|]. exists c. split; [done|].
    by apply Forall_inv in Hw. }
  destruct H3 as (c & H3 & Hc).
  rewrite Nat.add_0_r in Hj.
  remember (3 + length w) as j eqn:Ej.
  clearbody ops.
  unfold is_multiply_move_pattern.
  rewrite bool_decide_eq_false_2 by lia.
  rewrite (rd_ne_Some _ _ _ _ H0), (rd_ne_Some _ _ _ _ H1),
    (rd_ne_Some _ _ _ _ H2), !(rd_ne_Some _ _ _ _ H3), Hloop.
  assert (Hsign : negb (Ascii.eqb c "+") && negb (Ascii.eqb c "-") = false).
  { destruct Hc as [-> | ->]; done. }
  simpl. destruct (negb (Ascii.eqb c "+")); simpl in *.
  - rewrite Hsign. simpl.
    rewrite bool_decide_eq_false_2 by lia.
    rewrite (rd_ne_Some _ _ _ _ Hj). simpl.
    rewrite bool_decide_eq_false_2 by lia.
    rewrite (rd_ne_Some _ _ _ _ Hj1). simpl. do 2 f_equal. lia.
  - rewrite bool_decide_eq_false_2 by lia.
    rewrite (rd_ne_Some _ _ _ _ Hj). simpl.
    rewrite bool_decide_eq_false_2 by lia.
    rewrite (rd_ne_Some _ _ _ _ Hj1). simpl. do 2 f_equal. lia.
Qed.

(** X18: the two checks built on the sign loop report the net count of
    the signs.  At any cursor, `[-]` followed by a word [w] of `+` and `-`
    is a set-value pattern of length [3 + |w|] whose value is the number
    of `+` minus the number of `-`, unless that number is 0, in which case
    it is no set-value pattern; `[->`, [w], `<]` is a multiply-move
    pattern of length [5 + |w|] with that number as multiplier, even when
    it is 0. *)
Theorem sign_patterns_are_summed (pre w rest : buffer) :
  Forall is_sign w -> w <> [] ->
  (forall c, head rest = Some c -> ~ is_sign c) ->
  is_set_value_pattern (pre ++ src "[-]" ++ w ++ rest) (length pre)
  = Got (if decide (sign_sum w <> 0%Z)
         then mkPattern true (sign_sum w) (3 + length w)
         else no_pattern) /\
  is_multiply_move_pattern (pre ++ src "[->" ++ w ++ src "<]" ++ rest)
    (length pre)
  = Got (mkPattern true (sign_sum w) (5 + length w)).
Proof.
  intros Hw Hne Hrest. split.
  - rewrite <- (Nat.add_0_r (length pre)).
    by rewrite is_set_value_pattern_app, is_set_value_pattern_signs.
  - rewrite <- (Nat.add_0_r (length pre)).
    by rewrite is_multiply_move_pattern_app, is_multiply_move_pattern_signs.
Qed.

Lemma sign_patterns_are_summed_witness :
  is_set_value_pattern (src ">" ++ src "[-]" ++ src "++-+" ++ src ".")
    (length (src ">"))
  = Got (if decide (sign_sum (src "++-+") <> 0%Z)
         then mkPattern true (sign_sum (src "++-+"))
                (3 + length (src "++-+"))
         else no_pattern) /\
  is_multiply_move_pattern
    (src ">" ++ src "[->" ++ src "++-+" ++ src "<]" ++ src ".")
    (length (src ">"))
  = Got (mkPattern true (sign_sum (src "++-+")) (5 + length (src "++-+"))).
Proof.
  apply sign_patterns_are_summed.
  - repeat (constructor; [first [by left|by right]|]). constructor.
  - discriminate.
  - intros c [= <-] [|]; discriminate.
Defined.

End SignPatterns.

Section FoldedLoops.

Lemma NEXT_CHAR_N_Return ops bc stk i n :
  length ops <= i + n -> NEXT_CHAR_N ops bc stk i n = Return bc.
Proof. intros. unfold NEXT_CHAR_N. by rewrite decide_False by lia. Qed.

(** X19: a program that is `[-]` followed by `+` and `-` whose net count
    is not 0 compiles to the single instruction SET_VAL with that count
    as operand. *)
Theorem set_value_loop_compiles (w : buffer) :
  Forall is_sign w -> sign_sum w <> 0%Z ->
  compiles_to (src "[-]" ++ w) [mkInstruction SET_VAL 0 (sign_sum w)].
Proof.
  intros Hw Hsum. exists 1.
  pose proof (is_set_value_pattern_signs w [] Hw ltac:(done)) as Hp.
  rewrite app_nil_r, decide_True in Hp by done.
  assert (Hlen : length (src "[-]" ++ w) = 3 + length w) by done.
  remember (src "[-]" ++ w) as ops eqn:Eops.
  assert (H0 : ops !! 0 = Some "["%char) by (by rewrite Eops).
  unfold compile_fuel. destruct ops as [|c ops]; [done|].
  cbn [run]. rewrite dispatch_body. unfold rd, start. cbn [i].
  rewrite H0. simpl. unfold parse_jmp_fwd. cbn [i bytecode loop_stack].
  rewrite Hp. simpl. rewrite NEXT_CHAR_N_Return; [done|]. rewrite Hlen. lia.
Qed.

Lemma set_value_loop_compiles_witness :
  compiles_to (src "[-]" ++ src "-+---")
    [mkInstruction SET_VAL 0 (sign_sum (src "-+---"))].
Proof.
  apply set_value_loop_compiles.
  - repeat (constructor; [first [by left|by right]|]). constructor.
  - vm_compute. discriminate.
Defined.

Lemma is_add_to_next_pattern_signs (w : buffer) :
  Forall is_sign w -> w <> [] ->
  is_add_to_next_pattern (src "[->" ++ w ++ src "<]") 0
  = Got (bool_decide (w = src "+")).
Proof.
  intros Hw Hne. destruct w as [|c [|c' w]]; [done| |].
  - apply Forall_inv in Hw as [-> | ->]; reflexivity.
  - apply Forall_inv_tail, Forall_inv in Hw.
    rewrite bool_decide_eq_false_2 by done.
    unfold is_add_to_next_pattern.
    rewrite decide_False by (simpl; lia).
    unfold rd_eq, rd. simpl.
    destruct (Ascii.eqb c "+"); simpl; [|done].
    by destruct Hw as [-> | ->].
Qed.

(** X20: a program that is `[->`, a non-empty word of `+` and `-`, and
    `<]` compiles to a single instruction: ADD_TO_NEXT when the word is
    one `+`, and otherwise MULTIPLY_MV with the number of `+` minus the
    number of `-` as operand. *)
Theorem multiply_loop_compiles (w : buffer) :
  Forall is_sign w -> w <> [] ->
  compiles_to (src "[->" ++ w ++ src "<]")
    [if decide (w = src "+") then mkInstruction ADD_TO_NEXT 0 0
     else mkInstruction MULTIPLY_MV 0 (sign_sum w)].
Proof.
  intros Hw Hne. exists 1.
  pose proof (is_multiply_move_pattern_signs w [] Hw Hne) as Hmul.
  pose proof (is_add_to_next_pattern_signs w Hw Hne) as Hnext.
  rewrite app_nil_r in Hmul.
  assert (Hlen : length (src "[->" ++ w ++ src "<]") = 5 + length w).
  { rewrite !length_app. simpl. lia. }
  assert (Hval : is_set_value_pattern (src "[->" ++ w ++ src "<]") 0
                 = Got no_pattern).
  { unfold is_set_value_pattern. by case_decide. }
  assert (Hzero : is_set_zero_pattern (src "[->" ++ w ++ src "<]") 0
                  = Got false).
  { unfold is_set_zero_pattern. by case_decide. }
  assert (Hscan : is_scan_pattern (src "[->" ++ w ++ src "<]") 0
                  = Got no_pattern).
  { unfold is_scan_pattern. by case_decide. }
  remember (src "[->" ++ w ++ src "<]") as ops eqn:Eops.
  assert (H0 : ops !! 0 = Some "["%char) by (by rewrite Eops).
  unfold compile_fuel. destruct ops as [|c ops]; [done|].
  cbn [run]. rewrite dispatch_body. unfold rd, start. cbn [i].
  rewrite H0. simpl. unfold parse_jmp_fwd. cbn [i bytecode loop_stack].
  rewrite Hval. simpl. rewrite Hzero. simpl. rewrite Hscan. simpl.
  rewrite Hnext. simpl. destruct (decide (w = src "+")) as [Hw1|Hw1].
  - rewrite bool_decide_eq_true_2 by done.
    rewrite NEXT_CHAR_N_Return; [by rewrite decide_True|].
    rewrite Hlen, Hw1. simpl. lia.
  - rewrite bool_decide_eq_false_2 by done. rewrite Hmul. simpl.
    rewrite NEXT_CHAR_N_Return; [by rewrite decide_False|].
    rewrite Hlen. lia.
Qed.

Lemma multiply_loop_compiles_witness :
  compiles_to (src "[->" ++ src "+++" ++ src "<]")
    [if decide (src "+++" = src "+") then mkInstruction ADD_TO_NEXT 0 0
     else mkInstruction MULTIPLY_MV 0 (sign_sum (src "+++"))].
Proof.
  apply multiply_loop_compiles.
  - repeat (constructor; [first [by left|by right]|]). constructor.
  - discriminate.
Defined.

End FoldedLoops.

(** * Brackets, origins and comment bytes *)

(** ** What the checks accept *)

Section Shapes.

Lemma sign_prefix_decompose (t : buffer) :
  exists s t', t = s ++ t' /\ Forall is_sign s /\
               (forall c, head t' = Some c -> ~ is_sign c).
Proof.
  induction t as [|c t (s & t' & -> & Hs & Ht')].
  - exists [], []. by repeat split.
  - destruct (decide (c = "+"%char \/ c = "-"%char)) as [Hc|Hc].
    + exists (c :: s), t'. repeat split; [by constructor|done].
    + exists [], (c :: s ++ t'). repeat split; [done|].
      intros c' [= <-]. done.
Qed.

Lemma sign_sum_nil_inv (s : buffer) : sign_sum s <> 0%Z -> s <> [].
Proof. by intros H ->. Qed.

Lemma is_set_value_pattern_shape (X : buffer) p :
  is_set_value_pattern X 0 = Got p -> found p = true ->
  exists s t, Forall is_sign s /\ s <> [] /\
    (forall c, head t = Some c -> ~ is_sign c) /\
    X = src "[-]" ++ s ++ t /\
    p = mkPattern true (sign_sum s) (3 + length s).
Proof.
  destruct X as [|c0 [|c1 [|c2 t]]];
    try (unfold is_set_value_pattern; rewrite decide_True by (simpl; lia);
         by intros [= <-]).
  destruct (decide (c0 = "["%char /\ c1 = "-"%char /\ c2 = "]"%char))
    as [(-> & -> & ->)|Hne].
  - destruct (sign_prefix_decompose t) as (s & t' & -> & Hs & Ht').
    change ("["%char :: "-"%char :: "]"%char :: s ++ t')
      with (src "[-]" ++ s ++ t').
    rewrite is_set_value_pattern_signs by done.
    case_decide as Hsum; intros [= <-]; [intros _|done].
    exists s, t'. repeat split; try done. by apply sign_sum_nil_inv.
  - unfold is_set_value_pattern. rewrite decide_False by (simpl; lia).
    unfold rd_ne, rd. simpl.
    destruct (Ascii.eqb_spec c0 "["); simpl; [|by intros [= <-]].
    destruct (Ascii.eqb_spec c1 "-"); simpl; [|by intros [= <-]].
    destruct (Ascii.eqb_spec c2 "]"); simpl; [|by intros [= <-]].
    tauto.
Qed.

Lemma is_set_zero_pattern_shape (X : buffer) :
  is_set_zero_pattern X 0 = Got true ->
  exists c t, is_sign c /\ X = "["%char :: c :: "]"%char :: t.
Proof.
  destruct X as [|c0 [|c1 [|c2 t]]];
    try (unfold is_set_zero_pattern; rewrite decide_True by (simpl; lia);
         done).
  unfold is_set_zero_pattern. rewrite decide_False by (simpl; lia).
  unfold rd_eq, rd. simpl.
  destruct (Ascii.eqb_spec c0 "[") as [->|]; simpl; [|done].
  destruct (Ascii.eqb_spec c1 "-") as [->|]; simpl.
  - destruct (Ascii.eqb_spec c2 "]") as [->|]; simpl; [|done].
    intros _. exists "-"%char, t. split; [by right|done].
  - destruct (Ascii.eqb_spec c1 "+") as [->|]; simpl; [|done].
    destruct (Ascii.eqb_spec c2 "]") as [->|]; simpl; [|done].
    intros _. exists "+"%char, t. split; [by left|done].
Qed.

Lemma is_set_zero_pattern_at (c : ascii) (t : buffer) :
  is_sign c -> is_set_zero_pattern ("["%char :: c :: "]"%char :: t) 0
               = Got true.
Proof. by intros [-> | ->]. Qed.

Lemma is_scan_pattern_shape (X : buffer) p :
  is_scan_pattern X 0 = Got p ->
  (found p = false /\ p = no_pattern) \/
  exists c t, (c = ">"%char \/ c = "<"%char) /\
    X = "["%char :: c :: "]"%char :: t /\
    p = mkPattern true (if Ascii.eqb c ">" then 1 else 0) 3.
Proof.
  destruct X as [|c0 [|c1 [|c2 t]]];
    try (unfold is_scan_pattern; rewrite decide_True by (simpl; lia);
         intros [= <-]; by left).
  unfold is_scan_pattern. rewrite decide_False by (simpl; lia).
  unfold rd. simpl.
  destruct (Ascii.eqb_spec c0 "[") as [->|]; simpl;
    [|intros [= <-]; by left].
  destruct (Ascii.eqb_spec c1 ">") as [->|]; simpl.
  - destruct (Ascii.eqb_spec c2 "]") as [->|]; simpl;
      intros [= <-]; [right|by left].
    exists ">"%char, t. split; [by left|done].
  - destruct (Ascii.eqb_spec c1 "<") as [->|]; simpl;
      [|intros [= <-]; by left].
    destruct (Ascii.eqb_spec c2 "]") as [->|]; simpl;
      intros [= <-]; [right|by left].
    exists "<"%char, t. split; [by right|done].
Qed.

Lemma is_scan_pattern_at (c : ascii) (t : buffer) :
  c = ">"%char \/ c = "<"%char ->
  is_scan_pattern ("["%char :: c :: "]"%char :: t) 0
  = Got (mkPattern true (if Ascii.eqb c ">" then 1 else 0) 3).
Proof. by intros [-> | ->]. Qed.

Lemma is_add_to_next_pattern_shape (X : buffer) :
  is_add_to_next_pattern X 0 = Got true ->
  exists t, X = src "[->+<]" ++ t.
Proof.
  destruct X as [|c0 [|c1 [|c2 [|c3 [|c4 t]]]]];
    try (unfold is_add_to_next_pattern;
         rewrite decide_True by (simpl; lia); done).
  unfold is_add_to_next_pattern. rewrite decide_False by (simpl; lia).
  unfold rd_eq, rd. simpl.
  destruct (Ascii.eqb_spec c0 "[") as [->|]; simpl; [|done].
  destruct (Ascii.eqb_spec c1 "-") as [->|]; simpl; [|done].
  destruct (Ascii.eqb_spec c2 ">") as [->|]; simpl; [|done].
  destruct (Ascii.eqb_spec c3 "+") as [->|]; simpl; [|done].
  destruct (Ascii.eqb_spec c4 "<") as [->|]; simpl; [|done].
  destruct t as [|c5 t]; simpl; [done|].
  destruct (Ascii.eqb_spec c5 "]") as [->|]; simpl; [|done].
  intros _. by exists t.
Qed.

Lemma is_add_to_next_pattern_at (t : buffer) :
  is_add_to_next_pattern (src "[->+<]" ++ t) 0 = Got true.
Proof. done. Qed.

Lemma is_multiply_move_pattern_rejects (s t' : buffer) :
  Forall is_sign s -> s <> [] ->
  (forall c, head t' = Some c -> ~ is_sign c) ->
  (forall t'', t' <> src "<]" ++ t'') ->
  is_multiply_move_pattern (src "[->" ++ s ++ t') 0 = Got no_pattern.
Proof.
  intros Hs Hne Ht' Hno.
  set (ops := src "[->" ++ s ++ t').
  assert (Hlen : length ops = 3 + length s + length t').
  { unfold ops. rewrite !length_app. simpl. lia. }
  assert (Hloop : sign_loop (length ops - (0 + 3)) ops (0 + 3) 0
                  = Got (sign_sum s, 3 + length s)).
  { apply (sign_loop_after (src "[->") s t'); [done|done|].
    fold ops. rewrite length_app, Hlen. simpl. lia. }
  assert (Hat : forall k, ops !! (3 + length s + k) = t' !! k).
  { intros k. unfold ops. rewrite lookup_app_r by (simpl; lia).
    rewrite lookup_app_r by (simpl; lia). f_equal. simpl. lia. }
  assert (H0 : ops !! 0 = Some "["%char) by done.
  assert (H1 : ops !! (0 + 1) = Some "-"%char) by done.
  assert (H2 : ops !! (0 + 2) = Some ">"%char) by done.
  assert (H3 : exists c, ops !! (0 + 3) = Some c /\ is_sign c).
  { destruct s as [|c s]; [done|]. exists c. split; [done|].
    by apply Forall_inv in Hs. }
  destruct H3 as (c & H3 & Hc).
  assert (Hs1 : 1 <= length s) by (destruct s; [done|simpl; lia]).
  pose proof (Hat 0) as Hj. pose proof (Hat 1) as Hj1.
  rewrite Nat.add_0_r in Hj.
  remember (3 + length s) as j eqn:Ej.
  clearbody ops.
  unfold is_multiply_move_pattern.
  case_bool_decide as Hguard; [done|].
  rewrite (rd_ne_Some _ _ _ _ H0), (rd_ne_Some _ _ _ _ H1),
    (rd_ne_Some _ _ _ _ H2), !(rd_ne_Some _ _ _ _ H3), Hloop.
  assert (Hsign : negb (Ascii.eqb c "+") && negb (Ascii.eqb c "-") = false).
  { destruct Hc as [-> | ->]; done. }
  assert (Htail :
    (Got (bool_decide (j >= length ops)) ||| rd_ne ops j "<" |||
     Got (bool_decide (j + 1 >= length ops)) ||| rd_ne ops (j + 1) "]")
    = Got true).
  { case_bool_decide as Hend; [done|]. simpl.
    destruct t' as [|y t']; [simpl in Hlen; lia|].
    rewrite (rd_ne_Some _ _ y) by done.
    destruct (Ascii.eqb_spec y "<") as [->|]; [simpl|done].
    case_bool_decide as Hend1; [done|]. simpl.
    destruct t' as [|z t']; [simpl in Hlen; lia|].
    rewrite (rd_ne_Some _ _ z) by done.
    destruct (Ascii.eqb_spec z "]") as [->|]; [|done].
    by destruct (Hno t'). }
  simpl. destruct (negb (Ascii.eqb c "+")); simpl in *.
  - rewrite Hsign. simpl. by rewrite Htail.
  - by rewrite Htail.
Qed.

Lemma is_multiply_move_pattern_shape (X : buffer) p :
  is_multiply_move_pattern X 0 = Got p ->
  (found p = false /\ p = no_pattern) \/
  exists s t, Forall is_sign s /\ s <> [] /\
    X = src "[->" ++ s ++ src "<]" ++ t /\
    p = mkPattern true (sign_sum s) (5 + length s).
Proof.
  destruct X as [|c0 [|c1 [|c2 t]]];
    try (unfold is_multiply_move_pattern;
         rewrite bool_decide_eq_true_2 by (simpl; lia);
         intros [= <-]; by left).
  destruct (decide (c0 = "["%char /\ c1 = "-"%char /\ c2 = ">"%char))
    as [(-> & -> & ->)|Hne].
  - destruct (sign_prefix_decompose t) as (s & t' & -> & Hs & Ht').
    change ("["%char :: "-"%char :: ">"%char :: s ++ t')
      with (src "[->" ++ s ++ t').
    destruct s as [|c s].
    + intros H. left. revert H. unfold is_multiply_move_pattern.
      case_bool_decide; [by intros [= <-]|].
      destruct t' as [|y t']; [simpl in *; lia|].
      unfold rd_ne, rd. simpl.
      assert (Hy : negb (Ascii.eqb y "+") && negb (Ascii.eqb y "-") = true).
      { specialize (Ht' y eq_refl).
        destruct (Ascii.eqb_spec y "+") as [->|];
          [destruct Ht'; by left|].
        destruct (Ascii.eqb_spec y "-") as [->|];
          [destruct Ht'; by right|]. done. }
      destruct (negb (Ascii.eqb y "+")); simpl in *;
        [rewrite Hy; simpl|done]; by intros [= <-].
    + assert (Hcases : (exists t'', t' = src "<]" ++ t'') \/
                       (forall t'', t' <> src "<]" ++ t'')).
      { destruct t' as [|y [|z t'']]; [by right|by right|].
        destruct (decide (y = "<"%char /\ z = "]"%char)) as [[-> ->]|Hyz].
        - left. by exists t''.
        - right. intros t3 [= -> -> _]. tauto. }
      destruct Hcases as [[t'' ->]|Hno].
      * rewrite is_multiply_move_pattern_signs by done.
        intros [= <-]. right. by exists (c :: s), t''.
      * rewrite is_multiply_move_pattern_rejects by done.
        intros [= <-]. by left.
  - intros H. left. revert H. unfold is_multiply_move_pattern.
    case_bool_decide; [by intros [= <-]|].
    assert (H0 : (c0 :: c1 :: c2 :: t) !! 0 = Some c0) by done.
    assert (H1 : (c0 :: c1 :: c2 :: t) !! (0 + 1) = Some c1) by done.
    assert (H2 : (c0 :: c1 :: c2 :: t) !! (0 + 2) = Some c2) by done.
    rewrite (rd_ne_Some _ _ _ _ H0), (rd_ne_Some _ _ _ _ H1),
      (rd_ne_Some _ _ _ _ H2).
    destruct (Ascii.eqb_spec c0 "["); [|by intros [= <-]].
    destruct (Ascii.eqb_spec c1 "-"); [|by intros [= <-]].
    destruct (Ascii.eqb_spec c2 ">"); [|by intros [= <-]].
    tauto.
Qed.

Lemma is_set_value_pattern_none (X : buffer) p :
  is_set_value_pattern X 0 = Got p -> found p = false -> p = no_pattern.
Proof.
  unfold is_set_value_pattern. case_decide; [by intros [= <-]|].
  destruct (rd_ne X 0 "[" ||| _ ||| _) as [[]|]; simpl;
    [by intros [= <-]| |done].
  destruct (sign_loop _ _ _ _) as [[m j]|]; simpl; [|done].
  case_decide; intros [= <-]; done.
Qed.

End Shapes.

(** ** Brackets of the source and jumps of the result *)

Section Brackets.

Lemma open_brackets_app a b pos stk :
  open_brackets (a ++ b) pos stk
  = open_brackets b (pos + length a) (open_brackets a pos stk).
Proof.
  revert pos stk. induction a as [|c a IH]; intros pos stk; simpl.
  - by rewrite Nat.add_0_r.
  - rewrite IH. f_equal. lia.
Qed.

Lemma open_brackets_plain t pos stk :
  Forall no_bracket t -> open_brackets t pos stk = stk.
Proof.
  intros Ht. revert pos.
  induction Ht as [|c t [Hc1 Hc2] _ IH]; intros pos; simpl; [done|].
  destruct (Ascii.eqb_spec c "["); [done|].
  destruct (Ascii.eqb_spec c "]"); [done|]. apply IH.
Qed.

Lemma open_brackets_consumed t pos stk :
  consumed t -> open_brackets t pos stk = stk.
Proof.
  intros [t' Ht|t1 t2 H1 H2]; [by apply open_brackets_plain|].
  simpl. rewrite open_brackets_app, (open_brackets_plain t1) by done.
  simpl. by apply open_brackets_plain.
Qed.

(** A `]` inside the text of one dispatch closes the `[` the text starts
    with. *)
Lemma consumed_closer t m pos stk :
  consumed t -> t !! m = Some "]"%char ->
  head (open_brackets (take m t) pos stk) = Some pos.
Proof.
  intros [t' Ht|t1 t2 H1 H2] Hm.
  - apply (Forall_lookup_1 _ _ _ _ Ht) in Hm. by destruct Hm.
  - destruct m as [|m]; [done|]. simpl in Hm. simpl.
    destruct (decide (m < length t1)) as [Hlt|Hge].
    + rewrite lookup_app_l in Hm by done.
      apply (Forall_lookup_1 _ _ _ _ H1) in Hm. by destruct Hm.
    + rewrite lookup_app_r in Hm by lia.
      destruct (m - length t1) as [|d] eqn:Ed; simpl in Hm.
      * assert (m = length t1) as -> by lia.
        rewrite take_app_length. by rewrite open_brackets_plain.
      * apply (Forall_lookup_1 _ _ _ _ H2) in Hm. by destruct Hm.
Qed.

Lemma open_brackets_bound text pos stk p :
  p ∈ open_brackets text pos stk ->
  p ∈ stk \/ (pos <= p < pos + length text).
Proof.
  revert pos stk. induction text as [|c text IH]; intros pos stk; simpl.
  - by left.
  - intros Hp. apply IH in Hp as [Hp|Hp]; [|right; lia].
    destruct (Ascii.eqb c "[").
    + apply elem_of_cons in Hp as [->|Hp]; [right; lia|by left].
    + destruct (Ascii.eqb c "]"); [|by left].
      left. destruct stk; [done|]. simpl in Hp. by right.
Qed.

Lemma open_brackets_before ops q p :
  head (open_brackets (take q ops) 0 []) = Some p -> p < q.
Proof.
  intros H. apply head_Some_elem_of, open_brackets_bound in H as [H|H].
  - inversion H.
  - rewrite length_take in H. lia.
Qed.

Lemma dispatch_table_inv (ch : ascii) :
  match dispatch_table ch with
  | L_mv_right => ch = ">"%char
  | L_mv_left => ch = "<"%char
  | L_inc_val => ch = "+"%char
  | L_dec_val => ch = "-"%char
  | L_output => ch = "."%char
  | L_input => ch = ","%char
  | L_jmp_fwd => ch = "["%char
  | L_jmp_back => ch = "]"%char
  | L_unknown => no_bracket ch
  end.
Proof. destruct ch as [[] [] [] [] [] [] [] []]; by vm_compute. Qed.

(** Every byte a run is counted over is the target. *)
Lemma count_loop_content fuel ops start target count n :
  count_loop fuel ops start target count = Got n ->
  (forall m, 1 <= m < count -> ops !! (start + m) = Some target) ->
  forall m, 1 <= m < n -> ops !! (start + m) = Some target.
Proof.
  revert count. induction fuel as [|fuel IH]; intros count; simpl.
  { by intros [= <-]. }
  case_bool_decide as Hlt; simpl; [|by intros [= <-]].
  destruct (lookup_lt_is_Some_2 ops (start + count) Hlt) as [c Hc].
  unfold rd_eq, rd. rewrite Hc. simpl.
  destruct (Ascii.eqb_spec c target) as [->|]; [|by intros [= <-]].
  intros H Hold. apply (IH _ H). intros m Hm.
  destruct (decide (m = count)) as [->|]; [done|]. apply Hold. lia.
Qed.

Lemma is_set_zero_pattern_app pre ops pos :
  is_set_zero_pattern (pre ++ ops) (length pre + pos)
  = reindex (length pre) (is_set_zero_pattern ops pos).
Proof.
  induction pre as [|c pre IH]; simpl.
  - by destruct (is_set_zero_pattern ops pos).
  - rewrite is_set_zero_pattern_cons, IH.
    destruct (is_set_zero_pattern ops pos); simpl; [done|f_equal; lia].
Qed.

Lemma is_scan_pattern_app pre ops pos :
  is_scan_pattern (pre ++ ops) (length pre + pos)
  = reindex (length pre) (is_scan_pattern ops pos).
Proof.
  induction pre as [|c pre IH]; simpl.
  - by destruct (is_scan_pattern ops pos).
  - rewrite is_scan_pattern_cons, IH.
    destruct (is_scan_pattern ops pos); simpl; [done|f_equal; lia].
Qed.

Lemma is_add_to_next_pattern_app pre ops pos :
  is_add_to_next_pattern (pre ++ ops) (length pre + pos)
  = reindex (length pre) (is_add_to_next_pattern ops pos).
Proof.
  induction pre as [|c pre IH]; simpl.
  - by destruct (is_add_to_next_pattern ops pos).
  - rewrite is_add_to_next_pattern_cons, IH.
    destruct (is_add_to_next_pattern ops pos); simpl; [done|f_equal; lia].
Qed.

Lemma at_cursor {A} (f : buffer -> nat -> access A) ops i v :
  (forall pre ops pos,
     f (pre ++ ops) (length pre + pos) = reindex (length pre) (f ops pos)) ->
  i <= length ops -> f ops i = Got v -> f (drop i ops) 0 = Got v.
Proof.
  intros Happ Hi H. specialize (Happ (take i ops) (drop i ops) 0).
  rewrite take_drop, length_take_le, Nat.add_0_r, H in Happ by done.
  destruct (f (drop i ops) 0); simpl in Happ; congruence.
Qed.

Lemma take_drop_app (ops t t' : buffer) i :
  drop i ops = t ++ t' -> take (length t) (drop i ops) = t.
Proof. intros ->. apply take_app_length. Qed.

Lemma signs_no_bracket s : Forall is_sign s -> Forall no_bracket s.
Proof. intros H. eapply Forall_impl; [done|]. by intros c [-> | ->]. Qed.

Lemma parse_run_step ops s target o negate c :
  i s < length ops -> ops !! i s = Some target -> no_bracket target ->
  is_jump o = false ->
  parse_run ops s target o negate = Got c ->
  exists bc' stk' n, step ops s bc' stk' n /\ i s + n <= length ops /\
                     c = NEXT_CHAR_N ops bc' stk' (i s) n.
Proof.
  intros Hi Hch Htarget Ho. unfold parse_run, count_repeated_chars.
  destruct (count_loop_Got (length ops - i s) ops (i s) target 1)
    as (n0 & Hcount & Hn1 & Hn2).
  rewrite Hcount. simpl. intros [= <-].
  set (n := Z.to_nat (to_uint16 (Z.of_nat n0))).
  assert (Hn : n <= n0).
  { unfold n, to_uint16.
    pose proof (Z.mod_le (Z.of_nat n0) 65536 ltac:(lia) ltac:(lia)).
    pose proof (Z.mod_pos_bound (Z.of_nat n0) 65536 ltac:(lia)). lia. }
  eexists _, _, n. split; [|split; [lia|done]].
  apply step_plain; [by repeat constructor|].
  apply consumed_plain, Forall_lookup_2. intros m x Hm.
  apply lookup_take_Some in Hm as [Hm Hlt]. rewrite lookup_drop in Hm.
  destruct m as [|m].
  - rewrite Nat.add_0_r in Hm. congruence.
  - rewrite (count_loop_content _ _ _ _ _ _ Hcount) in Hm; [congruence| |lia].
    intros; lia.
Qed.

Lemma consumed_at (ops : buffer) i n (T t : buffer) :
  i <= length ops -> drop i ops = T ++ t -> n = length T -> consumed T ->
  consumed (take n (drop i ops)) /\ i + n <= length ops.
Proof.
  intros Hi HX -> HT. split.
  - by rewrite HX, take_app_length.
  - apply (f_equal length) in HX. rewrite length_drop, length_app in HX. lia.
Qed.

Lemma parse_jmp_fwd_step ops s c :
  i s < length ops -> ops !! i s = Some "["%char ->
  parse_jmp_fwd ops s = Got c ->
  exists bc' stk' n, step ops s bc' stk' n /\ i s + n <= length ops /\
                     c = NEXT_CHAR_N ops bc' stk' (i s) n.
Proof.
  intros Hi Hch. unfold parse_jmp_fwd.
  assert (Hle : i s <= length ops) by lia.
  destruct (is_set_value_pattern ops (i s)) as [p1|] eqn:E1; simpl; [|done].
  apply (at_cursor _ _ _ _ is_set_value_pattern_app Hle) in E1.
  destruct (found p1) eqn:F1.
  { apply is_set_value_pattern_shape in E1
      as (s0 & t & Hs & _ & _ & HX & ->); [|done].
    intros [= <-]. simpl.
    destruct (consumed_at ops (i s) (S (S (S (length s0))))
                (src "[-]" ++ s0) t Hle) as [Hc Hn]; [done|done| |].
    { apply (consumed_loop ["-"%char] s0); [by repeat constructor|].
      by apply signs_no_bracket. }
    eexists _, _, _. split; [|split; [exact Hn|done]].
    apply step_plain; [by repeat constructor|done]. }
  clear E1 F1 p1.
  destruct (is_set_zero_pattern ops (i s)) as [zero|] eqn:E2; simpl; [|done].
  apply (at_cursor _ _ _ _ is_set_zero_pattern_app Hle) in E2.
  destruct zero.
  { apply is_set_zero_pattern_shape in E2 as (c0 & t & Hc0 & HX).
    intros [= <-].
    destruct (consumed_at ops (i s) 3 ["["%char; c0; "]"%char] t Hle)
      as [Hc Hn]; [done|done| |].
    { apply (consumed_loop [c0] []); [|done].
      repeat constructor; by destruct Hc0 as [-> | ->]. }
    eexists _, _, _. split; [|split; [exact Hn|done]].
    apply step_plain; [by repeat constructor|done]. }
  clear E2.
  destruct (is_scan_pattern ops (i s)) as [p3|] eqn:E3; simpl; [|done].
  clear E3.
  set (bc := if found p3 then _ else _).
  assert (Hbc : exists new, bc = bytecode s ++ new /\
            Forall (fun ins => is_jump (op ins) = false) new).
  { unfold bc. destruct (found p3).
    - case_decide; eexists; (split; [done|]); by repeat constructor.
    - exists []. by rewrite app_nil_r. }
  clearbody bc. destruct Hbc as (new & -> & Hnew).
  destruct (is_add_to_next_pattern ops (i s)) as [next|] eqn:E4; simpl;
    [|done].
  apply (at_cursor _ _ _ _ is_add_to_next_pattern_app Hle) in E4.
  destruct next.
  { apply is_add_to_next_pattern_shape in E4 as (t & HX).
    intros [= <-].
    destruct (consumed_at ops (i s) 6 (src "[->+<]") t Hle)
      as [Hc Hn]; [done|done| |].
    { apply (consumed_loop (src "->+<") []); [|done].
      by repeat constructor. }
    exists (bytecode s ++ (new ++ [mkInstruction ADD_TO_NEXT 0 0])),
      (loop_stack s), 6.
    split; [|split; [exact Hn|by rewrite app_assoc]].
    apply step_plain; [|done].
    apply Forall_app. split; [done|by repeat constructor]. }
  clear E4.
  destruct (is_multiply_move_pattern ops (i s)) as [p5|] eqn:E5; simpl;
    [|done].
  apply (at_cursor _ _ _ _ is_multiply_move_pattern_app Hle) in E5.
  apply is_multiply_move_pattern_shape in E5
    as [[-> _]|(s0 & t & Hs & _ & HX & ->)]; simpl.
  - intros [= <-]. unfold NEXT_CHAR.
    eexists _, _, 1. split; [|split; [lia|done]].
    by apply step_open.
  - intros [= <-].
    assert (HT : src "[->" ++ s0 ++ src "<]"
                 = "["%char :: (src "->" ++ s0 ++ src "<") ++ ["]"%char]).
    { simpl. by rewrite <- app_assoc. }
    destruct (consumed_at ops (i s) (S (S (S (S (S (length s0))))))
                ("["%char :: (src "->" ++ s0 ++ src "<") ++ ["]"%char])
                t Hle) as [Hc Hn].
    { rewrite <- HT, HX. by rewrite <- !app_assoc. }
    { rewrite <- HT, !length_app. simpl. lia. }
    { apply (consumed_loop (src "->" ++ s0 ++ src "<") []); [|done].
      repeat (apply Forall_app; split); try by repeat constructor.
      by apply signs_no_bracket. }
    exists (bytecode s
            ++ (new ++ [mkInstruction MULTIPLY_MV 0 (sign_sum s0)])),
      (loop_stack s), (S (S (S (S (S (length s0)))))).
    split; [|split; [exact Hn|by rewrite app_assoc]].
    apply step_plain; [|done].
    apply Forall_app. split; [done|by repeat constructor].
Qed.

Lemma dispatch_step ops s c :
  i s < length ops -> dispatch ops s = Got c ->
  exists bc' stk' n, step ops s bc' stk' n /\ i s + n <= length ops /\
                     c = NEXT_CHAR_N ops bc' stk' (i s) n.
Proof.
  intros Hi. rewrite dispatch_body.
  destruct (lookup_lt_is_Some_2 ops (i s) Hi) as [ch Hch].
  unfold rd. rewrite Hch. simpl.
  assert (Hone : forall x, no_bracket x -> ops !! i s = Some x ->
            consumed (take 1 (drop (i s) ops))).
  { intros x Hx Hlook. rewrite (drop_S _ _ _ Hlook).
    apply consumed_plain. change (Forall no_bracket [x]).
    constructor; [done|constructor]. }
  pose proof (dispatch_table_inv ch) as Hinv.
  destruct (dispatch_table ch); simpl; subst;
    try (apply parse_run_step; by auto).
  - intros [= <-]. unfold NEXT_CHAR.
    exists (bytecode s ++ [mkInstruction OUTPUT 0 0]), (loop_stack s), 1.
    split; [|split; [lia|done]].
    apply step_plain; [by repeat constructor|]. by apply (Hone "."%char).
  - intros [= <-]. unfold NEXT_CHAR.
    exists (bytecode s ++ [mkInstruction INPUT 0 0]), (loop_stack s), 1.
    split; [|split; [lia|done]].
    apply step_plain; [by repeat constructor|]. by apply (Hone ","%char).
  - by apply parse_jmp_fwd_step.
  - unfold parse_jmp_back, NEXT_CHAR.
    destruct (loop_stack s) as [|top rest] eqn:Estk; intros [= <-].
    + exists (bytecode s), [], 1. split; [|split; [lia|done]].
      by apply step_stray.
    + eexists _, rest, 1. split; [|split; [lia|done]].
      by apply step_close.
  - intros [= <-]. unfold NEXT_CHAR.
    exists (bytecode s ++ []), (loop_stack s), 1.
    split; [|split; [lia|by rewrite app_nil_r]].
    apply step_plain; [done|]. by apply (Hone ch).
Qed.

(** The origins after a push, index by index. *)
Lemma origins_old (from : list nat) extra k p :
  from !! k = Some p -> (from ++ extra) !! k = Some p.
Proof. apply lookup_app_l_Some. Qed.

Lemma traced_plain ops bc stk cur from new n :
  traced ops bc stk cur from ->
  Forall (fun ins => is_jump (op ins) = false) new ->
  consumed (take n (drop cur ops)) ->
  traced ops (bc ++ new) stk (cur + n)
    (from ++ replicate (length new) cur).
Proof.
  intros T Hnew Htext.
  pose proof (tr_len _ _ _ _ _ T) as Hlen.
  assert (Hold : forall k ins, (bc ++ new) !! k = Some ins ->
            is_jump (op ins) = true -> bc !! k = Some ins).
  { intros k ins Hk Hj. apply lookup_app_Some in Hk as [Hk|[_ Hk]]; [done|].
    apply (Forall_lookup_1 _ _ _ _ Hnew) in Hk. congruence. }
  assert (Hfrom : forall k ins p, bc !! k = Some ins ->
            (from ++ replicate (length new) cur) !! k = Some p ->
            from !! k = Some p).
  { intros k ins p Hk Hp. apply lookup_lt_Some in Hk.
    by rewrite lookup_app_l in Hp by lia. }
  split.
  - by rewrite !length_app, length_replicate, Hlen.
  - intros k ins p Hk Hp Hj. apply Hold in Hk; [|done].
    pose proof (tr_before _ _ _ _ _ T k ins p Hk (Hfrom _ _ _ Hk Hp) Hj). lia.
  - rewrite <- take_take_drop, open_brackets_app.
    rewrite (open_brackets_consumed _ _ _ Htext).
    eapply Forall2_impl; [apply (tr_stack _ _ _ _ _ T)|].
    intros k p. apply origins_old.
  - intros k ins p Hk Hop Hp. apply Hold in Hk; [|by rewrite Hop].
    apply (tr_fwd_at _ _ _ _ _ T k ins p Hk Hop). by eapply Hfrom.
  - intros k k' f f' p Hk Hk' Hf Hf' Hp Hp'.
    apply Hold in Hk; [|by rewrite Hf]. apply Hold in Hk'; [|by rewrite Hf'].
    apply (tr_inj _ _ _ _ _ T k k' f f' p); try done; by eapply Hfrom.
  - intros j b q Hj Hb Hq. apply Hold in Hj; [|by rewrite Hb].
    destruct (tr_back _ _ _ _ _ T j b q Hj Hb (Hfrom _ _ _ Hj Hq))
      as (k & p & ? & Hp & ?).
    exists k, p. split; [done|]. split; [by apply origins_old|done].
  - intros k f p q Hk Hf Hp Hclose Hq. apply Hold in Hk; [|by rewrite Hf].
    pose proof (Hfrom _ _ _ Hk Hp) as Hp0.
    destruct (decide (q < cur)) as [Hlt|Hge].
    + destruct (tr_closed _ _ _ _ _ T k f p q Hk Hf Hp0 Hclose Hlt)
        as (j & b & Hj & ? & Hjq & ?).
      exists j, b. split; [by apply lookup_app_l_Some|].
      split; [done|]. split; [by apply origins_old|done].
    + exfalso.
      pose proof (tr_before _ _ _ _ _ T k f p Hk Hp0 ltac:(by rewrite Hf)).
      destruct Hclose as (_ & Hqc & Hhead).
      assert (Hq' : take n (drop cur ops) !! (q - cur) = Some "]"%char).
      { rewrite lookup_take_lt by lia. rewrite lookup_drop.
        by replace (cur + (q - cur)) with q by lia. }
      pose proof (consumed_closer _ _ cur
                    (open_brackets (take cur ops) 0 []) Htext Hq') as Hc.
      rewrite take_take in Hc.
      replace ((q - cur) `min` n) with (q - cur) in Hc by lia.
      assert (Htq : take q ops
                    = take cur ops ++ take (q - cur) (drop cur ops)).
      { rewrite take_take_drop. f_equal. lia. }
      rewrite Htq, open_brackets_app in Hhead.
      rewrite length_take_le in Hhead by (apply lookup_lt_Some in Hqc; lia).
      simpl in Hhead. rewrite Hc in Hhead. injection Hhead as <-. lia.
Qed.

Lemma take_succ (ops : buffer) cur c :
  ops !! cur = Some c -> take (cur + 1) ops = take cur ops ++ [c].
Proof. intros H. rewrite Nat.add_1_r. by apply take_S_r. Qed.

Lemma traced_open ops bc stk cur from :
  traced ops bc stk cur from -> ops !! cur = Some "["%char ->
  traced ops (bc ++ [mkInstruction JUMP_FWD 0 0]) (length bc :: stk)
    (cur + 1) (from ++ [cur]).
Proof.
  intros T Hch. pose proof (tr_len _ _ _ _ _ T) as Hlen.
  split.
  - rewrite !length_app. simpl. lia.
  - intros k ins p Hk Hp Hj.
    apply lookup_snoc_Some in Hk as [[Hlt Hk]|[-> <-]].
    + rewrite lookup_app_l in Hp by lia.
      pose proof (tr_before _ _ _ _ _ T k ins p Hk Hp Hj). lia.
    + rewrite <- Hlen, list_lookup_middle in Hp by done.
      injection Hp as <-. lia.
  - rewrite (take_succ _ _ _ Hch), open_brackets_app.
    rewrite length_take_le by (apply lookup_lt_Some in Hch; lia). simpl.
    constructor.
    + by rewrite <- Hlen, list_lookup_middle.
    + eapply Forall2_impl; [apply (tr_stack _ _ _ _ _ T)|].
      intros k p. apply origins_old.
  - intros k ins p Hk Hop Hp.
    apply lookup_snoc_Some in Hk as [[Hlt Hk]|[-> <-]].
    + rewrite lookup_app_l in Hp by lia.
      by apply (tr_fwd_at _ _ _ _ _ T k ins p).
    + rewrite <- Hlen, list_lookup_middle in Hp by done. by injection Hp as <-.
  - intros k k' f f' p Hk Hk' Hf Hf' Hp Hp'.
    apply lookup_snoc_Some in Hk as [[Hlt Hk]|[-> <-]];
      apply lookup_snoc_Some in Hk' as [[Hlt' Hk']|[-> <-]]; [| | |done].
    + rewrite lookup_app_l in Hp, Hp' by lia.
      by apply (tr_inj _ _ _ _ _ T k k' f f' p).
    + rewrite lookup_app_l in Hp by lia.
      rewrite <- Hlen, list_lookup_middle in Hp' by done. injection Hp' as <-.
      pose proof (tr_before _ _ _ _ _ T k f cur Hk Hp ltac:(by rewrite Hf)).
      lia.
    + rewrite lookup_app_l in Hp' by lia.
      rewrite <- Hlen, list_lookup_middle in Hp by done. injection Hp as <-.
      pose proof (tr_before _ _ _ _ _ T k' f' cur Hk' Hp'
                    ltac:(by rewrite Hf')).
      lia.
  - intros j b q Hj Hb Hq.
    apply lookup_snoc_Some in Hj as [[Hlt Hj]|[-> <-]]; [|done].
    rewrite lookup_app_l in Hq by lia.
    destruct (tr_back _ _ _ _ _ T j b q Hj Hb Hq) as (k & p & ? & Hp & ?).
    exists k, p. split; [done|]. split; [by apply origins_old|done].
  - intros k f p q Hk Hf Hp Hclose Hq.
    apply lookup_snoc_Some in Hk as [[Hlt Hk]|[-> <-]].
    + rewrite lookup_app_l in Hp by lia.
      destruct (decide (q < cur)) as [Hlt'|Hge].
      * destruct (tr_closed _ _ _ _ _ T k f p q Hk Hf Hp Hclose Hlt')
          as (j & b & Hj & ? & Hjq & ?).
        exists j, b. split; [by apply lookup_app_l_Some|].
        split; [done|]. split; [by apply origins_old|done].
      * assert (q = cur) as -> by lia.
        destruct Hclose as (_ & Hqc & _). congruence.
    + rewrite <- Hlen, list_lookup_middle in Hp by done. injection Hp as <-.
      destruct Hclose as (_ & _ & Hhead).
      apply open_brackets_before in Hhead. lia.
Qed.

Lemma traced_alter ops bc stk cur from top r f :
  traced ops bc stk cur from -> bc !! top = Some f -> op f = JUMP_FWD ->
  traced ops (alter (set_jump_ref r) top bc) stk cur from.
Proof.
  intros T Htop Hf.
  assert (Hold : forall k ins,
    alter (set_jump_ref r) top bc !! k = Some ins ->
    exists ins0, bc !! k = Some ins0 /\ op ins0 = op ins /\
                 (op ins = JUMP_BACK -> ins0 = ins)).
  { intros k ins Hk. destruct (decide (k = top)) as [->|Hne].
    - rewrite list_lookup_alter_eq, Htop in Hk. injection Hk as <-.
      exists f. split; [done|]. split; [done|]. simpl. congruence.
    - rewrite list_lookup_alter_ne in Hk by done. by exists ins. }
  split.
  - rewrite length_alter. apply (tr_len _ _ _ _ _ T).
  - intros k ins p Hk Hp Hj. apply Hold in Hk as (ins0 & Hk & Hop & _).
    apply (tr_before _ _ _ _ _ T k ins0 p Hk Hp). by rewrite Hop.
  - apply (tr_stack _ _ _ _ _ T).
  - intros k ins p Hk Hop Hp. apply Hold in Hk as (ins0 & Hk & Hop0 & _).
    apply (tr_fwd_at _ _ _ _ _ T k ins0 p Hk); [congruence|done].
  - intros k k' g g' p Hk Hk' Hg Hg' Hp Hp'.
    apply Hold in Hk as (g0 & Hk & Hop & _).
    apply Hold in Hk' as (g0' & Hk' & Hop' & _).
    apply (tr_inj _ _ _ _ _ T k k' g0 g0' p); try done; congruence.
  - intros j b q Hj Hb Hq. apply Hold in Hj as (b0 & Hj & Hop & Hsame).
    rewrite (Hsame Hb) in Hj.
    apply (tr_back _ _ _ _ _ T j b q Hj Hb Hq).
  - intros k g p q Hk Hg Hp Hclose Hq.
    apply Hold in Hk as (g0 & Hk & Hop & _).
    destruct (tr_closed _ _ _ _ _ T k g0 p q Hk ltac:(congruence) Hp
                Hclose Hq) as (j & b & Hj & Hb & Hjq & Href).
    exists j, b. split; [|done].
    rewrite list_lookup_alter_ne; [done|]. intros <-. congruence.
Qed.

Lemma traced_close ops bc top rest cur from f :
  traced ops bc (top :: rest) cur from ->
  bc !! top = Some f -> op f = JUMP_FWD ->
  ops !! cur = Some "]"%char ->
  traced ops (bc ++ [mkInstruction JUMP_BACK (Z.of_nat top) 0]) rest
    (cur + 1) (from ++ [cur]).
Proof.
  intros T Htop Hf Hch. pose proof (tr_len _ _ _ _ _ T) as Hlen.
  pose proof (tr_stack _ _ _ _ _ T) as Hstk.
  apply Forall2_cons_inv_l in Hstk as (ptop & prest & Hptop & Hrest & Htext).
  split.
  - rewrite !length_app. simpl. lia.
  - intros k ins p Hk Hp Hj.
    apply lookup_snoc_Some in Hk as [[Hlt Hk]|[-> <-]].
    + rewrite lookup_app_l in Hp by lia.
      pose proof (tr_before _ _ _ _ _ T k ins p Hk Hp Hj). lia.
    + rewrite <- Hlen, list_lookup_middle in Hp by done.
      injection Hp as <-. lia.
  - rewrite (take_succ _ _ _ Hch), open_brackets_app, Htext. simpl.
    eapply Forall2_impl; [apply Hrest|].
    intros k p. apply origins_old.
  - intros k ins p Hk Hop Hp.
    apply lookup_snoc_Some in Hk as [[Hlt Hk]|[-> <-]]; [|done].
    rewrite lookup_app_l in Hp by lia.
    by apply (tr_fwd_at _ _ _ _ _ T k ins p).
  - intros k k' g g' p Hk Hk' Hg Hg' Hp Hp'.
    apply lookup_snoc_Some in Hk as [[Hlt Hk]|[-> <-]]; [|done].
    apply lookup_snoc_Some in Hk' as [[Hlt' Hk']|[-> <-]]; [|done].
    rewrite lookup_app_l in Hp, Hp' by lia.
    by apply (tr_inj _ _ _ _ _ T k k' g g' p).
  - intros j b q Hj Hb Hq.
    apply lookup_snoc_Some in Hj as [[Hlt Hj]|[-> <-]].
    + rewrite lookup_app_l in Hq by lia.
      destruct (tr_back _ _ _ _ _ T j b q Hj Hb Hq) as (k & p & ? & Hp & ?).
      exists k, p. split; [done|]. split; [by apply origins_old|done].
    + rewrite <- Hlen, list_lookup_middle in Hq by done. injection Hq as <-.
      exists top, ptop. split; [done|]. split; [by apply origins_old|].
      split; [by apply (tr_fwd_at _ _ _ _ _ T top f ptop)|].
      split; [done|]. by rewrite Htext.
  - intros k g p q Hk Hg Hp Hclose Hq.
    apply lookup_snoc_Some in Hk as [[Hlt Hk]|[-> <-]]; [|done].
    rewrite lookup_app_l in Hp by lia.
    destruct (decide (q < cur)) as [Hlt'|Hge].
    + destruct (tr_closed _ _ _ _ _ T k g p q Hk Hg Hp Hclose Hlt')
        as (j & b & Hj & ? & Hjq & ?).
      exists j, b. split; [by apply lookup_app_l_Some|].
      split; [done|]. split; [by apply origins_old|done].
    + assert (q = cur) as -> by lia.
      destruct Hclose as (_ & _ & Hhead). rewrite Htext in Hhead.
      injection Hhead as <-.
      assert (k = top) as ->
        by apply (tr_inj _ _ _ _ _ T k top g f ptop Hk Htop Hg Hf Hp Hptop).
      exists (length bc), (mkInstruction JUMP_BACK (Z.of_nat top) 0).
      split; [by apply list_lookup_middle|]. split; [done|].
      split; [|done]. by rewrite <- Hlen, list_lookup_middle.
Qed.

Lemma traced_stray ops bc cur from :
  traced ops bc [] cur from -> ops !! cur = Some "]"%char ->
  traced ops bc [] (cur + 1) from.
Proof.
  intros T Hch. pose proof (tr_stack _ _ _ _ _ T) as Hstk.
  apply Forall2_nil_inv_l in Hstk.
  split; try apply T.
  - intros k ins p Hk Hp Hj.
    pose proof (tr_before _ _ _ _ _ T k ins p Hk Hp Hj). lia.
  - rewrite (take_succ _ _ _ Hch), open_brackets_app, Hstk. simpl.
    constructor.
  - intros k g p q Hk Hg Hp Hclose Hq.
    destruct (decide (q < cur)) as [Hlt'|Hge].
    + by apply (tr_closed _ _ _ _ _ T k g p q).
    + assert (q = cur) as -> by lia.
      destruct Hclose as (_ & _ & Hhead). by rewrite Hstk in Hhead.
Qed.

Lemma traced_step ops s from bc' stk' n :
  linking (bytecode s) (loop_stack s) ->
  traced ops (bytecode s) (loop_stack s) (i s) from ->
  step ops s bc' stk' n ->
  traced ops bc' stk' (i s + n)
    (from ++ replicate (length bc' - length from) (i s)).
Proof.
  intros L T Hstep. pose proof (tr_len _ _ _ _ _ T) as Hlen.
  destruct Hstep as [new n Hnew Htext|new Hch Hnew|top rest Hch Hstk|Hch Hstk].
  - replace (length (bytecode s ++ new) - length from) with (length new)
      by (rewrite length_app; lia).
    by apply traced_plain.
  - replace (length ((bytecode s ++ new) ++ [mkInstruction JUMP_FWD 0 0])
             - length from) with (length new + 1)
      by (rewrite !length_app; simpl; lia).
    rewrite replicate_add, app_assoc. apply traced_open; [|done].
    rewrite <- (Nat.add_0_r (i s)) at 1.
    apply traced_plain; [done|done|]. by apply consumed_plain.
  - rewrite Hstk in L, T.
    destruct (lk_open _ _ L top) as (f & Htop & Hf & _); [by left|].
    rewrite length_app, length_alter. simpl.
    replace (length (bytecode s) + 1 - length from) with 1 by lia.
    apply (traced_close _ _ _ _ _ _
             (set_jump_ref (Z.of_nat (length (bytecode s))) f));
      [| |done|done].
    + by apply (traced_alter _ _ _ _ _ _ _ f).
    + by rewrite list_lookup_alter_eq, Htop.
  - rewrite Hstk in T.
    replace (length (bytecode s) - length from) with 0 by lia.
    simpl. rewrite app_nil_r. by apply traced_stray.
Qed.

Lemma traced_start ops : traced ops [] [] 0 [].
Proof. by split. Qed.

Lemma traced_run fuel ops s from bc :
  i s < length ops ->
  linking (bytecode s) (loop_stack s) ->
  traced ops (bytecode s) (loop_stack s) (i s) from ->
  run fuel ops s = Returned bc ->
  exists from', run_origins fuel ops s from = Some from' /\
    (exists stk, linking bc stk) /\
    exists stk' cur', traced ops bc stk' cur' from' /\ length ops <= cur'.
Proof.
  revert s from. induction fuel as [|fuel IH]; intros s from Hi L T; [done|].
  cbn [run run_origins].
  destruct (dispatch ops s) as [c|] eqn:E; [|done].
  pose proof (linking_dispatch _ _ _ L E) as L'.
  destruct (dispatch_step _ _ _ Hi E) as (bc' & stk' & n & Hstep & Hn & ->).
  pose proof (traced_step _ _ _ _ _ _ L T Hstep) as T'.
  rewrite emitted_NEXT_CHAR_N.
  revert L'. unfold NEXT_CHAR_N. case_decide as Hnext; simpl.
  - intros L'. by apply IH.
  - intros L' [= <-]. eexists. split; [done|]. split; [done|].
    exists stk', (i s + n). split; [done|lia].
Qed.

(** C6: the jumps of the compiled sequence are the brackets of the source
    that match.  With [from] the source index at which each instruction
    was pushed: every JUMP_BACK was pushed at a `]`, its target is the
    index of a JUMP_FWD that was pushed at the `[` this `]` closes, and
    the target of that JUMP_FWD is the index of the JUMP_BACK; and
    whenever the `[` of a JUMP_FWD is closed by a `]` of the source, there
    is a JUMP_BACK that was pushed at that `]`, and the two instructions
    carry each other's indices. *)
Theorem compile_links_brackets (ops : buffer) (bc : list Instruction) :
  compiles_to ops bc ->
  mutually_linked bc /\
  exists fuel from,
    origins fuel ops = Some from /\ length from = length bc /\
    (forall j q r, jump_at bc from JUMP_BACK j q r ->
       exists k p, r = Z.of_nat k /\
         jump_at bc from JUMP_FWD k p (Z.of_nat j) /\ closes ops p q) /\
    (forall k p r q, jump_at bc from JUMP_FWD k p r -> closes ops p q ->
       exists j, r = Z.of_nat j /\
         jump_at bc from JUMP_BACK j q (Z.of_nat k)).
Proof.
  intros [fuel H]. unfold compile_fuel in H. destruct ops as [|c ops].
  { injection H as <-. split.
    - apply (linking_mutually_linked _ []), linking_start.
    - exists 0, []. repeat split; try done.
      + intros j q r (ins & Hj & _). by rewrite lookup_nil in Hj.
      + intros k p r q (ins & Hk & _). by rewrite lookup_nil in Hk. }
  apply (traced_run _ _ _ []) in H
    as (from & Hfrom & [stk L] & stk' & cur' & T & Hcur);
    [|simpl; lia|apply linking_start|apply traced_start].
  split; [by apply linking_mutually_linked in L|].
  exists fuel, from. split; [done|].
  split; [apply (tr_len _ _ _ _ _ T)|]. split.
  - intros j q r (b & Hj & Hb & <- & Hq).
    destruct (tr_back _ _ _ _ _ T j b q Hj Hb Hq) as (k & p & Hk & Hp & Hc).
    destruct (lk_back _ _ L j b Hj Hb) as (k' & f & Hk' & _ & Hf & Hfop & Hfr).
    assert (k' = k) as -> by lia.
    exists k, p. split; [done|]. split; [|done]. by exists f.
  - intros k p r q (f & Hk & Hf & <- & Hp) Hc.
    assert (Hq : q < cur').
    { destruct Hc as (_ & Hq & _). apply lookup_lt_Some in Hq. lia. }
    destruct (tr_closed _ _ _ _ _ T k f p q Hk Hf Hp Hc Hq)
      as (j & b & Hj & Hb & Hjq & Href).
    destruct (lk_back _ _ L j b Hj Hb) as (k' & f' & Hk' & _ & Hf' & _ & Hfr).
    assert (k' = k) as -> by lia.
    rewrite Hk in Hf'. injection Hf' as <-.
    exists j. split; [done|]. by exists b.
Qed.

Lemma compile_links_brackets_witness :
  mutually_linked
    [mkInstruction SET_VAL 0 1; mkInstruction JUMP_FWD 7 0;
     mkInstruction OUTPUT 0 0; mkInstruction JUMP_FWD 5 0;
     mkInstruction OUTPUT 0 0; mkInstruction JUMP_BACK 3 0;
     mkInstruction OUTPUT 0 0; mkInstruction JUMP_BACK 1 0] /\
  exists fuel from,
    origins fuel (src "][-]+[.[.].]") = Some from /\
    length from
    = length [mkInstruction SET_VAL 0 1; mkInstruction JUMP_FWD 7 0;
              mkInstruction OUTPUT 0 0; mkInstruction JUMP_FWD 5 0;
              mkInstruction OUTPUT 0 0; mkInstruction JUMP_BACK 3 0;
              mkInstruction OUTPUT 0 0; mkInstruction JUMP_BACK 1 0] /\
    (forall j q r,
       jump_at
         [mkInstruction SET_VAL 0 1; mkInstruction JUMP_FWD 7 0;
          mkInstruction OUTPUT 0 0; mkInstruction JUMP_FWD 5 0;
          mkInstruction OUTPUT 0 0; mkInstruction JUMP_BACK 3 0;
          mkInstruction OUTPUT 0 0; mkInstruction JUMP_BACK 1 0]
         from JUMP_BACK j q r ->
       exists k p, r = Z.of_nat k /\
         jump_at
           [mkInstruction SET_VAL 0 1; mkInstruction JUMP_FWD 7 0;
            mkInstruction OUTPUT 0 0; mkInstruction JUMP_FWD 5 0;
            mkInstruction OUTPUT 0 0; mkInstruction JUMP_BACK 3 0;
            mkInstruction OUTPUT 0 0; mkInstruction JUMP_BACK 1 0]
           from JUMP_FWD k p (Z.of_nat j) /\
         closes (src "][-]+[.[.].]") p q) /\
    (forall k p r q,
       jump_at
         [mkInstruction SET_VAL 0 1; mkInstruction JUMP_FWD 7 0;
          mkInstruction OUTPUT 0 0; mkInstruction JUMP_FWD 5 0;
          mkInstruction OUTPUT 0 0; mkInstruction JUMP_BACK 3 0;
          mkInstruction OUTPUT 0 0; mkInstruction JUMP_BACK 1 0]
         from JUMP_FWD k p r ->
       closes (src "][-]+[.[.].]") p q ->
       exists j, r = Z.of_nat j /\
         jump_at
           [mkInstruction SET_VAL 0 1; mkInstruction JUMP_FWD 7 0;
            mkInstruction OUTPUT 0 0; mkInstruction JUMP_FWD 5 0;
            mkInstruction OUTPUT 0 0; mkInstruction JUMP_BACK 3 0;
            mkInstruction OUTPUT 0 0; mkInstruction JUMP_BACK 1 0]
           from JUMP_BACK j q (Z.of_nat k)).
Proof.
  apply (compile_links_brackets (src "][-]+[.[.].]")).
  exists 20. vm_compute. reflexivity.
Defined.

(** On `][-]+[.[.].]`: the stray `]` and the loop `[-]+` push no jump;
    the inner pair comes from the brackets at 7 and 9, the outer pair
    from those at 5 and 11. *)
Example scenario_origins :
  origins 20 (src "][-]+[.[.].]") = Some [1; 5; 6; 7; 8; 9; 10; 11] /\
  closes (src "][-]+[.[.].]") 7 9 /\ closes (src "][-]+[.[.].]") 5 11 /\
  closes (src "][-]+[.[.].]") 1 3 /\
  ~ closes (src "][-]+[.[.].]") 5 9.
Proof.
  split; [by vm_compute|]. repeat split; try by vm_compute.
  intros (_ & _ & H). vm_compute in H. discriminate.
Qed.

End Brackets.

(** ** Comment bytes that split no folded text *)

Section Agreement.

Lemma folded_no_barrier (T : buffer) (b : ascii) :
  folded T -> b ∈ T -> ~ is_barrier b.
Proof.
  assert (Hsign : forall s, Forall is_sign s -> b ∈ s -> ~ is_barrier b).
  { intros s Hs Hb. apply (proj1 (Forall_forall _ _) Hs) in Hb.
    destruct Hb as [-> | ->]; intros Hbar; exact Hbar. }
  intros [c Hc|c Hc|c Hc|s Hs _] Hb Hbar.
  - assert (b = c) as ->.
    { repeat (apply elem_of_cons in Hb as [->|Hb]; [done|]). inversion Hb. }
    by apply (run_instruction_not_barrier c c 0 Hc Hbar).
  - repeat (apply elem_of_cons in Hb as [->|Hb];
            [first [exact Hbar | destruct Hc as [-> | ->]; exact Hbar]|]).
    inversion Hb.
  - repeat (apply elem_of_cons in Hb as [->|Hb];
            [first [exact Hbar | destruct Hc as [-> | ->]; exact Hbar]|]).
    inversion Hb.
  - apply elem_of_app in Hb as [Hb|Hb].
    { repeat (apply elem_of_cons in Hb as [->|Hb]; [exact Hbar|]).
      inversion Hb. }
    apply elem_of_app in Hb as [Hb|Hb]; [by apply (Hsign s)|].
    repeat (apply elem_of_cons in Hb as [->|Hb]; [exact Hbar|]).
    inversion Hb.
Qed.

(** A check that accepts exactly the buffers starting with certain folded
    texts gives the same answer on [u ++ rest] as on [u] followed by a
    barrier, when no folded text starts with [u] and ends in [rest]. *)
Section Check.

Context {A : Type} (f : buffer -> access A) (none : A).
Variable accepts : buffer -> A -> Prop.
Hypothesis sound : forall X a,
  f X = Got a -> a = none \/ exists T t, X = T ++ t /\ folded T /\ accepts T a.
Hypothesis complete : forall T t a, accepts T a -> f (T ++ t) = Got a.

Lemma check_agrees (u rest : buffer) b r a a' :
  is_barrier b ->
  (forall v, v <> [] -> v `prefix_of` rest -> ~ folded (u ++ v)) ->
  f (u ++ rest) = Got a -> f (u ++ b :: r) = Got a' -> a = a'.
Proof.
  intros Hb Hclean Ha Ha'.
  destruct (sound _ _ Ha) as [->|(T & t & HX & HT & Hacc)].
  - destruct (sound _ _ Ha') as [->|(T & t & HX & HT & Hacc)]; [done|].
    apply app_eq_inv in HX as [(k & -> & _)|(k & -> & Hk)].
    + rewrite <- app_assoc, (complete _ _ _ Hacc) in Ha. congruence.
    + destruct k as [|x k].
      * rewrite app_nil_r in Hacc. rewrite (complete _ _ _ Hacc) in Ha.
        congruence.
      * injection Hk as <- _. exfalso.
        apply (folded_no_barrier _ b HT); [|done].
        apply elem_of_app. right. by left.
  - apply app_eq_inv in HX as [(k & -> & _)|(k & -> & Hk)].
    + rewrite <- app_assoc, (complete _ _ _ Hacc) in Ha'. congruence.
    + destruct k as [|x k].
      * rewrite app_nil_r in Hacc. rewrite (complete _ _ _ Hacc) in Ha'.
        congruence.
      * exfalso. apply (Hclean (x :: k)); [done| |done].
        exists t. done.
Qed.

End Check.

Lemma is_set_zero_pattern_agrees (u rest : buffer) b r v v' :
  is_barrier b ->
  (forall v, v <> [] -> v `prefix_of` rest -> ~ folded (u ++ v)) ->
  is_set_zero_pattern (u ++ rest) 0 = Got v ->
  is_set_zero_pattern (u ++ b :: r) 0 = Got v' -> v = v'.
Proof.
  apply (check_agrees (fun X => is_set_zero_pattern X 0) false
           (fun T a => a = true /\
              exists c, is_sign c /\ T = ["["%char; c; "]"%char])).
  - intros X a H. destruct a; [right|by left].
    apply is_set_zero_pattern_shape in H as (c & t & Hc & ->).
    exists ["["%char; c; "]"%char], t. split; [done|].
    split; [by apply folded_set_zero|]. split; [done|by exists c].
  - intros T t a (-> & c & Hc & ->). by apply is_set_zero_pattern_at.
Qed.

Lemma is_scan_pattern_agrees (u rest : buffer) b r p p' :
  is_barrier b ->
  (forall v, v <> [] -> v `prefix_of` rest -> ~ folded (u ++ v)) ->
  is_scan_pattern (u ++ rest) 0 = Got p ->
  is_scan_pattern (u ++ b :: r) 0 = Got p' -> p = p'.
Proof.
  apply (check_agrees (fun X => is_scan_pattern X 0) no_pattern
           (fun T a => exists c, (c = ">"%char \/ c = "<"%char) /\
              T = ["["%char; c; "]"%char] /\
              a = mkPattern true (if Ascii.eqb c ">" then 1 else 0) 3)).
  - intros X a H.
    apply is_scan_pattern_shape in H as [[_ ->]|(c & t & Hc & -> & ->)];
      [by left|right].
    exists ["["%char; c; "]"%char], t. split; [done|].
    split; [by apply folded_scan|]. by exists c.
  - intros T t a (c & Hc & -> & ->). by apply is_scan_pattern_at.
Qed.

Lemma is_add_to_next_pattern_agrees (u rest : buffer) b r v v' :
  is_barrier b ->
  (forall v, v <> [] -> v `prefix_of` rest -> ~ folded (u ++ v)) ->
  is_add_to_next_pattern (u ++ rest) 0 = Got v ->
  is_add_to_next_pattern (u ++ b :: r) 0 = Got v' -> v = v'.
Proof.
  apply (check_agrees (fun X => is_add_to_next_pattern X 0) false
           (fun T a => a = true /\ T = src "[->+<]")).
  - intros X a H. destruct a; [right|by left].
    apply is_add_to_next_pattern_shape in H as (t & ->).
    exists (src "[->+<]"), t. split; [done|]. split; [|done].
    apply (folded_multiply (src "+")); [|done].
    constructor; [by left|constructor].
  - intros T t a (-> & ->). apply is_add_to_next_pattern_at.
Qed.

Lemma is_multiply_move_pattern_agrees (u rest : buffer) b r p p' :
  is_barrier b ->
  (forall v, v <> [] -> v `prefix_of` rest -> ~ folded (u ++ v)) ->
  is_multiply_move_pattern (u ++ rest) 0 = Got p ->
  is_multiply_move_pattern (u ++ b :: r) 0 = Got p' -> p = p'.
Proof.
  apply (check_agrees (fun X => is_multiply_move_pattern X 0) no_pattern
           (fun T a => exists s, Forall is_sign s /\ s <> [] /\
              T = src "[->" ++ s ++ src "<]" /\
              a = mkPattern true (sign_sum s) (5 + length s))).
  - intros X a H.
    apply is_multiply_move_pattern_shape in H
      as [[_ ->]|(s & t & Hs & Hne & -> & ->)]; [by left|right].
    exists (src "[->" ++ s ++ src "<]"), t.
    split; [by rewrite <- !app_assoc|].
    split; [by apply folded_multiply|]. by exists s.
  - intros T t a (s & Hs & Hne & -> & ->).
    rewrite <- !app_assoc. by apply is_multiply_move_pattern_signs.
Qed.

Lemma barrier_not_sign b : is_barrier b -> ~ is_sign b.
Proof. intros Hb [-> | ->]; exact Hb. Qed.

(** After a `[-]`: the signs up to the end of [k] and the signs up to
    the barrier are the same, or both sums are zero. *)
Lemma is_set_value_pattern_after (k rest : buffer) b r :
  is_barrier b ->
  ~ splits_set_value (src "[-]" ++ k) rest ->
  is_set_value_pattern (src "[-]" ++ k ++ rest) 0
  = is_set_value_pattern (src "[-]" ++ k ++ b :: r) 0.
Proof.
  intros Hb Hsv.
  destruct (sign_prefix_decompose k) as (s1 & t1 & -> & Hs1 & Ht1).
  destruct t1 as [|c t1].
  - rewrite app_nil_r in *.
    rewrite (is_set_value_pattern_signs s1 (b :: r)); [|done|];
      [|intros c [= <-]; by apply barrier_not_sign].
    destruct (sign_prefix_decompose rest) as (s2 & t & -> & Hs2 & Ht).
    destruct (decide (s2 = [])) as [->|Hne].
    { change ([] ++ t) with t. by rewrite is_set_value_pattern_signs. }
    rewrite (app_assoc s1 s2 t), is_set_value_pattern_signs;
      [|by apply Forall_app|done].
    destruct (decide (sign_sum s1 = 0%Z)) as [H1|H1];
      [destruct (decide (sign_sum (s1 ++ s2) = 0%Z)) as [H2|H2]|].
    + by rewrite !decide_False by lia.
    + exfalso. apply Hsv. exists [], s1, s2, t. repeat split; try done.
      by right.
    + exfalso. apply Hsv. exists [], s1, s2, t. repeat split; try done.
      by left.
  - assert (Hc : forall tail c', head ((c :: t1) ++ tail) = Some c' ->
                   ~ is_sign c').
    { intros tail c' [= <-]. by apply Ht1. }
    rewrite <- !app_assoc.
    by rewrite !is_set_value_pattern_signs by (done || apply Hc).
Qed.

Lemma is_set_value_pattern_agrees (u rest : buffer) b r p p' :
  is_barrier b ->
  (forall v, v <> [] -> v `prefix_of` rest -> ~ folded (u ++ v)) ->
  ~ splits_set_value u rest ->
  is_set_value_pattern (u ++ rest) 0 = Got p ->
  is_set_value_pattern (u ++ b :: r) 0 = Got p' -> p = p'.
Proof.
  intros Hb Hclean Hsv Hp Hp'.
  assert (Hafter : (exists k, u = src "[-]" ++ k) -> p = p').
  { intros [k ->]. rewrite <- !app_assoc in Hp, Hp'.
    rewrite (is_set_value_pattern_after k rest b r Hb Hsv) in Hp.
    congruence. }
  assert (Hzero : folded (src "[-]")).
  { apply folded_set_zero. by right. }
  destruct (found p) eqn:F.
  - apply Hafter.
    apply is_set_value_pattern_shape in Hp
      as (s & t & _ & _ & _ & HX & _); [|done].
    apply app_eq_inv in HX as [(k & -> & _)|(k & HT & Hk)]; [by exists k|].
    destruct k as [|x k].
    + exists []. by rewrite app_nil_r in HT |- *.
    + exfalso. apply (Hclean (x :: k)); [done|by eexists|].
      by rewrite <- HT.
  - pose proof (is_set_value_pattern_none _ _ Hp F) as ->.
    destruct (found p') eqn:F';
      [|symmetry; by apply (is_set_value_pattern_none _ _ Hp')].
    apply Hafter.
    apply is_set_value_pattern_shape in Hp'
      as (s & t & _ & _ & _ & HX & _); [|done].
    apply app_eq_inv in HX as [(k & -> & _)|(k & HT & Hk)]; [by exists k|].
    destruct k as [|x k].
    + exists []. by rewrite app_nil_r in HT |- *.
    + exfalso. injection Hk as <- _.
      apply (folded_no_barrier (src "[-]") b Hzero); [|done].
      rewrite HT. apply elem_of_app. right. by left.
Qed.

(** [parse_jmp_fwd] on [u ++ rest] takes the branch it takes on [u]
    followed by a barrier, or reads past the end of the buffer. *)
Lemma parse_jmp_fwd_agrees (u rest : buffer) b r bc stk :
  is_barrier b ->
  (forall v, v <> [] -> v `prefix_of` rest -> ~ folded (u ++ v)) ->
  ~ splits_set_value u rest ->
  (exists k, parse_jmp_fwd (u ++ rest) (mkLocals bc stk 0) = OutOfRange k) \/
  exists bc' stk' n,
    parse_jmp_fwd (u ++ rest) (mkLocals bc stk 0)
    = Got (NEXT_CHAR_N (u ++ rest) bc' stk' 0 n) /\
    parse_jmp_fwd (u ++ b :: r) (mkLocals bc stk 0)
    = Got (NEXT_CHAR_N (u ++ b :: r) bc' stk' 0 n).
Proof.
  intros Hb Hclean Hsv.
  destruct (is_set_value_pattern_Got (u ++ rest) 0) as (p1 & E1 & _).
  destruct (is_set_value_pattern_Got (u ++ b :: r) 0) as (p1' & E1' & _).
  pose proof (is_set_value_pattern_agrees _ _ _ _ _ _ Hb Hclean Hsv E1 E1')
    as ->.
  destruct (is_set_zero_pattern_Got (u ++ rest) 0) as (v2 & E2).
  destruct (is_set_zero_pattern_Got (u ++ b :: r) 0) as (v2' & E2').
  pose proof (is_set_zero_pattern_agrees _ _ _ _ _ _ Hb Hclean E2 E2') as ->.
  destruct (is_scan_pattern_Got (u ++ rest) 0) as (p3 & E3).
  destruct (is_scan_pattern_Got (u ++ b :: r) 0) as (p3' & E3').
  pose proof (is_scan_pattern_agrees _ _ _ _ _ _ Hb Hclean E3 E3') as ->.
  destruct (is_multiply_move_pattern_Got (u ++ rest) 0) as (p5 & E5 & _).
  destruct (is_multiply_move_pattern_Got (u ++ b :: r) 0) as (p5' & E5' & _).
  pose proof (is_multiply_move_pattern_agrees _ _ _ _ _ _ Hb Hclean E5 E5')
    as ->.
  destruct (is_add_to_next_pattern_local u) as (v4' & _ & E4').
  specialize (E4' b r Hb).
  unfold parse_jmp_fwd. cbn [i bytecode loop_stack].
  rewrite E1, E1'. cbn [mbind access_bind].
  destruct (found p1'); [right; by eexists _, _, _|].
  rewrite E2, E2'. cbn [mbind access_bind].
  destruct v2'; [right; by eexists _, _, _|].
  rewrite E3, E3'. cbn [mbind access_bind].
  destruct (is_add_to_next_pattern_cases (u ++ rest) 0)
    as [(v4 & E4 & _)|[E4 _]].
  - pose proof (is_add_to_next_pattern_agrees _ _ _ _ _ _ Hb Hclean E4 E4')
      as ->.
    rewrite E4, E4'. cbn [mbind access_bind].
    destruct v4'; [right; by eexists _, _, _|].
    rewrite E5, E5'. cbn [mbind access_bind]. unfold NEXT_CHAR.
    destruct (found p5'); right; by eexists _, _, _.
  - left. rewrite E4. by eexists.
Qed.

(** One dispatch with the cursor on the first byte of [u]. *)
Lemma dispatch_agrees (u rest : buffer) b r bc stk :
  u <> [] -> is_barrier b ->
  (forall u' v, u' <> [] -> v <> [] -> u' `suffix_of` u ->
     v `prefix_of` rest -> ~ folded (u' ++ v)) ->
  ~ splits_set_value u rest ->
  (exists k, dispatch (u ++ rest) (mkLocals bc stk 0) = OutOfRange k) \/
  exists bc' stk' n,
    n <= length u /\
    dispatch (u ++ rest) (mkLocals bc stk 0)
    = Got (NEXT_CHAR_N (u ++ rest) bc' stk' 0 n) /\
    dispatch (u ++ b :: r) (mkLocals bc stk 0)
    = Got (NEXT_CHAR_N (u ++ b :: r) bc' stk' 0 n).
Proof.
  intros Hu Hb Hclean Hsv.
  assert (Hmain :
    (exists k, dispatch (u ++ rest) (mkLocals bc stk 0) = OutOfRange k) \/
    exists bc' stk' n,
      dispatch (u ++ rest) (mkLocals bc stk 0)
      = Got (NEXT_CHAR_N (u ++ rest) bc' stk' 0 n) /\
      dispatch (u ++ b :: r) (mkLocals bc stk 0)
      = Got (NEXT_CHAR_N (u ++ b :: r) bc' stk' 0 n)).
  { destruct u as [|c w]; [done|].
    destruct (run_instruction c 0) as [ins0|] eqn:Erun.
    - right. destruct (run_decompose c w) as (k & w' & Hdec & Hw').
      destruct (run_instruction_operand c 0 (to_uint16 (Z.of_nat (S k))))
        as [ins Hins]; [by eexists|].
      exists (bc ++ [ins]), stk, (Z.to_nat (to_uint16 (Z.of_nat (S k)))).
      rewrite Hdec, <- !app_assoc. split.
      + apply (dispatch_run [] (w' ++ rest) (S k) c ins bc stk Hins); [|lia].
        destruct w' as [|x w']; [|done]. simpl. intros Hrest.
        destruct rest as [|x rest']; [done|]. injection Hrest as ->.
        apply (Hclean [c] [c]); [done|done| |by exists rest'|].
        * rewrite Hdec, app_nil_r, replicate_S_end. by eexists.
        * apply folded_run. by rewrite Erun.
      + apply (dispatch_run [] (w' ++ b :: r) (S k) c ins bc stk Hins);
          [|lia].
        destruct w' as [|x w']; [|done]. simpl. intros [= ->].
        by eapply run_instruction_not_barrier.
    - apply no_run_label in Erun. rewrite !dispatch_body.
      change (rd ((c :: w) ++ rest) (i (mkLocals bc stk 0))) with (Got c).
      change (rd ((c :: w) ++ b :: r) (i (mkLocals bc stk 0))) with (Got c).
      cbn [mbind access_bind].
      repeat (apply elem_of_cons in Erun as [->|Erun]); cbn [body].
      + right. unfold parse_output, NEXT_CHAR. by eexists _, _, _.
      + right. unfold parse_input, NEXT_CHAR. by eexists _, _, _.
      + apply parse_jmp_fwd_agrees; [done| |done]. intros v Hv Hpre.
        by apply Hclean.
      + right. unfold parse_jmp_back, NEXT_CHAR.
        cbn [loop_stack bytecode i]. destruct stk; by eexists _, _, _.
      + right. unfold parse_unknown, NEXT_CHAR. by eexists _, _, _.
      + inversion Erun. }
  destruct Hmain as [?|(bc' & stk' & n & E & E')]; [by left|right].
  exists bc', stk', n. split; [|done].
  destruct (dispatch_local u bc stk Hu) as (s' & Hs' & Hd).
  rewrite (Hd b r Hb) in E'. injection E' as E'.
  unfold NEXT_CHAR_N in E'. case_decide; [|done].
  injection E' as ->. simpl in Hs'. done.
Qed.

(** The same with the cursor anywhere in [w]. *)
Lemma dispatch_agrees_at (w rest : buffer) b r bc stk p :
  p < length w -> is_barrier b -> ~ splits_token w rest ->
  (exists k, dispatch (w ++ rest) (mkLocals bc stk p) = OutOfRange k) \/
  exists bc' stk' p',
    p' <= length w /\
    dispatch (w ++ rest) (mkLocals bc stk p)
    = Got (resume (w ++ rest) bc' stk' p') /\
    dispatch (w ++ b :: r) (mkLocals bc stk p)
    = Got (resume (w ++ b :: r) bc' stk' p').
Proof.
  intros Hp Hb Hno.
  assert (Hlen : length (take p w) = p) by (rewrite length_take; lia).
  assert (Hshift : forall tail,
    dispatch (w ++ tail) (mkLocals bc stk p)
    = reindex p (advance_control p
                   <$> dispatch (drop p w ++ tail) (mkLocals bc stk 0))).
  { intros tail.
    pose proof (dispatch_app (take p w) (drop p w ++ tail)
                  (mkLocals bc stk 0)) as Happ.
    rewrite Hlen in Happ. unfold advance at 1 in Happ. simpl in Happ.
    rewrite Nat.add_0_r, app_assoc, take_drop in Happ. done. }
  assert (Hnext : forall tail bc' stk' n,
    advance_control p (NEXT_CHAR_N (drop p w ++ tail) bc' stk' 0 n)
    = resume (w ++ tail) bc' stk' (p + n)).
  { intros tail bc' stk' n.
    pose proof (NEXT_CHAR_N_app (take p w) (drop p w ++ tail) bc' stk' 0 n)
      as Happ.
    rewrite Hlen, app_assoc, take_drop, Nat.add_0_r in Happ.
    by rewrite Happ, NEXT_CHAR_N_resume. }
  destruct (dispatch_agrees (drop p w) rest b r bc stk)
    as [[k E]|(bc' & stk' & n & Hn & E & E')]; [|done| | | |].
  - intros E. apply (f_equal length) in E. rewrite length_drop in E.
    simpl in E. lia.
  - intros u' v Hu' Hv Hsuf Hpre Hfold. apply Hno. left.
    exists u', v. repeat split; try done.
    etrans; [exact Hsuf|apply suffix_drop].
  - intros (w' & s1 & s2 & t & Hw' & Hrest & H). apply Hno. right.
    exists (take p w ++ w'), s1, s2, t. split; [|done].
    by rewrite <- app_assoc, <- Hw', take_drop.
  - left. rewrite Hshift, E. by eexists.
  - right. exists bc', stk', (p + n). rewrite length_drop in Hn.
    split; [lia|]. rewrite !Hshift, E, E'. simpl. by rewrite !Hnext.
Qed.

Lemma comments_at_cursor (w cs rest : buffer) bc0 stk bc :
  Forall is_comment cs ->
  returns (w ++ rest) (resume (w ++ rest) bc0 stk (length w)) bc
  <-> returns (w ++ cs ++ rest)
        (resume (w ++ cs ++ rest) bc0 stk (length w)) bc.
Proof.
  intros Hcs. rewrite <- (Nat.add_0_r (length w)).
  by rewrite <- !resume_app, !returns_app, returns_comments.
Qed.

Lemma returns_resume fuel ops bc' stk' p' bc :
  match resume ops bc' stk' p' with
  | Dispatch s' => run fuel ops s'
  | Return b => Returned b
  end = Returned bc ->
  returns ops (resume ops bc' stk' p') bc.
Proof.
  destruct (resume ops bc' stk' p') as [s'|b]; simpl.
  - intros H. by exists fuel.
  - by intros [= ->].
Qed.

Lemma comments_forward (w cs rest : buffer) b cs' :
  cs = b :: cs' -> Forall is_comment cs -> ~ splits_token w rest ->
  forall fuel bc0 stk p bc,
    p < length w ->
    run fuel (w ++ rest) (mkLocals bc0 stk p) = Returned bc ->
    returns (w ++ cs ++ rest) (Dispatch (mkLocals bc0 stk p)) bc.
Proof.
  intros -> Hcs Hno fuel.
  assert (Hb : is_barrier b).
  { apply is_comment_barrier. by apply Forall_inv in Hcs. }
  induction fuel as [|fuel IH]; intros bc0 stk p bc Hp Hrun; [done|].
  destruct (dispatch_agrees_at w rest b (cs' ++ rest) bc0 stk p Hp Hb Hno)
    as [[k E]|(bc' & stk' & p' & Hp' & E & E')].
  { simpl in Hrun. by rewrite E in Hrun. }
  simpl in Hrun. rewrite E in Hrun.
  change ((b :: cs') ++ rest) with (b :: cs' ++ rest).
  apply (returns_step _ _ _ _ E').
  destruct (decide (p' = length w)) as [->|Hne].
  - apply returns_resume in Hrun.
    by apply (comments_at_cursor w (b :: cs') rest).
  - rewrite resume_Dispatch in Hrun by (rewrite length_app; lia).
    rewrite resume_Dispatch by (rewrite length_app; lia).
    apply IH; [lia|done].
Qed.

Lemma comments_backward (w cs rest : buffer) b cs' :
  cs = b :: cs' -> Forall is_comment cs -> ~ splits_token w rest ->
  forall fuel bc0 stk p bc,
    p < length w ->
    run fuel (w ++ cs ++ rest) (mkLocals bc0 stk p) = Returned bc ->
    returns (w ++ rest) (Dispatch (mkLocals bc0 stk p)) bc \/
    ends_in_open_add_to_next (w ++ rest).
Proof.
  intros -> Hcs Hno fuel.
  assert (Hb : is_barrier b).
  { apply is_comment_barrier. by apply Forall_inv in Hcs. }
  induction fuel as [|fuel IH]; intros bc0 stk p bc Hp Hrun; [done|].
  destruct (dispatch_agrees_at w rest b (cs' ++ rest) bc0 stk p Hp Hb Hno)
    as [[k E]|(bc' & stk' & p' & Hp' & E & E')].
  { right.
    pose proof (dispatch_progress (w ++ rest) (mkLocals bc0 stk p)) as Hd.
    rewrite E in Hd. apply Hd. simpl. rewrite length_app. lia. }
  change ((b :: cs') ++ rest) with (b :: cs' ++ rest) in Hrun.
  simpl in Hrun. rewrite E' in Hrun.
  destruct (decide (p' = length w)) as [->|Hne].
  - left. apply returns_resume in Hrun.
    apply (returns_step _ _ _ _ E).
    by apply (comments_at_cursor w (b :: cs') rest).
  - rewrite resume_Dispatch in Hrun by (rewrite length_app; lia).
    destruct (IH bc' stk' p' bc ltac:(lia) Hrun) as [H|H]; [left|by right].
    apply (returns_step _ _ _ _ E).
    by rewrite resume_Dispatch by (rewrite length_app; lia).
Qed.

(** Bytes that are side by side in a folded text. *)
Lemma signs_then_close (s l l2 : buffer) a b :
  Forall is_sign s -> s ++ src "<]" = l ++ a :: b :: l2 ->
  adjacent a b = true.
Proof.
  intros Hs. revert l. induction Hs as [|c s Hc Hs IH]; intros l E.
  - destruct l as [|x [|y l]]; simplify_eq/=; [done|by destruct l].
  - destruct l as [|x l]; [|injection E as _ E; by apply (IH l)].
    injection E as <- E. destruct s as [|c' s]; simplify_eq/=.
    + by destruct Hc as [-> | ->].
    + apply Forall_inv in Hs.
      by destruct Hc as [-> | ->], Hs as [-> | ->].
Qed.

Lemma folded_adjacent (T l l2 : buffer) a b :
  folded T -> T = l ++ a :: b :: l2 -> adjacent a b = true.
Proof.
  intros [c Hc|c Hc|c Hc|s Hs Hne] E.
  - destruct l as [|x [|y l]]; simplify_eq/=; [|by destruct l].
    destruct b as [[] [] [] [] [] [] [] []]; simpl in Hc |- *;
      try reflexivity; by destruct Hc.
  - destruct l as [|x [|y l]]; simplify_eq/=;
      [by destruct Hc as [-> | ->]..|by destruct l as [|? [|? ?]]].
  - destruct l as [|x [|y l]]; simplify_eq/=;
      [by destruct Hc as [-> | ->]..|by destruct l as [|? [|? ?]]].
  - destruct l as [|x [|y [|z l]]]; simplify_eq/=; [done..| |].
    + destruct s as [|c s]; [done|]. simplify_eq/=.
      apply Forall_inv in Hs. by destruct Hs as [-> | ->].
    + by apply (signs_then_close s l l2).
Qed.

(** A place inside a folded text has a byte of [adjacent] on each
    side. *)
Lemma splits_token_adjacent (pre post : buffer) :
  splits_token pre post ->
  exists a b, last pre = Some a /\ head post = Some b /\ adjacent a b = true.
Proof.
  intros [(u & v & Hu & Hv & [k ->] & [t ->] & Hfold)
         |(w & s1 & s2 & t & -> & -> & Hs1 & Hs2 & Hne & _ & _)].
  - destruct u as [|a u _] using rev_ind; [done|].
    destruct v as [|b v]; [done|]. exists a, b.
    split; [by rewrite app_assoc, last_snoc|]. split; [done|].
    rewrite <- app_assoc in Hfold. by apply (folded_adjacent _ u v a b Hfold).
  - destruct s2 as [|b s2]; [done|]. apply Forall_inv in Hs2.
    destruct s1 as [|a s1 _] using rev_ind.
    + exists "]"%char, b. split; [|split; [done|]].
      * rewrite app_nil_r.
        change (src "[-]") with (["["%char; "-"%char] ++ ["]"%char]).
        by rewrite app_assoc, last_snoc.
      * by destruct Hs2 as [-> | ->].
    + exists a, b. split; [by rewrite !app_assoc, last_snoc|].
      split; [done|]. apply Forall_app in Hs1 as [_ Ha].
      apply Forall_inv in Ha.
      by destruct Ha as [-> | ->], Hs2 as [-> | ->].
Qed.

(** At the start and at the end of the buffer, and between two bytes
    that are never side by side in a folded text, no folded text is
    split. *)
Lemma outside_tokens (pre post : buffer) :
  match last pre, head post with
  | Some a, Some b => adjacent a b = false
  | _, _ => True
  end ->
  ~ splits_token pre post.
Proof.
  intros H Hsplit.
  destruct (splits_token_adjacent pre post Hsplit) as (a & b & Ha & Hb & Hab).
  rewrite Ha, Hb in H. congruence.
Qed.

(** Next to a byte that is none of `> < + - [ ]`, no folded text is
    split. *)
Lemma outside_tokens_barrier (pre post : buffer) :
  (exists b, last pre = Some b /\ is_barrier b)
  \/ (exists b, head post = Some b /\ is_barrier b) ->
  ~ splits_token pre post.
Proof.
  intros H [(u & v & Hu & Hv & [k ->] & [t ->] & Hfold)
           |(w & s1 & s2 & t & -> & -> & Hs1 & Hs2 & Hne & _ & _)].
  - destruct u as [|a u _] using rev_ind; [done|].
    destruct v as [|b v]; [done|].
    rewrite app_assoc, last_snoc in H. simpl in H.
    destruct H as [(x & [= <-] & Hbar)|(x & [= <-] & Hbar)];
      apply (folded_no_barrier _ _ Hfold) in Hbar; try done;
      rewrite <- app_assoc; apply elem_of_app; right; simpl.
    + by left.
    + right. by left.
  - destruct s2 as [|b s2]; [done|]. apply Forall_inv in Hs2. simpl in H.
    destruct H as [(x & Hx & Hbar)|(x & [= <-] & Hbar)];
      [|by apply (barrier_not_sign b)].
    destruct s1 as [|a s1 _] using rev_ind.
    + change (w ++ ["["%char; "-"%char; "]"%char])
        with (w ++ ["["%char; "-"%char] ++ ["]"%char]) in Hx.
      rewrite app_assoc, last_snoc in Hx. injection Hx as <-. exact Hbar.
    + change (w ++ "["%char :: "-"%char :: "]"%char :: s1 ++ [a])
        with (w ++ (src "[-]" ++ s1) ++ [a]) in Hx.
      rewrite app_assoc, last_snoc in Hx. injection Hx as <-.
      apply Forall_app in Hs1 as [_ Ha]. apply Forall_inv in Ha.
      by apply (barrier_not_sign a).
Qed.

Lemma insert_comments (pre cs post : buffer) (bc : list Instruction) :
  Forall is_comment cs -> ~ splits_token pre post ->
  compiles_to (pre ++ post) bc -> compiles_to (pre ++ cs ++ post) bc.
Proof.
  intros Hcs Hno. destruct cs as [|b cs']; [done|].
  rewrite !compiles_to_returns. destruct pre as [|c pre'].
  - simpl. intros H. by apply (returns_comments (b :: cs')).
  - rewrite !resume_Dispatch by (simpl; lia). intros [fuel H].
    apply (comments_forward (c :: pre') (b :: cs') post b cs' eq_refl Hcs Hno
             fuel); [simpl; lia|done].
Qed.

(** Any number of insertions, each outside the folded texts. *)
Lemma insert_comments_repeatedly (ops ops' : buffer)
  (bc : list Instruction) :
  with_comments_outside ops ops' ->
  compiles_to ops bc -> compiles_to ops' bc.
Proof.
  induction 1 as [|pre cs post ops' Hcs Hno _ IH]; [done|].
  intros H. apply IH. by apply insert_comments.
Qed.

(** C2, amended: comment bytes (bytes other than `> < + - . , [ ]`)
    inserted at one place of the buffer leave the result of [compile] as
    it was, unless the place is where [compile] reads several bytes as
    one instruction: between two equal bytes among `> < + -`; inside a
    `[-]`, `[+]`, `[>]`, `[<]` or a `[->`, signs, `<]`; or in front of
    a sign among the signs that follow a `[-]`, when the sum of those
    signs, or of the ones before the place, is not zero.  Everywhere
    else, if the buffer without the inserted bytes compiles to a
    sequence, the buffer with them compiles to the same sequence; and a
    sequence the buffer with them compiles to is the one the buffer
    without them compiles to, unless that buffer ends in the five bytes
    `[->+<`, where [is_add_to_next_pattern] reads past its end. *)
Theorem comments_between_tokens (pre cs post : buffer)
  (bc : list Instruction) :
  Forall is_comment cs -> ~ splits_token pre post ->
  (compiles_to (pre ++ post) bc -> compiles_to (pre ++ cs ++ post) bc) /\
  (compiles_to (pre ++ cs ++ post) bc ->
   compiles_to (pre ++ post) bc \/ ends_in_open_add_to_next (pre ++ post)).
Proof.
  intros Hcs Hno. split; [by apply insert_comments|].
  destruct cs as [|b cs']; [by left|].
  rewrite !compiles_to_returns. destruct pre as [|c pre'].
  - simpl. intros H. left. by apply (returns_comments (b :: cs')).
  - rewrite !resume_Dispatch by (simpl; lia). intros [fuel H].
    apply (comments_backward (c :: pre') (b :: cs') post b cs' eq_refl Hcs
             Hno fuel); [simpl; lia|done].
Qed.

Lemma comments_between_tokens_witness :
  let bc := [mkInstruction ADD_VAL 0 1; mkInstruction JUMP_FWD 6 0;
             mkInstruction MV_POS 0 1; mkInstruction ADD_VAL 0 1;
             mkInstruction MV_POS 0 (-1); mkInstruction ADD_VAL 0 (-1);
             mkInstruction JUMP_BACK 1 0; mkInstruction SET_ZERO 0 0] in
  (compiles_to (src "+[>+<-]" ++ src "[-]") bc ->
   compiles_to (src "+[>+<-]" ++ src "x" ++ src "[-]") bc) /\
  (compiles_to (src "+[>+<-]" ++ src "x" ++ src "[-]") bc ->
   compiles_to (src "+[>+<-]" ++ src "[-]") bc
   \/ ends_in_open_add_to_next (src "+[>+<-]" ++ src "[-]")).
Proof.
  apply comments_between_tokens.
  - repeat constructor.
  - apply outside_tokens. reflexivity.
Defined.

(** The places left out do change the result: a comment byte inside
    `[-]`, `[>]`, `[->+<]`, `[->++<]`, and after `[-]` in front of signs
    whose sum, or whose sum before the place, is not zero. *)
Example comments_inside_tokens :
  compile_fuel 9 (src "[-x]") <> compile_fuel 9 (src "[-]")
  /\ compile_fuel 9 (src "[>x]") <> compile_fuel 9 (src "[>]")
  /\ compile_fuel 9 (src "[->x+<]") <> compile_fuel 9 (src "[->+<]")
  /\ compile_fuel 9 (src "[->+x+<]") <> compile_fuel 9 (src "[->++<]")
  /\ compile_fuel 9 (src "[-]x+") <> compile_fuel 9 (src "[-]+")
  /\ compile_fuel 9 (src "[-]+x-") <> compile_fuel 9 (src "[-]+-").
Proof. vm_compute. repeat split; discriminate. Qed.

(** Places the theorem covers: between two different runs, between a
    loop and the next one, after an open bracket of a loop that is not
    folded, and at the end of the buffer. *)
Example places_outside_tokens :
  ~ splits_token (src "+") (src ">")
  /\ ~ splits_token (src "+[>+<-]") (src "[-]")
  /\ ~ splits_token (src ">") (src "[.]>-")
  /\ ~ splits_token (src ">[.]") (src ">-")
  /\ ~ splits_token (src "[") (src ".]")
  /\ ~ splits_token (src "++") [].
Proof. repeat split; by apply outside_tokens. Qed.

End Agreement.
